(** * The JSP formatter of [src/formatter.ts]

    A shallow embedding of [JspFormattingProvider]: the string primitives
    of the host language that the formatter calls, a backtracking matcher
    for the regular expressions it is written with, and the methods
    [formatJsp], [formatHtmlStructure], [formatDirective],
    [formatJspComment], [formatJspBlock] and [formatJavaCode]. *)

From Stdlib Require Import Ascii String DecimalString NArith ZArith Bool Lia List.
From Stdlib Require DecimalNat DecimalFacts.
Import ListNotations.

Set Implicit Arguments.

(** ** Strings

    A string of the host language is a sequence of UTF-16 code units. *)

Definition char := N.
Definition jstring := list char.

Definition ch (a : ascii) : char := N_of_ascii a.
Definition js (s : string) : jstring := map ch (list_ascii_of_string s).

Definition LF : char := 10%N.
Definition CR : char := 13%N.

(** [WhiteSpace] and [LineTerminator] of the language: what [\s] matches
    and what [trim] strips. *)
Definition isSpace (c : char) : bool :=
  ((9 <=? c) && (c <=? 13) || (c =? 32) || (c =? 160) || (c =? 5760)
   || (8192 <=? c) && (c <=? 8202) || (c =? 8232) || (c =? 8233)
   || (c =? 8239) || (c =? 8287) || (c =? 12288) || (c =? 65279))%N.

Definition isLineTerminator (c : char) : bool :=
  ((c =? 10) || (c =? 13) || (c =? 8232) || (c =? 8233))%N.

Definition isDigit (c : char) : bool := ((48 <=? c) && (c <=? 57))%N.
Definition isUpper (c : char) : bool := ((65 <=? c) && (c <=? 90))%N.
Definition isLower (c : char) : bool := ((97 <=? c) && (c <=? 122))%N.
Definition isAlpha (c : char) : bool := isUpper c || isLower c.

(** [\w] *)
Definition isWord (c : char) : bool := isAlpha c || isDigit c || (c =? 95)%N.

Definition eqc (a : ascii) (c : char) : bool := (c =? ch a)%N.

(** Equality up to ASCII case, the canonicalisation of the [i] flag
    without the [u] flag for a pattern character below 128. *)
Definition toUpperAscii (c : char) : char := if isLower c then (c - 32)%N else c.
Definition eqci (a : ascii) (c : char) : bool := (toUpperAscii c =? toUpperAscii (ch a))%N.

Fixpoint eqs (a b : jstring) : bool :=
  match a, b with
  | [], [] => true
  | x :: a', y :: b' => (x =? y)%N && eqs a' b'
  | _, _ => false
  end.

Fixpoint startsWith (s p : jstring) : bool :=
  match p, s with
  | [], _ => true
  | x :: p', y :: s' => (x =? y)%N && startsWith s' p'
  | _ :: _, [] => false
  end.

Definition endsWith (s p : jstring) : bool := startsWith (rev s) (rev p).

(** [s.includes(c)] and [s.indexOf(c) === -1] for a one-character [c]. *)
Definition includesChar (s : jstring) (c : char) : bool := existsb (N.eqb c) s.

Fixpoint dropSpace (s : jstring) : jstring :=
  match s with
  | c :: t => if isSpace c then dropSpace t else s
  | [] => []
  end.

(** [s.trim()] *)
Definition trim (s : jstring) : jstring := rev (dropSpace (rev (dropSpace s))).

(** [s.slice(start, stop)], either index counted from the end when negative. *)
Definition slice (s : jstring) (start stop : Z) : jstring :=
  let len := Z.of_nat (length s) in
  let rel i := if (i <? 0)%Z then Z.max (len + i) 0 else Z.min i len in
  firstn (Z.to_nat (rel stop - rel start)) (skipn (Z.to_nat (rel start)) s).

(** [s.repeat(n)] for a count that is not negative. *)
Fixpoint repeatStr (s : jstring) (n : nat) : jstring :=
  match n with
  | O => []
  | S k => s ++ repeatStr s k
  end.

(** [s.split('\n')] *)
Fixpoint splitLines (s : jstring) : list jstring :=
  match s with
  | [] => [[]]
  | c :: t =>
      if (c =? LF)%N then [] :: splitLines t
      else match splitLines t with
           | l :: ls => (c :: l) :: ls
           | [] => [[c]]
           end
  end.

(** [lines.join('\n')] *)
Fixpoint joinLines (ls : list jstring) : jstring :=
  match ls with
  | [] => []
  | [l] => l
  | l :: ls' => l ++ LF :: joinLines ls'
  end.

(** A number in a template literal. *)
Definition numToString (n : nat) : jstring := js (NilZero.string_of_uint (Nat.to_uint n)).

(** ** Regular expressions

    The patterns of the formatter use character classes, sequence,
    alternation, greedy and lazy repetition, capture groups, the two
    anchors, negative lookahead and negative lookbehind. *)

Inductive regex : Type :=
| Eps
| Cls (p : char -> bool)
| Cat (a b : regex)
| Alt (a b : regex)
| Star (greedy : bool) (a : regex)
| Grp (n : nat) (a : regex)
| Bol
| Eol
| NotAhead (a : regex)
| NotBehind (a : regex).

(** A position in the subject: the code units before it, nearest first,
    those after it, and the captures made so far. *)
Record mstate : Type := St {
  before : jstring;
  after : jstring;
  caps : list (nat * jstring)
}.

Section Repetition.
Variable step : mstate -> list mstate.

Definition progress (s e : mstate) : bool :=
  negb (length (after e) =? length (after s)).

(** Every way to run [step] zero or more times from [s], in the order
    in which backtracking tries them; a round that consumes nothing is
    refused, as the language's RepeatMatcher does. *)
Fixpoint iter (greedy : bool) (fuel : nat) (s : mstate) : list mstate :=
  match fuel with
  | O => [s]
  | S n =>
      let more := flat_map (iter greedy n) (filter (progress s) (step s)) in
      if greedy then more ++ [s] else s :: more
  end.
End Repetition.

(** The code units between two positions of one subject. *)
Definition span (s e : mstate) : jstring :=
  if length (after e) <=? length (after s)
  then firstn (length (after s) - length (after e)) (after s)
  else firstn (length (after e) - length (after s)) (after e).

(** [ends fwd r s]: the positions at which a match of [r] that starts at
    [s] can end, in backtracking order; [fwd] is the direction, backward
    inside a lookbehind. *)
Fixpoint ends (fwd : bool) (r : regex) (s : mstate) : list mstate :=
  match r with
  | Eps => [s]
  | Cls p =>
      if fwd then
        match after s with
        | c :: t => if p c then [St (c :: before s) t (caps s)] else []
        | [] => []
        end
      else
        match before s with
        | c :: t => if p c then [St t (c :: after s) (caps s)] else []
        | [] => []
        end
  | Cat a b =>
      if fwd then flat_map (ends fwd b) (ends fwd a s)
      else flat_map (ends fwd a) (ends fwd b s)
  | Alt a b => ends fwd a s ++ ends fwd b s
  | Star g a =>
      iter (ends fwd a) g (S (length (after s) + length (before s))) s
  | Grp n a =>
      map (fun e => St (before e) (after e) ((n, span s e) :: caps e)) (ends fwd a s)
  | Bol => match before s with [] => [s] | _ :: _ => [] end
  | Eol => match after s with [] => [s] | _ :: _ => [] end
  | NotAhead a => match ends true a s with [] => [s] | _ :: _ => [] end
  | NotBehind a => match ends false a s with [] => [s] | _ :: _ => [] end
  end.

(** Derived forms. *)
Definition Plus (a : regex) : regex := Cat a (Star true a).
Definition Opt (a : regex) : regex := Alt a Eps.
Definition Chr (a : ascii) : regex := Cls (eqc a).
Definition NotChr (a : ascii) : regex := Cls (fun c => negb (eqc a c)).
Definition AnyChar : regex := Cls (fun _ => true).
Definition Dot : regex := Cls (fun c => negb (isLineTerminator c)).
Definition Space : regex := Cls isSpace.
Definition Word : regex := Cls isWord.

Fixpoint seq (rs : list regex) : regex :=
  match rs with
  | [] => Eps
  | [r] => r
  | r :: rs' => Cat r (seq rs')
  end.

Fixpoint alts (rs : list regex) : regex :=
  match rs with
  | [] => NotAhead Eps
  | [r] => r
  | r :: rs' => Alt r (alts rs')
  end.

Definition Lit (s : string) : regex := seq (map Chr (list_ascii_of_string s)).
Definition LitI (s : string) : regex :=
  seq (map (fun a => Cls (eqci a)) (list_ascii_of_string s)).
Definition oneOf (names : list string) : regex := alts (map Lit names).

(** [a{n,}] *)
Fixpoint AtLeast (n : nat) (a : regex) : regex :=
  match n with
  | O => Star true a
  | S k => Cat a (AtLeast k a)
  end.

(** The first match that starts at the given position, if any. *)
Definition matchAt (r : regex) (pre suf : jstring) : option mstate :=
  match ends true r (St pre suf []) with
  | e :: _ => Some e
  | [] => None
  end.

(** The leftmost match at or after a position: [RegExpBuiltinExec]
    without the sticky flag.  The result is the text skipped (nearest
    first, with what was before), the position of the end of the match
    and the subject from the start of the match. *)
Fixpoint search (r : regex) (pre suf : jstring) : option (jstring * jstring * mstate) :=
  match matchAt r pre suf with
  | Some e => Some (pre, suf, e)
  | None =>
      match suf with
      | [] => None
      | c :: t => search r (c :: pre) t
      end
  end.

(** [r.test(s)] for a pattern without the [g] and [y] flags. *)
Definition test (r : regex) (s : jstring) : bool :=
  match search r [] s with Some _ => true | None => false end.

(** What one match hands to a replacement: the matched text, the text
    before and after it, and the captures. *)
Record hit : Type := Hit {
  matched : jstring;
  preceding : jstring;
  following : jstring;
  groups : list (nat * jstring)
}.

Definition mkHit (pre suf : jstring) (e : mstate) : hit :=
  Hit (span (St pre suf []) e) (rev pre) (after e) (caps e).

Inductive piece : Type :=
| Text (c : char)
| Found (h : hit).

(** The subject cut into its successive matches and the code units
    between them: the loop of a [g] pattern, where an empty match moves
    the next attempt one code unit on. *)
Fixpoint pieces (r : regex) (pre suf : jstring) (skip : nat) : list piece :=
  match skip with
  | S k =>
      match suf with
      | [] => []
      | c :: t => pieces r (c :: pre) t k
      end
  | O =>
      match matchAt r pre suf with
      | Some e =>
          let h := mkHit pre suf e in
          Found h ::
            match suf with
            | [] => []
            | c :: t =>
                match length (matched h) with
                | O => Text c :: pieces r (c :: pre) t 0
                | S k => pieces r (c :: pre) t k
                end
            end
      | None =>
          match suf with
          | [] => []
          | c :: t => Text c :: pieces r (c :: pre) t 0
          end
      end
  end.

Fixpoint lookupGroup (n : nat) (g : list (nat * jstring)) : option jstring :=
  match g with
  | [] => None
  | (k, v) :: g' => if Nat.eqb k n then Some v else lookupGroup n g'
  end.

(** [GetSubstitution] for a pattern with [m] capture groups and no named
    one: [$$], [$&], [$`], [$'] and [$1] to [$99] in a replacement text. *)
Fixpoint getSubstitution (m : nat) (h : hit) (template : jstring) : jstring :=
  match template with
  | [] => []
  | c :: rest =>
      if negb (eqc "$" c) then c :: getSubstitution m h rest
      else
        match rest with
        | [] => [c]
        | d :: rest' =>
            if eqc "$" d then ch "$" :: getSubstitution m h rest'
            else if eqc "&" d then matched h ++ getSubstitution m h rest'
            else if eqc "`" d then preceding h ++ getSubstitution m h rest'
            else if eqc "'" d then following h ++ getSubstitution m h rest'
            else if isDigit d then
              let one := N.to_nat (d - 48) in
              let group n :=
                match lookupGroup n (groups h) with Some v => v | None => [] end in
              match rest' with
              | d2 :: rest'' =>
                  let two := one * 10 + N.to_nat (d2 - 48) in
                  if isDigit d2 && (1 <=? two) && (two <=? m)
                  then group two ++ getSubstitution m h rest''
                  else if (1 <=? one) && (one <=? m)
                  then group one ++ getSubstitution m h rest'
                  else c :: getSubstitution m h rest
              | [] =>
                  if (1 <=? one) && (one <=? m)
                  then group one ++ getSubstitution m h rest'
                  else c :: getSubstitution m h rest
              end
            else c :: getSubstitution m h rest
        end
  end.

(** [s.replace(r, f)] for a [g] pattern and a function [f] that reads and
    updates a state. *)
Fixpoint emit (S : Type) (f : S -> jstring -> S * jstring) (st : S) (ps : list piece)
  : S * jstring :=
  match ps with
  | [] => (st, [])
  | Text c :: ps' => let '(st', out) := emit f st ps' in (st', c :: out)
  | Found h :: ps' =>
      let '(st1, txt) := f st (matched h) in
      let '(st2, out) := emit f st1 ps' in
      (st2, txt ++ out)
  end.

Definition replaceAllWith (S : Type) (r : regex) (f : S -> jstring -> S * jstring)
    (st : S) (s : jstring) : S * jstring :=
  emit f st (pieces r [] s 0).

(** [s.replace(r, template)] for a [g] pattern with [m] groups. *)
Definition replaceAll (r : regex) (m : nat) (template s : jstring) : jstring :=
  flat_map (fun p => match p with
                     | Text c => [c]
                     | Found h => getSubstitution m h template
                     end) (pieces r [] s 0).

(** [s.replace(r, template)] for a pattern without the [g] flag. *)
Definition replaceFirst (r : regex) (m : nat) (template s : jstring) : jstring :=
  match search r [] s with
  | Some (pre, suf, e) =>
      let h := mkHit pre suf e in
      preceding h ++ getSubstitution m h template ++ following h
  | None => s
  end.

(** [s.match(r)] for a [g] pattern: the matched texts, [[]] for [null]. *)
Definition matchAll (r : regex) (s : jstring) : list jstring :=
  flat_map (fun p => match p with Text _ => [] | Found h => [matched h] end)
           (pieces r [] s 0).

(** [s.match(r)] for a pattern without the [g] flag. *)
Definition matchOne (r : regex) (s : jstring) : option hit :=
  match search r [] s with
  | Some (pre, suf, e) => Some (mkHit pre suf e)
  | None => None
  end.

(** [s.replace(key, value)] for a string [key]: the first occurrence
    only, [value] read as a replacement template. *)
Fixpoint replaceStr (key value : jstring) (pre s : jstring) : jstring :=
  if startsWith s key
  then rev pre ++ getSubstitution 0 (Hit key (rev pre) (skipn (length key) s) []) value
              ++ skipn (length key) s
  else match s with
       | [] => rev pre
       | c :: t => replaceStr key value (c :: pre) t
       end.

(** ** The formatter *)

Definition TAB : char := 9%N.
Definition DQUOTE : char := 34%N.
Definition BACKSLASH : char := 92%N.

Definition ChrN (c : char) : regex := Cls (N.eqb c).
Definition NotChrN (c : char) : regex := Cls (fun d => negb (N.eqb c d)).

Record FormatOptions : Type := {
  tabSize : nat;
  insertSpaces : bool;
  preserveNewlines : bool;
  maxPreserveNewlines : nat;
  wrapLineLength : nat
}.

(** [options.insertSpaces ? ' '.repeat(options.tabSize) : '\t'] *)
Definition indentOf (options : FormatOptions) : jstring :=
  if insertSpaces options then repeatStr (js " ") (tabSize options) else [TAB].

(** A [Map<string, string>]: its entries in insertion order; [set] on a
    key that is present keeps the entry's place. *)
Definition preserveMap := list (jstring * jstring).

Fixpoint mapSet (key value : jstring) (m : preserveMap) : preserveMap :=
  match m with
  | [] => [(key, value)]
  | (k, v) :: m' => if eqs k key then (k, value) :: m' else (k, v) :: mapSet key value m'
  end.

(** The counter and the map that the replacement callbacks share. *)
Definition store : Type := nat * preserveMap.

(** One replacement callback: the key is made from the counter, the
    counter moves on, the transformed match is stored under the key and
    the key takes the place of the match. *)
Definition preserve (prefix : string) (transform : jstring -> jstring)
    (st : store) (m : jstring) : store * jstring :=
  let key := js prefix ++ numToString (fst st) ++ js "__" in
  ((S (fst st), mapSet key (transform m) (snd st)), key).

(** [for (const [key, value] of map) text = text.replace(key, value)] *)
Definition restore (m : preserveMap) (text : jstring) : jstring :=
  fold_left (fun t kv => replaceStr (fst kv) (snd kv) [] t) m text.

Definition lazyAny : regex := Star false AnyChar.

(** [/\s+/g] *)
Definition reSpaces : regex := Plus Space.

(** *** formatDirective *)

(** The pattern of [content.match] in [formatDirective]: from the start,
    group 1 is the opener, optional space and a word; then space; group 2
    is a greedy run of anything but line terminators; then optional space;
    group 3 is the closer, at the end. *)
Definition reDirectiveParts : regex :=
  seq [Bol; Grp 1 (seq [Lit "<%@"; Star true Space; Plus Word]); Plus Space;
       Grp 2 (Star true Dot); Star true Space; Grp 3 (Lit "%>"); Eol].

(** The pattern of [attrs.match] in [formatDirective]: a word, optionally
    a colon and a word, an equals sign and a quoted value. *)
Definition reAttrPair : regex :=
  seq [Plus Word; Opt (Cat (Chr ":") (Plus Word)); Chr "="; ChrN DQUOTE;
       Star true (NotChrN DQUOTE); ChrN DQUOTE].

Definition group (n : nat) (h : hit) : jstring :=
  match lookupGroup n (groups h) with Some v => v | None => [] end.

(** [lines[lines.length - 1] += tail] *)
Fixpoint appendToLast (ls : list jstring) (tail : jstring) : list jstring :=
  match ls with
  | [] => []
  | [l] => [l ++ tail]
  | l :: ls' => l :: appendToLast ls' tail
  end.

Definition formatDirective (directive : jstring) : jstring :=
  let content := trim (replaceAll reSpaces 0 (js " ") directive) in
  if length content <=? 120 then content
  else
    match matchOne reDirectiveParts content with
    | None => content
    | Some m =>
        let prefix := group 1 m in
        let attrs := group 2 m in
        let suffix := group 3 m in
        let attrPairs := matchAll reAttrPair attrs in
        if length attrPairs <=? 1 then content
        else
          let lines := prefix :: map (fun attr => js "    " ++ attr) attrPairs in
          joinLines (appendToLast lines (js " " ++ suffix))
    end.

(** *** formatJspComment *)

Definition formatJspComment (comment : jstring) (options : FormatOptions) : jstring :=
  let content := trim (slice comment 4 (-4)) in
  if negb (includesChar content LF) && (length content <? 80)
  then js "<%-- " ++ content ++ js " --%>"
  else comment.

(** *** formatJavaCode *)

(** String literals: a quotation mark, any run of either a code unit that
    is neither quotation mark nor backslash or a backslash and one more
    code unit, and a quotation mark. *)
Definition reStringLiteral : regex :=
  seq [ChrN DQUOTE;
       Star true (Alt (Cls (fun c => negb (N.eqb c DQUOTE || N.eqb c BACKSLASH)))
                      (Cat (ChrN BACKSLASH) Dot));
       ChrN DQUOTE].

(** [/\r\n/g] and [/\r/g] *)
Definition reCRLF : regex := Cat (ChrN CR) (ChrN LF).
Definition reCR : regex := ChrN CR.

(** [/;(?!\s*\n)/g] *)
Definition reSemicolon : regex :=
  Cat (Chr ";") (NotAhead (Cat (Star true Space) (ChrN LF))).

(** [/\{(?!\s*\n)/g] *)
Definition reOpenBrace : regex :=
  Cat (Chr "{") (NotAhead (Cat (Star true Space) (ChrN LF))).

(** A closing brace not preceded by a line feed and optional space (the
    negative lookbehind of the fifth substitution). *)
Definition reCloseBraceBefore : regex :=
  Cat (NotBehind (Cat (ChrN LF) (Star true Space))) (Chr "}").

(** [/\}(?!\s*(?:else|catch|finally|\n))/g] *)
Definition reCloseBraceAfter : regex :=
  Cat (Chr "}")
      (NotAhead (Cat (Star true Space)
                     (alts [Lit "else"; Lit "catch"; Lit "finally"; ChrN LF]))).

(** [/for\s*\([^)]*\)/g] *)
Definition reForHeader : regex :=
  seq [Lit "for"; Star true Space; Chr "("; Star true (NotChr ")"); Chr ")"].

(** [/;\n/g] *)
Definition reSemicolonLF : regex := Cat (Chr ";") (ChrN LF).

(** The loop of [formatJavaCode] over the lines of the code: the state
    is the level and the lines pushed so far. *)
Definition javaStep (indent : jstring) (st : Z * list jstring) (rawLine : jstring)
  : Z * list jstring :=
  let '(level, result) := st in
  let trimmed := trim rawLine in
  match trimmed with
  | [] => (level, result ++ [[]])
  | _ :: _ =>
      let level := if startsWith trimmed (js "}") then Z.max 1 (level - 1) else level in
      let result := result ++ [repeatStr indent (Z.to_nat level) ++ trimmed] in
      let level := if endsWith trimmed (js "{") then (level + 1)%Z else level in
      (level, result)
  end.

Definition javaIndent (indent : jstring) (lines : list jstring) : Z * list jstring :=
  fold_left (javaStep indent) lines (1%Z, []).

Definition formatJavaCode (code indent : jstring) : jstring :=
  let '(stringMap, code) :=
    replaceAllWith reStringLiteral (preserve "__STR_" (fun m => m)) (0, []) code in
  let code := replaceAll reCR 0 [LF] (replaceAll reCRLF 0 [LF] code) in
  let code := replaceAll reSemicolon 0 (js ";" ++ [LF]) code in
  let code := replaceAll reOpenBrace 0 (js "{" ++ [LF]) code in
  let code := replaceAll reCloseBraceBefore 0 (LF :: js "}") code in
  let code := replaceAll reCloseBraceAfter 0 (js "}" ++ [LF]) code in
  let code :=
    snd (replaceAllWith reForHeader
           (fun (_ : unit) m => (tt, replaceAll reSemicolonLF 0 (js "; ") m)) tt code) in
  let lines := splitLines code in
  let result := snd (javaIndent indent lines) in
  let formatted := joinLines result in
  restore (snd stringMap) formatted.

(** *** formatJspBlock *)

Definition formatJspBlock (block : jstring) (options : FormatOptions) : jstring :=
  let indent := indentOf options in
  let isDecl := startsWith block (js "<%!") in
  let prefix := if isDecl then js "<%!" else js "<%" in
  let content := trim (slice block (Z.of_nat (length prefix)) (-2)) in
  if negb (includesChar content LF) && (length content <? 60)
     && negb (includesChar content (ch "{"))
     && (length (matchAll (Chr ";") content) <=? 1)
  then prefix ++ js " " ++ content ++ js " %>"
  else
    let formatted := formatJavaCode content indent in
    prefix ++ [LF] ++ formatted ++ [LF] ++ js "%>".

(** *** formatHtmlStructure *)

(** The names after [<] that the lookahead of [openTags] refuses. *)
Definition htmlVoidNames : list string :=
  ["br"; "hr"; "img"; "input"; "link"; "meta"; "area"; "base"; "col"; "embed";
   "param"; "source"; "track"; "wbr"]%string.
Definition jspVoidNames : list string :=
  ["include"; "forward"; "param"; "setProperty"; "getProperty"; "useBean"]%string.
Definition cVoidNames : list string :=
  ["out"; "set"; "remove"; "param"; "redirect"]%string.
Definition fmtVoidNames : list string :=
  ["message"; "formatNumber"; "formatDate"; "setLocale"; "setBundle";
   "requestEncoding"; "setTimeZone"]%string.
Definition sqlVoidNames : list string :=
  ["param"; "dateParam"; "setDataSource"]%string.

Definition isTagStart (c : char) : bool := isAlpha c || eqc ":" c.

(** [openTags] *)
Definition openTags : regex :=
  seq [Bol; Chr "<";
       NotAhead (alts ([Chr "/"; Chr "!"] ++ map Lit htmlVoidNames
                       ++ [Cat (Lit "jsp:") (oneOf jspVoidNames);
                           Cat (Lit "c:") (oneOf cVoidNames);
                           Cat (Lit "fmt:") (oneOf fmtVoidNames);
                           Cat (Lit "sql:") (oneOf sqlVoidNames)]));
       Cls isTagStart; Star true (NotChr ">"); NotChr "/"; Chr ">"; Eol].

(** [closeTags] *)
Definition closeTags : regex :=
  seq [Bol; Lit "</"; Cls isTagStart; Star true (NotChr ">"); Chr ">"; Eol].

(** [selfCloseTags] *)
Definition selfCloseTags : regex :=
  seq [Bol; Chr "<"; Cls isTagStart; Star true (NotChr ">"); Lit "/>"; Eol].

(** The block-scoped custom tags of [jspOpenTags] and [jspCloseTags]. *)
Definition jspBlockNames : regex :=
  alts [Cat (Lit "c:") (oneOf ["if"; "choose"; "when"; "otherwise"; "forEach";
                               "forTokens"; "catch"; "import"; "url"]%string);
        Cat (Lit "fmt:") (oneOf ["bundle"; "timeZone"]%string);
        Cat (Lit "sql:") (oneOf ["query"; "update"; "transaction"]%string);
        Cat (Lit "x:") (oneOf ["parse"; "if"; "choose"; "when"; "otherwise";
                               "forEach"; "transform"]%string);
        Cat (Lit "jsp:") (oneOf ["include"; "forward"; "useBean"; "element";
                                 "body"; "attribute"]%string)].

(** [jspOpenTags] *)
Definition jspOpenTags : regex :=
  seq [Bol; Chr "<"; Grp 1 jspBlockNames; Star true (NotChr ">"); NotChr "/"; Chr ">"].

(** [jspCloseTags] *)
Definition jspCloseTags : regex :=
  seq [Bol; Lit "</"; Grp 1 jspBlockNames; Chr ">"].

(** One round of the loop of [formatHtmlStructure]: the state is the
    level and the lines pushed so far. *)
Definition htmlStep (indent : jstring) (st : Z * list jstring) (rawLine : jstring)
  : Z * list jstring :=
  let '(level, result) := st in
  let trimmed := trim rawLine in
  match trimmed with
  | [] => (level, result ++ [[]])
  | _ :: _ =>
      let level :=
        if test closeTags trimmed || test jspCloseTags trimmed
        then Z.max 0 (level - 1) else level in
      let result := result ++ [repeatStr indent (Z.to_nat level) ++ trimmed] in
      let level :=
        if negb (test selfCloseTags trimmed)
        then (if test openTags trimmed || test jspOpenTags trimmed
              then (level + 1)%Z else level)
        else level in
      (level, result)
  end.

Definition htmlWalk (indent : jstring) (lines : list jstring) : Z * list jstring :=
  fold_left (htmlStep indent) lines (0%Z, []).

Definition formatHtmlStructure (text : jstring) (options : FormatOptions) : jstring :=
  let indent := indentOf options in
  let lines := splitLines text in
  joinLines (snd (htmlWalk indent lines)).

(** *** formatJsp *)

Definition reComment : regex := seq [Lit "<%--"; lazyAny; Lit "--%>"].
Definition reDeclaration : regex := seq [Lit "<%!"; lazyAny; Lit "%>"].
Definition reExpression : regex := seq [Lit "<%="; lazyAny; Lit "%>"].
Definition reScriptlet : regex :=
  seq [Lit "<%";
       NotAhead (Cls (fun c => eqc "=" c || eqc "!" c || eqc "@" c || eqc "-" c));
       lazyAny; Lit "%>"].
Definition reDirective : regex := seq [Lit "<%@"; lazyAny; Lit "%>"].
Definition reEL : regex := seq [Lit "${"; Star true (NotChr "}"); Chr "}"].
Definition reDEL : regex := seq [Lit "#{"; Star true (NotChr "}"); Chr "}"].
Definition reScript : regex := seq [LitI "<script"; lazyAny; LitI "</script>"].
Definition reStyle : regex := seq [LitI "<style"; lazyAny; LitI "</style>"].

(** [new RegExp(`\n{${max + 2},}`, 'g')] *)
Definition reNewlines (max : nat) : regex := AtLeast (max + 2) (ChrN LF).

(** [/\s+$/] *)
Definition reTrailingSpace : regex := Cat (Plus Space) Eol.

(** The nine substitutions that put a key in the place of each protected
    region, in the order of the source. *)
Definition extractRegions (text : jstring) (options : FormatOptions) : store * jstring :=
  let st : store := (0, []) in
  let '(st, text) :=
    replaceAllWith reComment
      (preserve "__JSP_COMMENT_" (fun m => formatJspComment m options)) st text in
  let '(st, text) :=
    replaceAllWith reDeclaration
      (preserve "__JSP_DECL_" (fun m => formatJspBlock m options)) st text in
  let '(st, text) :=
    replaceAllWith reExpression
      (preserve "__JSP_EXPR_" (fun m => trim (replaceAll reSpaces 0 (js " ") m))) st text in
  let '(st, text) :=
    replaceAllWith reScriptlet
      (preserve "__JSP_SCRIPT_" (fun m => formatJspBlock m options)) st text in
  let '(st, text) :=
    replaceAllWith reDirective
      (preserve "__JSP_DIR_" (fun m => formatDirective m)) st text in
  let '(st, text) := replaceAllWith reEL (preserve "__EL_" (fun m => m)) st text in
  let '(st, text) := replaceAllWith reDEL (preserve "__DEL_" (fun m => m)) st text in
  let '(st, text) := replaceAllWith reScript (preserve "__SCRIPT_" (fun m => m)) st text in
  let '(st, text) := replaceAllWith reStyle (preserve "__STYLE_" (fun m => m)) st text in
  (st, text).

(** The last two steps: the cap on runs of newlines and the end of the
    text. *)
Definition capNewlines (options : FormatOptions) (text : jstring) : jstring :=
  if preserveNewlines options
  then replaceAll (reNewlines (maxPreserveNewlines options)) 0
                  (repeatStr [LF] (maxPreserveNewlines options + 1)) text
  else text.

Definition endWithNewline (text : jstring) : jstring :=
  replaceFirst reTrailingSpace 0 [LF] text.

Definition formatJsp (text : jstring) (options : FormatOptions) : jstring :=
  let '(st, text) := extractRegions text options in
  let text := formatHtmlStructure text options in
  let text := restore (snd st) text in
  let text := capNewlines options text in
  endWithNewline text.

(** The defaults of [formatRange]. *)
Definition defaultOptions : FormatOptions :=
  {| tabSize := 4; insertSpaces := true; preserveNewlines := true;
     maxPreserveNewlines := 2; wrapLineLength := 120 |}.

(** Text with quotation marks written as apostrophes and line feeds as
    vertical bars, for the examples. *)
Definition jsq (s : string) : jstring :=
  map (fun c => if eqc "'" c then DQUOTE else if eqc "|" c then LF else c) (js s).

(** *** formatRange and the two providers *)

(** The settings of the section [jspComplete] that [formatRange] reads;
    a setting that is not set is [None]. *)
Record Configuration : Type := {
  cfgTabSize : option nat;
  cfgInsertSpaces : option bool;
  cfgPreserveNewlines : option bool;
  cfgMaxPreserveNewlines : option nat;
  cfgWrapLineLength : option nat
}.

(** [config.get(section, defaultValue)] *)
Definition get (A : Type) (setting : option A) (defaultValue : A) : A :=
  match setting with Some v => v | None => defaultValue end.

(** The two fields of the editor's formatting options that are read. *)
Record FormattingOptions : Type := {
  editorTabSize : nat;
  editorInsertSpaces : bool
}.

Definition formatOptionsOf (config : Configuration) (options : FormattingOptions)
  : FormatOptions :=
  {| tabSize := get (cfgTabSize config) (editorTabSize options);
     insertSpaces := get (cfgInsertSpaces config) (editorInsertSpaces options);
     preserveNewlines := get (cfgPreserveNewlines config) true;
     maxPreserveNewlines := get (cfgMaxPreserveNewlines config) 2;
     wrapLineLength := get (cfgWrapLineLength config) 120 |}.

Section Host.

(** The positions and ranges of the editor, and [new vscode.Range]. *)
Variables Position Range : Type.
Variable newRange : Position -> Position -> Range.

(** What the formatter asks of a document: its text, whole or in a
    range, and the position at an offset. *)
Record TextDocument : Type := {
  getText : option Range -> jstring;
  positionAt : nat -> Position
}.

(** [vscode.TextEdit.replace(range, newText)] *)
Inductive TextEdit : Type :=
| Replace (range : Range) (newText : jstring).

Definition formatRange (config : Configuration) (document : TextDocument)
    (range : Range) (options : FormattingOptions) : list TextEdit :=
  let text := getText document (Some range) in
  let formatted := formatJsp text (formatOptionsOf config options) in
  if eqs formatted text then [] else [Replace range formatted].

Definition provideDocumentFormattingEdits (config : Configuration)
    (document : TextDocument) (options : FormattingOptions) : list TextEdit :=
  let fullRange :=
    newRange (positionAt document 0)
             (positionAt document (length (getText document None))) in
  formatRange config document fullRange options.

Definition provideDocumentRangeFormattingEdits (config : Configuration)
    (document : TextDocument) (range : Range) (options : FormattingOptions)
  : list TextEdit :=
  formatRange config document range options.

End Host.

Unset Implicit Arguments.

(** ** Inputs of the scenarios *)

(** The directive of scenario A, 102 columns. *)
Definition scenarioA : jstring :=
  jsq "<%@ page language='java' contentType='text/html; charset=UTF-8' pageEncoding='UTF-8' session='true' %>".

(** The multi-line form that scenario A describes. *)
Definition scenarioA_multiline : jstring :=
  joinLines [jsq "<%@ page";
             jsq "    language='java'";
             jsq "    contentType='text/html; charset=UTF-8'";
             jsq "    pageEncoding='UTF-8'";
             jsq "    session='true' %>"].

(** The directive of scenario A with a fifth attribute, 133 columns. *)
Definition longDirective : jstring :=
  jsq "<%@ page language='java' contentType='text/html; charset=UTF-8' pageEncoding='UTF-8' session='true' errorPage='/WEB-INF/error.jsp' %>".

Definition longDirective_multiline : jstring :=
  joinLines [jsq "<%@ page";
             jsq "    language='java'";
             jsq "    contentType='text/html; charset=UTF-8'";
             jsq "    pageEncoding='UTF-8'";
             jsq "    session='true'";
             jsq "    errorPage='/WEB-INF/error.jsp' %>"].

(** A directive of more than 120 columns with two spaces in a row and no
    attribute pair. *)
Definition malformedDirective : jstring :=
  js "<%@ page  " ++ repeatStr (js "x") 120 ++ js " %>".

(** ** Notions that the statements use *)

(** The directive's text with runs of white space collapsed and the ends
    trimmed: [content] in [formatDirective]. *)
Definition directiveContent (directive : jstring) : jstring :=
  trim (replaceAll reSpaces 0 (js " ") directive).

(** A line that [javaStep] pushes is empty or begins with the unit. *)
Definition indented (indent l : jstring) : Prop :=
  l = [] \/ exists rest, l = indent ++ rest.

(** The names in the lookahead of [openTags], with their prefixes. *)
Definition voidTagNames : list string :=
  htmlVoidNames ++ map (append "jsp:") jspVoidNames ++ map (append "c:") cVoidNames
  ++ map (append "fmt:") fmtVoidNames ++ map (append "sql:") sqlVoidNames.

(** Those of them that [jspOpenTags] lists as well. *)
Definition voidAndBlockNames : list string :=
  ["jsp:include"; "jsp:forward"; "jsp:useBean"]%string.

Definition isLF : char -> bool := N.eqb LF.

Definition noLF (l : jstring) : bool := forallb (fun c => negb (isLF c)) l.

(** The longest prefix of a text in a class, and the rest. *)
Fixpoint takeW (p : char -> bool) (s : jstring) : jstring :=
  match s with
  | c :: t => if p c then c :: takeW p t else []
  | [] => []
  end.

Fixpoint dropW (p : char -> bool) (s : jstring) : jstring :=
  match s with
  | c :: t => if p c then dropW p t else s
  | [] => []
  end.

(** The number of line feeds at the start of a text. *)
Definition lead (s : jstring) : nat := length (takeW isLF s).

(** The longest run of line feeds in a text. *)
Fixpoint maxRun (s : jstring) : nat :=
  match s with
  | [] => 0
  | _ :: t => Nat.max (lead s) (maxRun t)
  end.

(** A run of line feeds of the given length somewhere in a text. *)
Definition hasRun (n : nat) (s : jstring) : Prop :=
  exists a b, s = a ++ repeatStr [LF] n ++ b.


(** A window: one class for each of a few successive code units. *)
Definition window : Type := list (char -> bool).

(** The window fits at the start of the text. *)
Fixpoint hasPrefix (w : window) (s : jstring) : bool :=
  match w, s with
  | [], _ => true
  | p :: w', c :: s' => p c && hasPrefix w' s'
  | _ :: _, [] => false
  end.

(** The window fits somewhere in the text. *)
Fixpoint occurs (w : window) (s : jstring) : bool :=
  hasPrefix w s || match s with [] => false | _ :: t => occurs w t end.

(** The window of one text: it fits where that text stands. *)
Definition exact (x : jstring) : window := map N.eqb x.

(** The openers of the protected regions: the first two code units of
    the five patterns with a percent sign and of the two interpolation
    patterns, and the names of the two raw blocks in any case. *)
Definition wJsp : window := [eqc "<"; eqc "%"].
Definition wEL : window := [eqc "$"; eqc "{"].
Definition wDEL : window := [eqc "#"; eqc "{"].
Definition wScript : window := map eqci (list_ascii_of_string "<script").
Definition wStyle : window := map eqci (list_ascii_of_string "<style").

Definition openers : list window := [wJsp; wEL; wDEL; wScript; wStyle].

(** A text in which no protected region opens: none of [<%], [${],
    [#{], [<script] and [<style] occurs in it, the last two in any
    letter case. *)
Definition regionFree (t : jstring) : bool :=
  forallb (fun w => negb (occurs w t)) openers.




(** The cap on newlines leaves the runs of line feeds of a text alone. *)
Definition runsAllowed (options : FormatOptions) (body : jstring) : Prop :=
  preserveNewlines options = false \/ maxRun body <= maxPreserveNewlines options + 1.

(** ** What the pieces of the formatter compute *)

(** The positions that a greedy repetition of a class reaches from a
    position, the farthest first. *)
Fixpoint unwind (p : char -> bool) (pre suf : jstring) (k : list (nat * jstring))
  : list mstate :=
  match suf with
  | c :: t => if p c then unwind p (c :: pre) t k ++ [St pre suf k] else [St pre suf k]
  | [] => [St pre suf k]
  end.

(** What [text.replace(/\s+$/, '\n')] computes. *)
Fixpoint endSpec (s : jstring) : jstring :=
  match s with
  | [] => []
  | c :: t => if forallb isSpace s then [LF] else c :: endSpec t
  end.

(** What the substitution of [capNewlines] computes: outside a run that
    is being replaced, a run of [m + 2] line feeds or more is replaced by
    [m + 1]; inside, the rest of the run is dropped. *)
Fixpoint capSpec (m : nat) (inRun : bool) (s : jstring) : jstring :=
  match s with
  | [] => []
  | c :: t =>
      if inRun then (if isLF c then capSpec m true t else c :: capSpec m false t)
      else if m + 2 <=? lead s then repeatStr [LF] (m + 1) ++ capSpec m true t
      else c :: capSpec m false t
  end.

(** How the pieces of a substitution are written out. *)
Definition render (m : nat) (template : jstring) (ps : list piece) : jstring :=
  flat_map (fun p => match p with
                     | Text c => [c]
                     | Found h => getSubstitution m h template
                     end) ps.

(** The classes of a pattern that is a fixed sequence of classes. *)
Fixpoint litOf (r : regex) : option window :=
  match r with
  | Eps => Some []
  | Cls p => Some [p]
  | Cat a b =>
      match litOf a, litOf b with
      | Some x, Some y => Some (x ++ y)
      | _, _ => None
      end
  | _ => None
  end.

(** The classes that the first code units of any match must be in. *)
Fixpoint req (r : regex) : window :=
  match r with
  | Cls p => [p]
  | Cat a b =>
      match litOf a with
      | Some x => x ++ req b
      | None => req a
      end
  | _ => []
  end.



(** One round of the walk of [formatHtmlStructure], in two halves: the
    level of the line, the level after it and the line pushed. *)
Definition lineLevel (level : Z) (trimmed : jstring) : Z :=
  if test closeTags trimmed || test jspCloseTags trimmed
  then Z.max 0 (level - 1) else level.

Definition nextLevel (level : Z) (rawLine : jstring) : Z :=
  match trim rawLine with
  | [] => level
  | _ :: _ =>
      if negb (test selfCloseTags (trim rawLine))
      then (if test openTags (trim rawLine) || test jspOpenTags (trim rawLine)
            then (lineLevel level (trim rawLine) + 1)%Z
            else lineLevel level (trim rawLine))
      else lineLevel level (trim rawLine)
  end.

Definition outLine (indent : jstring) (level : Z) (rawLine : jstring) : jstring :=
  match trim rawLine with
  | [] => []
  | _ :: _ =>
      repeatStr indent (Z.to_nat (lineLevel level (trim rawLine))) ++ trim rawLine
  end.

(** The lines that the walk pushes, from a level. *)
Fixpoint walkFrom (indent : jstring) (level : Z) (lines : list jstring) : list jstring :=
  match lines with
  | [] => []
  | l :: ls => outLine indent level l :: walkFrom indent (nextLevel level l) ls
  end.

(** A text without white space at either end. *)
Definition trimmed (l : jstring) : Prop :=
  dropSpace l = l /\ dropSpace (rev l) = rev l.

(** A line that is empty or ends with a code unit that is not white
    space. *)
Definition tidy (l : jstring) : bool :=
  match rev l with
  | [] => true
  | c :: _ => negb (isSpace c)
  end.

(** A text whose white space at the end is line feeds only. *)
Definition endTidy (s : jstring) : Prop :=
  forall a u, s = a ++ u -> forallb isSpace u = true -> forallb isLF u = true.

(** [Del a b]: the lines [b] are the lines [a] without some of the empty
    ones. *)
Inductive Del : list jstring -> list jstring -> Prop :=
| Del_nil : Del [] []
| Del_keep (l : jstring) (a b : list jstring) : Del a b -> Del (l :: a) (l :: b)
| Del_drop (a b : list jstring) : Del a b -> Del ([] :: a) b.

(** The same with the first line kept. *)
Definition DelT (x y : list jstring) : Prop :=
  exists l a b, x = l :: a /\ y = l :: b /\ Del a b.

(** No class of the window accepts the code unit. *)
Definition rejects (c : char) (w : window) : Prop := Forall (fun p => p c = false) w.

(** A window that is not empty and none of whose classes accepts white
    space. *)
Definition solid (w : window) : Prop :=
  w <> [] /\ forall c, isSpace c = true -> rejects c w.

Ltac reject := unfold rejects; repeat constructor.

(** ** Notions for the properties of the parts *)

(** The code units of a text that are not white space. *)
Definition ink (s : jstring) : jstring := filter (fun c => negb (isSpace c)) s.

(** The text of a piece of the subject. *)
Definition pieceText (p : piece) : jstring :=
  match p with Text c => [c] | Found h => matched h end.

(** The two positions are in one subject and the second is reached from
    the first in the direction of the match. *)
Definition follows (fwd : bool) (s e : mstate) : Prop :=
  if fwd
  then exists w, after s = w ++ after e /\ before e = rev w ++ before s
  else exists w, before s = w ++ before e /\ after e = rev w ++ after s.

(** The six substitutions of [formatJavaCode] between the string
    literals and the loop. *)
Definition javaBreaks (code : jstring) : jstring :=
  let code := replaceAll reCR 0 [LF] (replaceAll reCRLF 0 [LF] code) in
  let code := replaceAll reSemicolon 0 (js ";" ++ [LF]) code in
  let code := replaceAll reOpenBrace 0 (js "{" ++ [LF]) code in
  let code := replaceAll reCloseBraceBefore 0 (LF :: js "}") code in
  let code := replaceAll reCloseBraceAfter 0 (js "}" ++ [LF]) code in
  snd (replaceAllWith reForHeader
         (fun (_ : unit) m => (tt, replaceAll reSemicolonLF 0 (js "; ") m)) tt code).

(** What [s.replace(/\s+/g, ' ')] computes: a run of white space
    becomes one space; inside a run the rest of it is dropped. *)
Fixpoint collapse (inRun : bool) (s : jstring) : jstring :=
  match s with
  | [] => []
  | c :: t =>
      if isSpace c then (if inRun then collapse true t else ch " " :: collapse true t)
      else c :: collapse false t
  end.

(** Every white-space code unit of the text is a space, and the code
    unit after it, if any, is not white space. *)
Fixpoint spaced (s : jstring) : bool :=
  match s with
  | [] => true
  | c :: t =>
      (if isSpace c
       then eqc " " c && match t with [] => true | d :: _ => negb (isSpace d) end
       else true) && spaced t
  end.

(** The prefixes of the keys of [formatJsp]. *)
Definition kinds : list string :=
  ["__JSP_COMMENT_"; "__JSP_DECL_"; "__JSP_EXPR_"; "__JSP_SCRIPT_"; "__JSP_DIR_";
   "__EL_"; "__DEL_"; "__SCRIPT_"; "__STYLE_"]%string.

(** The key made from a prefix and a value of the counter. *)
Definition keyFor (prefix : string) (n : nat) : jstring :=
  js prefix ++ numToString n ++ js "__".

(** The counter counts the entries of the map, the keys of the map are
    keys made from the earlier values of the counter, and no key is there
    twice. *)
Definition wellKeyed (st : store) : Prop :=
  fst st = length (snd st)
  /\ Forall (fun k => exists p i, In p kinds /\ i < fst st /\ k = keyFor p i)
            (map fst (snd st))
  /\ NoDup (map fst (snd st)).

(** A line that has a code unit other than white space. *)
Definition isBlank (l : jstring) : bool := match l with [] => true | _ :: _ => false end.

(** Markup with a tag to a line: a line that opens and closes nothing,
    or an element, which is an opening line, what is inside, and a
    closing line. *)
#[warnings="-register-all"]
Inductive markup : Type :=
| Line (l : jstring)
| Element (opening : jstring) (inside : list markup) (closing : jstring).

Fixpoint linesOf (m : markup) : list jstring :=
  match m with
  | Line l => [l]
  | Element o b c => o :: flat_map linesOf b ++ [c]
  end.

(** A line at a depth: trimmed, behind that many units of indentation;
    empty when it is blank. *)
Definition pushed (indent : jstring) (depth : nat) (l : jstring) : jstring :=
  match trim l with
  | [] => []
  | _ :: _ => repeatStr indent depth ++ trim l
  end.

(** The lines of markup, each at the depth of its nesting. *)
Fixpoint layout (indent : jstring) (depth : nat) (m : markup) : list jstring :=
  match m with
  | Line l => [pushed indent depth l]
  | Element o b c =>
      pushed indent depth o :: flat_map (layout indent (S depth)) b
        ++ [pushed indent depth c]
  end.

Definition noGT (s : jstring) : bool := forallb (fun c => negb (eqc ">" c)) s.

(** A line of text: it does not begin with [<]. *)
Definition isTextLine (s : jstring) : bool :=
  match s with
  | [] => true
  | c :: _ => negb (eqc "<" c)
  end.

(** A self-closing tag: [<], a letter or a colon, anything without [>],
    and [/>]. *)
Definition isSelfClosingLine (s : jstring) : bool :=
  match s with
  | lt :: c :: rest =>
      eqc "<" lt && isTagStart c
      && match rev rest with
         | gt :: sl :: body => eqc ">" gt && eqc "/" sl && noGT body
         | _ => false
         end
  | _ => false
  end.

(** The names of the lookahead of [openTags] that [jspOpenTags] does not
    list. *)
Definition plainVoidNames : list string :=
  filter (fun v => negb (existsb (String.eqb v) voidAndBlockNames)) voidTagNames.

(** A void tag: [<] and one of these names, followed by anything. *)
Definition isVoidLine (s : jstring) : bool :=
  existsb (fun v => startsWith s (js "<" ++ js v)) plainVoidNames.

(** A line that opens and closes nothing: text, a void tag, a
    self-closing tag, or a line that begins with [<!]. *)
Definition isLeafLine (s : jstring) : bool :=
  isTextLine s || startsWith s (js "<!") || isSelfClosingLine s || isVoidLine s.

(** An opening tag: [<], a letter or a colon, anything without [>] that
    is not empty and does not end with [/], and [>]; after the [<] no
    name of the lookahead of [openTags]. *)
Definition isOpenLine (s : jstring) : bool :=
  match s with
  | lt :: c :: rest =>
      eqc "<" lt && isTagStart c
      && negb (existsb (fun v => startsWith (c :: rest) (js v)) voidTagNames)
      && match rev rest with
         | gt :: x :: body => eqc ">" gt && negb (eqc "/" x) && noGT (x :: body)
         | _ => false
         end
  | _ => false
  end.

(** A closing tag: [</], a letter or a colon, anything without [>], and
    [>]. *)
Definition isCloseLine (s : jstring) : bool :=
  match s with
  | lt :: sl :: c :: rest =>
      eqc "<" lt && eqc "/" sl && isTagStart c
      && match rev rest with
         | gt :: body => eqc ">" gt && noGT body
         | [] => false
         end
  | _ => false
  end.

(** Markup whose lines are what they are taken for and have no line
    feed in them. *)
Fixpoint wellFormed (m : markup) : bool :=
  match m with
  | Line l => noLF l && isLeafLine (trim l)
  | Element o b c =>
      noLF o && isOpenLine (trim o) && forallb wellFormed b
      && noLF c && isCloseLine (trim c)
  end.

(** Induction on markup, with the property for what is inside an
    element. *)
Fixpoint markup_nested_ind (P : markup -> Prop)
    (HL : forall l, P (Line l))
    (HE : forall o b c, Forall P b -> P (Element o b c))
    (m : markup) : P m :=
  match m with
  | Line l => HL l
  | Element o b c =>
      HE o b c
         ((fix inside (b : list markup) : Forall P b :=
             match b with
             | [] => Forall_nil P
             | x :: b' => Forall_cons x (markup_nested_ind P HL HE x) (inside b')
             end) b)
  end.

(** The positions from a position to the end of the subject, the
    nearest first: the order in which a lazy repetition of any code unit
    tries them. *)
Fixpoint forward (pre suf : jstring) (k : list (nat * jstring)) : list mstate :=
  St pre suf k :: match suf with
                  | [] => []
                  | c :: t => forward (c :: pre) t k
                  end.

(** The dollar sign and a code unit that makes a replacement pattern
    with it when the pattern has no groups. *)
Definition wDollar : window :=
  [eqc "$"; fun d => eqc "$" d || eqc "&" d || eqc "`" d || eqc "'" d].

(** A text that [String.replace] puts in as it is: none of [$$], [$&],
    the dollar sign with a backquote and [$'] occurs in it. *)
Definition inert (value : jstring) : bool := negb (occurs wDollar value).

(** A text that is not empty and has no white space at either end. *)
Definition firmEnds (v : jstring) : bool :=
  match v with [] => false | f :: _ => negb (isSpace f) end
  && match rev v with [] => false | l :: _ => negb (isSpace l) end.

(** The closers of the raw blocks and of comments, as windows. *)
Definition wScriptEnd : window := map eqci (list_ascii_of_string "</script>").
Definition wStyleEnd : window := map eqci (list_ascii_of_string "</style>").
Definition wCommentEnd : window := map eqc (list_ascii_of_string "--%>").
Definition wBlockEnd : window := map eqc (list_ascii_of_string "%>").

(** The two raw blocks. *)
Definition scriptBlock (body : jstring) : jstring :=
  js "<script" ++ body ++ js "</script>".
Definition styleBlock (body : jstring) : jstring :=
  js "<style" ++ body ++ js "</style>".

(** A body in which no protected region of an earlier kind opens: none
    of [<%], [${] and [#{] occurs in it. *)
Definition rawBodyOK (body : jstring) : bool :=
  negb (occurs wJsp body) && negb (occurs wEL body) && negb (occurs wDEL body).

(** The four blocks of the page language that are taken out whole. *)
Definition commentBlock (body : jstring) : jstring := js "<%--" ++ body ++ js "--%>".
Definition declarationBlock (body : jstring) : jstring := js "<%!" ++ body ++ js "%>".
Definition expressionBlock (body : jstring) : jstring := js "<%=" ++ body ++ js "%>".
Definition scriptletBlock (body : jstring) : jstring := js "<%" ++ body ++ js "%>".

(** The body of a declaration, an expression or a scriptlet: neither
    [<%] nor [%>] occurs in it, nor across its end and the [%] of the
    closer. *)
Definition blockBodyOK (body : jstring) : bool :=
  negb (occurs wJsp (body ++ js "%")) && negb (occurs wBlockEnd (body ++ js "%")).

(** The first code unit of the body of a scriptlet: not one of those
    that make the block a block of another kind. *)
Definition scriptletStart (body : jstring) : bool :=
  match body with
  | [] => false
  | c :: _ => negb (eqc "=" c || eqc "!" c || eqc "@" c || eqc "-" c)
  end.

(** Somewhere in the text a code unit other than [/] stands directly
    before a [>], with no [>] before that code unit: what
    [[^>]*[^\/]>] asks of the text that it starts in. *)
Fixpoint openEnd (s : jstring) : bool :=
  match s with
  | [] => false
  | x :: t =>
      negb (eqc "/" x) && match t with g :: _ => eqc ">" g | [] => false end
      || negb (eqc ">" x) && openEnd t
  end.

(** The text is a run without [>] and then [/>]: what [[^>]*\/>$] asks
    of the text that it starts in. *)
Fixpoint selfEnd (s : jstring) : bool :=
  match s with
  | [] => false
  | x :: t =>
      eqc "/" x && match t with [g] => eqc ">" g | _ => false end
      || negb (eqc ">" x) && selfEnd t
  end.

Definition isBlockVoid (name : string) : bool :=
  existsb (String.eqb name) voidAndBlockNames.

(** The nine kinds of protected regions, in the order in which
    [formatJsp] takes them out. *)
Inductive kind : Type :=
| KComment | KDeclaration | KExpression | KScriptlet | KDirective
| KEL | KDEL | KScript | KStyle.



(** The pattern, the prefix of the keys and the text that is stored,
    for each kind. *)
Definition patternOf (k : kind) : regex :=
  match k with
  | KComment => reComment | KDeclaration => reDeclaration | KExpression => reExpression
  | KScriptlet => reScriptlet | KDirective => reDirective
  | KEL => reEL | KDEL => reDEL | KScript => reScript | KStyle => reStyle
  end.

















(** A substitution from a position of the subject on. *)
Definition replaceFrom (S : Type) (r : regex) (f : S -> jstring -> S * jstring)
    (st : S) (pre s : jstring) : S * jstring :=
  emit f st (pieces r pre s 0).

(** No match of the pattern of a kind starts at a code unit of [x] when
    [rest] follows it. *)
Definition quiet (k : kind) (x rest : jstring) : Prop :=
  forall ctx a1 a2, x = a1 ++ a2 -> a2 <> [] ->
    matchAt (patternOf k) ctx (a2 ++ rest) = None.








(** ** The two indentation loops *)

(** A property of the state that holds at the start and that every
    round keeps holds after any number of rounds. *)
Lemma fold_left_invariant (A B : Type) (f : A -> B -> A) (P : A -> Prop) :
  (forall a x, P a -> P (f a x)) ->
  forall l a, P a -> P (fold_left f l a).
Proof.
  intros Hstep l; induction l as [|x l IH]; intros a Ha; simpl; auto.
Qed.

Lemma htmlStep_level (indent : jstring) (st : Z * list jstring) (rawLine : jstring) :
  (0 <= fst st)%Z -> (0 <= fst (htmlStep indent st rawLine))%Z.
Proof.
  destruct st as [level result]; unfold htmlStep; cbn [fst].
  intros Hl. destruct (trim rawLine) as [|c t]; [assumption|].
  destruct (test closeTags (c :: t) || test jspCloseTags (c :: t));
    destruct (negb (test selfCloseTags (c :: t)));
    destruct (test openTags (c :: t) || test jspOpenTags (c :: t));
    cbn [fst]; lia.
Qed.

Lemma javaStep_level (indent : jstring) (st : Z * list jstring) (rawLine : jstring) :
  (1 <= fst st)%Z -> (1 <= fst (javaStep indent st rawLine))%Z.
Proof.
  destruct st as [level result]; unfold javaStep; cbn [fst].
  intros Hl. destruct (trim rawLine) as [|c t]; [assumption|].
  destruct (startsWith (c :: t) (js "}"));
    destruct (endsWith (c :: t) (js "{")); cbn [fst]; lia.
Qed.

Lemma repeatStr_pos (indent : jstring) (n : nat) (t : jstring) :
  0 < n -> exists rest, repeatStr indent n ++ t = indent ++ rest.
Proof.
  destruct n as [|k]; [lia|]; intros _; simpl.
  exists (repeatStr indent k ++ t). now rewrite app_assoc.
Qed.

Lemma javaStep_indented (indent : jstring) (st : Z * list jstring) (rawLine : jstring) :
  (1 <= fst st)%Z /\ Forall (indented indent) (snd st) ->
  (1 <= fst (javaStep indent st rawLine))%Z
  /\ Forall (indented indent) (snd (javaStep indent st rawLine)).
Proof.
  intros [Hl Hr]; split; [now apply javaStep_level|].
  destruct st as [level result]; unfold javaStep; cbn [fst snd] in *.
  destruct (trim rawLine) as [|c t]; cbn [snd].
  - apply Forall_app; split; [assumption|]. constructor; [now left|constructor].
  - destruct (endsWith (c :: t) (js "{")); cbn [snd];
      (apply Forall_app; split; [assumption|]; constructor; [right|constructor]);
      apply repeatStr_pos; destruct (startsWith (c :: t) (js "}")); lia.
Qed.

(** ** Anchored patterns *)

Lemma search_Bol_later (r : regex) (suf : jstring) (c : char) (pre : jstring) :
  search (Cat Bol r) (c :: pre) suf = None.
Proof.
  revert c pre; induction suf as [|d suf IH]; intros c pre; simpl; auto.
Qed.

(** A pattern that begins with [^] can only match at the start. *)
Lemma test_anchored (r : regex) (s : jstring) :
  test (Cat Bol r) s = match ends true r (St [] s []) with [] => false | _ :: _ => true end.
Proof.
  unfold test. destruct s as [|c s]; simpl; unfold matchAt; simpl;
    rewrite app_nil_r; destruct (ends true r _); try reflexivity.
  now rewrite search_Bol_later.
Qed.

Lemma void_line_tests (name : string) (rest : jstring) :
  In name voidTagNames -> ~ In name voidAndBlockNames ->
  let trimmed := js "<" ++ js name ++ rest in
  test closeTags trimmed = false /\ test jspCloseTags trimmed = false
  /\ test openTags trimmed = false /\ test jspOpenTags trimmed = false.
Proof.
  intros Hin Hnot trimmed; subst trimmed.
  unfold closeTags, jspCloseTags, openTags, jspOpenTags.
  cbn [seq]. rewrite !test_anchored.
  unfold voidTagNames in Hin; cbn in Hin.
  repeat (destruct Hin as [<- | Hin];
          [ first [ exfalso; apply Hnot; cbn; tauto
                  | repeat split; vm_compute; reflexivity ] | ]).
  contradiction.
Qed.

(** ** Single-character patterns *)

Lemma span_one (pre t : jstring) (c : char) (k : list (nat * jstring)) :
  span (St pre (c :: t) []) (St (c :: pre) t k) = [c].
Proof.
  unfold span; cbn [after length].
  replace (length t <=? S (length t)) with true by (symmetry; apply Nat.leb_le; lia).
  now replace (S (length t) - length t) with 1 by lia.
Qed.

Lemma matchAt_Cls (p : char -> bool) (pre t : jstring) (c : char) :
  matchAt (Cls p) pre (c :: t) = if p c then Some (St (c :: pre) t []) else None.
Proof. unfold matchAt; simpl. now destruct (p c). Qed.

Lemma pieces_Cls_hits (p : char -> bool) (s pre : jstring) :
  flat_map (fun q => match q with Text _ => [] | Found h => [matched h] end)
           (pieces (Cls p) pre s 0)
  = map (fun c => [c]) (filter p s).
Proof.
  revert pre; induction s as [|c t IH]; intros pre; [reflexivity|].
  cbn [pieces filter]. rewrite matchAt_Cls.
  destruct (p c); cbn [flat_map app map].
  - unfold mkHit; cbn [matched]. rewrite span_one. cbn [length app].
    now rewrite IH.
  - apply IH.
Qed.

(** [(s.match(/;/g) || []).length] is the number of semicolons of [s]. *)
Lemma matchAll_Chr_length (a : ascii) (s : jstring) :
  length (matchAll (Chr a) s) = length (filter (eqc a) s).
Proof.
  unfold matchAll, Chr. now rewrite pieces_Cls_hits, length_map.
Qed.

(** ** Repetition of a character class *)

Lemma takeW_dropW (p : char -> bool) (s : jstring) : takeW p s ++ dropW p s = s.
Proof. induction s as [|c t IH]; simpl; [reflexivity|]. destruct (p c); simpl; congruence. Qed.

Lemma ends_Cls_cons (p : char -> bool) (pre t : jstring) (c : char)
    (k : list (nat * jstring)) :
  ends true (Cls p) (St pre (c :: t) k) = if p c then [St (c :: pre) t k] else [].
Proof. reflexivity. Qed.

Lemma iter_Cls (p : char -> bool) (fuel : nat) :
  forall suf pre k, length suf < fuel ->
    iter (ends true (Cls p)) true fuel (St pre suf k) = unwind p pre suf k.
Proof.
  induction fuel as [|n IH]; intros suf pre k Hlen; [lia|].
  destruct suf as [|c t]; cbn [iter ends after before caps unwind].
  - reflexivity.
  - destruct (p c); cbn [filter]; [|reflexivity].
    unfold progress at 1; cbn [after length].
    replace (length t =? S (length t)) with false by (symmetry; apply Nat.eqb_neq; lia).
    cbn [negb flat_map]. rewrite app_nil_r, IH; [reflexivity|simpl in Hlen; lia].
Qed.

Lemma ends_Star_Cls (p : char -> bool) (pre suf : jstring) (k : list (nat * jstring)) :
  ends true (Star true (Cls p)) (St pre suf k) = unwind p pre suf k.
Proof. cbn [ends after before]. apply iter_Cls. lia. Qed.

Lemma unwind_head (p : char -> bool) (suf : jstring) :
  forall pre k, exists tl,
    unwind p pre suf k = St (rev (takeW p suf) ++ pre) (dropW p suf) k :: tl.
Proof.
  induction suf as [|c t IH]; intros pre k; cbn [unwind takeW dropW].
  - now exists [].
  - destruct (p c); [|now exists []].
    destruct (IH (c :: pre) k) as [tl ->]. exists (tl ++ [St pre (c :: t) k]).
    cbn [rev]. now rewrite <- app_assoc.
Qed.

Lemma unwind_Eol (p : char -> bool) (suf : jstring) :
  forall pre k,
    flat_map (ends true Eol) (unwind p pre suf k)
    = if forallb p suf then [St (rev suf ++ pre) [] k] else [].
Proof.
  induction suf as [|c t IH]; intros pre k; cbn [unwind forallb].
  - reflexivity.
  - destruct (p c); cbn [andb]; [|reflexivity].
    rewrite flat_map_app, IH. cbn [flat_map ends after rev]. rewrite !app_nil_r.
    now rewrite <- app_assoc.
Qed.

Lemma ends_AtLeast_Cls (p : char -> bool) (n : nat) :
  forall pre suf k,
    ends true (AtLeast n (Cls p)) (St pre suf k)
    = if n <=? length (takeW p suf)
      then unwind p (rev (firstn n suf) ++ pre) (skipn n suf) k
      else [].
Proof.
  induction n as [|n IH]; intros pre suf k.
  - cbn [AtLeast]. now rewrite ends_Star_Cls.
  - cbn [AtLeast]. change (ends true (Cat (Cls p) (AtLeast n (Cls p))) (St pre suf k))
      with (flat_map (ends true (AtLeast n (Cls p))) (ends true (Cls p) (St pre suf k))).
    destruct suf as [|c t]; cbn [ends after before caps takeW]; [reflexivity|].
    destruct (p c); cbn [flat_map length]; [|reflexivity].
    rewrite app_nil_r, IH. cbn [firstn skipn rev Nat.leb].
    now rewrite <- app_assoc.
Qed.

(** ** The last step: the end of the text *)

Lemma matchAt_trailing (pre suf : jstring) :
  matchAt reTrailingSpace pre suf
  = match suf with
    | [] => None
    | _ :: _ => if forallb isSpace suf then Some (St (rev suf ++ pre) [] []) else None
    end.
Proof.
  unfold matchAt, reTrailingSpace, Plus, Space.
  change (ends true (Cat (Cat (Cls isSpace) (Star true (Cls isSpace))) Eol) (St pre suf []))
    with (flat_map (ends true Eol)
            (flat_map (ends true (Star true (Cls isSpace)))
                      (ends true (Cls isSpace) (St pre suf [])))).
  destruct suf as [|c t]; [reflexivity|].
  rewrite ends_Cls_cons. cbn [forallb].
  destruct (isSpace c); cbn [flat_map andb]; [|reflexivity].
  rewrite app_nil_r, ends_Star_Cls, unwind_Eol.
  destruct (forallb isSpace t); [|reflexivity].
  cbn [rev]. now rewrite <- app_assoc.
Qed.

Lemma search_trailing (suf : jstring) :
  forall pre,
    match search reTrailingSpace pre suf with
    | Some (p', _, e) => rev p' ++ [LF] ++ after e
    | None => rev pre ++ suf
    end = rev pre ++ endSpec suf.
Proof.
  induction suf as [|c t IH]; intros pre.
  - reflexivity.
  - cbn [search]. rewrite matchAt_trailing. cbn [endSpec].
    destruct (forallb isSpace (c :: t)); [reflexivity|].
    specialize (IH (c :: pre)).
    destruct (search reTrailingSpace (c :: pre) t) as [[[p' s'] e]|].
    + rewrite IH. cbn [rev]. now rewrite <- app_assoc.
    + apply app_inv_head in IH. now rewrite <- IH.
Qed.

Lemma endWithNewline_spec (s : jstring) : endWithNewline s = endSpec s.
Proof.
  unfold endWithNewline, replaceFirst.
  generalize (search_trailing s []).
  destruct (search reTrailingSpace [] s) as [[[p' s'] e]|]; intros H; exact H.
Qed.

(** ** The cap on runs of newlines *)

Lemma getSubstitution_plain (m : nat) (h : hit) (template : jstring) :
  forallb (fun c => negb (eqc "$" c)) template = true ->
  getSubstitution m h template = template.
Proof.
  induction template as [|c t IH]; [reflexivity|]. cbn [forallb getSubstitution].
  intros H; apply andb_prop in H as [Hc Ht]. rewrite Hc. now rewrite IH.
Qed.

Lemma repeat_LF_plain (n : nat) :
  forallb (fun c => negb (eqc "$" c)) (repeatStr [LF] n) = true.
Proof. induction n as [|n IH]; [reflexivity|exact IH]. Qed.

Lemma dropW_skipn (p : char -> bool) (n : nat) :
  forall s, n <= length (takeW p s) -> dropW p (skipn n s) = dropW p s.
Proof.
  induction n as [|n IH]; intros s Hn; [reflexivity|].
  destruct s as [|c t]; [reflexivity|]. cbn [takeW] in Hn. cbn [skipn dropW].
  destruct (p c); [apply IH; simpl in Hn; lia|simpl in Hn; lia].
Qed.

Lemma length_dropW (p : char -> bool) (s : jstring) :
  length (dropW p s) + length (takeW p s) = length s.
Proof.
  rewrite <- (takeW_dropW p s) at 3. rewrite length_app. lia.
Qed.

Lemma matchAt_newlines (m : nat) (pre suf : jstring) :
  if m + 2 <=? lead suf
  then exists b, matchAt (reNewlines m) pre suf = Some (St b (dropW isLF suf) [])
  else matchAt (reNewlines m) pre suf = None.
Proof.
  unfold matchAt, reNewlines, ChrN. rewrite ends_AtLeast_Cls.
  change (N.eqb LF) with isLF. fold (lead suf).
  destruct (m + 2 <=? lead suf) eqn:E; [|reflexivity].
  apply Nat.leb_le in E.
  destruct (unwind_head isLF (skipn (m + 2) suf) (rev (firstn (m + 2) suf) ++ pre) [])
    as [tl ->].
  rewrite dropW_skipn by exact E. eexists; reflexivity.
Qed.

Lemma span_dropW (pre suf b : jstring) (k : list (nat * jstring)) :
  length (span (St pre suf []) (St b (dropW isLF suf) k)) = lead suf.
Proof.
  unfold span; cbn [after]. pose proof (length_dropW isLF suf) as H. fold (lead suf) in H.
  replace (length (dropW isLF suf) <=? length suf) with true
    by (symmetry; apply Nat.leb_le; lia).
  rewrite length_firstn. lia.
Qed.

Lemma lead_cons_LF (c : char) (t : jstring) :
  lead (c :: t) = if isLF c then S (lead t) else 0.
Proof. unfold lead; cbn [takeW]. now destruct (isLF c). Qed.

Lemma pieces_newlines (m : nat) (s : jstring) :
  forall pre,
    render 0 (repeatStr [LF] (m + 1)) (pieces (reNewlines m) pre s 0) = capSpec m false s
    /\ render 0 (repeatStr [LF] (m + 1)) (pieces (reNewlines m) pre s (lead s))
       = capSpec m true s.
Proof.
  induction s as [|c t IH]; intros pre.
  - split; cbn [lead takeW length pieces];
      (generalize (matchAt_newlines m pre []); cbn [lead takeW length];
       replace (m + 2 <=? 0) with false by (symmetry; apply Nat.leb_gt; lia);
       intros ->; reflexivity).
  - assert (H0 : render 0 (repeatStr [LF] (m + 1)) (pieces (reNewlines m) pre (c :: t) 0)
                 = capSpec m false (c :: t)).
    { cbn [pieces capSpec]. generalize (matchAt_newlines m pre (c :: t)).
      destruct (m + 2 <=? lead (c :: t)) eqn:E.
      - intros [b ->]. unfold mkHit at 2. cbn [matched]. rewrite span_dropW.
        rewrite lead_cons_LF in *. destruct (isLF c); [|apply Nat.leb_le in E; lia].
        unfold render at 1. cbn [flat_map].
        rewrite getSubstitution_plain by apply repeat_LF_plain.
        f_equal. apply (IH (c :: pre)).
      - intros ->. unfold render at 1. cbn [flat_map app]. f_equal.
        apply (IH (c :: pre)). }
    split; [exact H0|]. rewrite lead_cons_LF. cbn [capSpec].
    destruct (isLF c) eqn:Ec.
    + cbn [pieces]. apply (IH (c :: pre)).
    + rewrite H0. cbn [capSpec]. rewrite lead_cons_LF, Ec.
      now replace (m + 2 <=? 0) with false by (symmetry; apply Nat.leb_gt; lia).
Qed.

Lemma capNewlines_spec (options : FormatOptions) (s : jstring) :
  capNewlines options s
  = if preserveNewlines options then capSpec (maxPreserveNewlines options) false s else s.
Proof.
  unfold capNewlines. destruct (preserveNewlines options); [|reflexivity].
  apply (pieces_newlines (maxPreserveNewlines options) s []).
Qed.

Lemma lead_le_maxRun (s : jstring) : lead s <= maxRun s.
Proof. destruct s as [|c t]; [apply Nat.le_refl|cbn [maxRun]; lia]. Qed.

Lemma lead_capSpec_inRun (m : nat) (s : jstring) : lead (capSpec m true s) = 0.
Proof.
  induction s as [|c t IH]; [reflexivity|]. cbn [capSpec].
  destruct (isLF c) eqn:E; [exact IH|]. now rewrite lead_cons_LF, E.
Qed.

Lemma lead_capSpec_short (m : nat) (s : jstring) :
  lead s < m + 2 -> lead (capSpec m false s) = lead s.
Proof.
  induction s as [|c t IH]; [reflexivity|]. intros H. cbn [capSpec].
  replace (m + 2 <=? lead (c :: t)) with false by (symmetry; apply Nat.leb_gt; exact H).
  rewrite !lead_cons_LF in *. destruct (isLF c); [|reflexivity].
  rewrite IH; [reflexivity|lia].
Qed.

Lemma lead_repeat_app (n : nat) (x : jstring) : lead (repeatStr [LF] n ++ x) = n + lead x.
Proof.
  induction n as [|n IH]; [reflexivity|].
  change (repeatStr [LF] (S n) ++ x) with (LF :: (repeatStr [LF] n ++ x)).
  rewrite lead_cons_LF. change (isLF LF) with true. now rewrite IH.
Qed.

Lemma maxRun_repeat_app (n : nat) (x : jstring) :
  maxRun (repeatStr [LF] n ++ x) <= Nat.max (n + lead x) (maxRun x).
Proof.
  induction n as [|n IH].
  - cbn [repeatStr app]. pose proof (lead_le_maxRun x). lia.
  - change (repeatStr [LF] (S n) ++ x) with (LF :: (repeatStr [LF] n ++ x)).
    cbn [maxRun]. rewrite lead_cons_LF. change (isLF LF) with true.
    rewrite lead_repeat_app. lia.
Qed.

Lemma maxRun_capSpec (m : nat) (s : jstring) :
  maxRun (capSpec m false s) <= m + 1 /\ maxRun (capSpec m true s) <= m + 1.
Proof.
  induction s as [|c t [IHf IHt]]; [simpl; lia|]. split.
  - cbn [capSpec]. destruct (m + 2 <=? lead (c :: t)) eqn:E.
    + pose proof (maxRun_repeat_app (m + 1) (capSpec m true t)) as H.
      rewrite lead_capSpec_inRun in H. lia.
    + apply Nat.leb_gt in E. cbn [maxRun]. rewrite lead_cons_LF in *.
      destruct (isLF c); [|lia]. rewrite lead_capSpec_short by lia. lia.
  - cbn [capSpec]. destruct (isLF c) eqn:E; [exact IHt|].
    cbn [maxRun]. rewrite lead_cons_LF, E. lia.
Qed.

Lemma capSpec_fixed (m : nat) (s : jstring) :
  maxRun s <= m + 1 -> capSpec m false s = s.
Proof.
  induction s as [|c t IH]; [reflexivity|]. cbn [maxRun capSpec]. intros H.
  replace (m + 2 <=? lead (c :: t)) with false by (symmetry; apply Nat.leb_gt; lia).
  rewrite IH; [reflexivity|lia].
Qed.

(** The last step and runs of line feeds. *)
Lemma forallb_isSpace_lead (s : jstring) :
  forallb isSpace s = false -> lead (endSpec s) = lead s.
Proof.
  induction s as [|c t IH]; [discriminate|]. intros H. cbn [endSpec]. rewrite H.
  rewrite !lead_cons_LF. destruct (isLF c) eqn:E; [|reflexivity].
  rewrite IH; [reflexivity|]. cbn [forallb] in H.
  unfold isLF in E. apply N.eqb_eq in E. subst c. exact H.
Qed.

Lemma maxRun_endSpec (s : jstring) : maxRun (endSpec s) <= Nat.max 1 (maxRun s).
Proof.
  induction s as [|c t IH]; [simpl; lia|]. cbn [endSpec].
  destruct (forallb isSpace (c :: t)) eqn:E; [change (maxRun [LF]) with 1; lia|].
  pose proof (forallb_isSpace_lead (c :: t) E) as H. cbn [endSpec] in H. rewrite E in H.
  cbn [maxRun]. rewrite H. lia.
Qed.

Lemma hasRun_maxRun (n : nat) (s : jstring) : hasRun n s -> n <= maxRun s.
Proof.
  intros (a & b & ->). induction a as [|c a IH].
  - cbn [app]. pose proof (lead_le_maxRun (repeatStr [LF] n ++ b)).
    rewrite lead_repeat_app in H. lia.
  - cbn [app maxRun]. lia.
Qed.

Lemma capSpec_inRun (m : nat) (s : jstring) :
  capSpec m true s = capSpec m false (dropW isLF s).
Proof.
  induction s as [|c t IH]; [reflexivity|]. cbn [capSpec dropW].
  destruct (isLF c) eqn:E; [exact IH|]. cbn [capSpec]. rewrite lead_cons_LF, E.
  now replace (m + 2 <=? 0) with false by (symmetry; apply Nat.leb_gt; lia).
Qed.

Lemma dropW_lead0 (s : jstring) : lead s = 0 -> dropW isLF s = s.
Proof.
  destruct s as [|c t]; [reflexivity|]. rewrite lead_cons_LF. cbn [dropW].
  destruct (isLF c); [discriminate|reflexivity].
Qed.

Lemma dropW_repeat_app (n : nat) (b : jstring) :
  dropW isLF (repeatStr [LF] n ++ b) = dropW isLF b.
Proof. induction n as [|n IH]; [reflexivity|exact IH]. Qed.



Lemma capSpec_run (m k : nat) (b : jstring) :
  m + 2 <= k -> lead b = 0 ->
  capSpec m false (repeatStr [LF] k ++ b) = repeatStr [LF] (m + 1) ++ capSpec m false b
  /\ capSpec m true (repeatStr [LF] k ++ b) = capSpec m false b.
Proof.
  intros Hk Hb. split.
  - destruct k as [|k]; [lia|].
    change (repeatStr [LF] (S k) ++ b) with (LF :: (repeatStr [LF] k ++ b)).
    cbn [capSpec]. rewrite lead_cons_LF. change (isLF LF) with true.
    rewrite lead_repeat_app, Hb.
    replace (m + 2 <=? S (k + 0)) with true by (symmetry; apply Nat.leb_le; lia).
    now rewrite capSpec_inRun, dropW_repeat_app, dropW_lead0.
  - now rewrite capSpec_inRun, dropW_repeat_app, dropW_lead0.
Qed.


Lemma formatJsp_last_steps (text : jstring) (options : FormatOptions) :
  exists body, formatJsp text options = endSpec (capNewlines options body).
Proof.
  unfold formatJsp. destruct (extractRegions text options) as [st text'].
  eexists. apply endWithNewline_spec.
Qed.

(** ** Where a pattern can match *)

Lemma hasPrefix_app (x y : window) (s : jstring) :
  hasPrefix (x ++ y) s = hasPrefix x s && hasPrefix y (skipn (length x) s).
Proof.
  revert s; induction x as [|p x IH]; intros s; [reflexivity|].
  destruct s as [|c s]; cbn [app hasPrefix length skipn]; [reflexivity|].
  now rewrite IH, andb_assoc.
Qed.

Lemma litOf_ends (a : regex) :
  forall x s e, litOf a = Some x -> In e (ends true a s) ->
    hasPrefix x (after s) = true /\ after e = skipn (length x) (after s).
Proof.
  induction a; intros x s e Hx He; try discriminate.
  - injection Hx as <-. destruct He as [<-|[]]. now split.
  - injection Hx as <-. destruct s as [pre [|c t] k]; cbn in He; [contradiction|].
    destruct (p c) eqn:Ep; [|contradiction]. destruct He as [<-|[]].
    cbn [hasPrefix after length skipn]. now rewrite Ep.
  - cbn [litOf] in Hx.
    destruct (litOf a1) as [x1|] eqn:E1; [|discriminate].
    destruct (litOf a2) as [x2|] eqn:E2; [|discriminate].
    injection Hx as <-. cbn [ends] in He. apply in_flat_map in He as (m & Hm & He).
    destruct (IHa1 x1 s m eq_refl Hm) as [P1 A1].
    destruct (IHa2 x2 m e eq_refl He) as [P2 A2].
    rewrite hasPrefix_app, P1, <- A1, P2, A2, A1, length_app, skipn_skipn.
    split; [reflexivity|]. f_equal. lia.
Qed.

(** A pattern cannot match where its first classes do not fit. *)
Lemma req_ends (r : regex) :
  forall s, hasPrefix (req r) (after s) = false -> ends true r s = [].
Proof.
  induction r; intros s H; try discriminate.
  - destruct s as [pre [|c t] k]; cbn in *; [reflexivity|].
    rewrite andb_true_r in H. now rewrite H.
  - cbn [req] in H. cbn [ends].
    destruct (litOf r1) as [x|] eqn:E.
    + rewrite hasPrefix_app in H.
      destruct (ends true r1 s) as [|m ms] eqn:Em; [reflexivity|].
      assert (Hall : forall e, In e (m :: ms) -> ends true r2 e = []).
      { intros e He. rewrite <- Em in He.
        destruct (litOf_ends r1 x s e E He) as [P A]. rewrite P in H. cbn [andb] in H.
        apply IHr2. now rewrite A. }
      clear Em. induction (m :: ms) as [|e es IHes]; [reflexivity|].
      cbn [flat_map]. rewrite Hall by (now left). apply IHes.
      intros e' He'. apply Hall. now right.
    + now rewrite IHr1.
Qed.

Lemma matchAt_req (r : regex) (pre suf : jstring) :
  hasPrefix (req r) suf = false -> matchAt r pre suf = None.
Proof. intros H. unfold matchAt. now rewrite req_ends. Qed.

(** A [g] pattern whose first classes fit nowhere finds nothing. *)
Lemma pieces_no_hit (r : regex) (w : window) :
  (forall s, hasPrefix (req r) s = true -> hasPrefix w s = true) ->
  forall s pre, occurs w s = false -> pieces r pre s 0 = map Text s.
Proof.
  intros Hw. assert (Hnone : forall pre suf, hasPrefix w suf = false -> matchAt r pre suf = None).
  { intros pre suf H. apply matchAt_req. destruct (hasPrefix (req r) suf) eqn:E; [|reflexivity].
    apply Hw in E. congruence. }
  induction s as [|c t IH]; intros pre H; cbn [occurs] in H;
    apply orb_false_iff in H as [H1 H2]; cbn [pieces]; rewrite (Hnone _ _ H1).
  - reflexivity.
  - cbn [map]. now rewrite IH.
Qed.

Lemma emit_Text (S : Type) (f : S -> jstring -> S * jstring) (st : S) (s : jstring) :
  emit f st (map Text s) = (st, s).
Proof. induction s as [|c t IH]; [reflexivity|]. cbn [map emit]. now rewrite IH. Qed.

Lemma replaceAllWith_no_hit (S : Type) (r : regex) (w : window)
    (f : S -> jstring -> S * jstring) (st : S) (s : jstring) :
  (forall u, hasPrefix (req r) u = true -> hasPrefix w u = true) ->
  occurs w s = false -> replaceAllWith r f st s = (st, s).
Proof.
  intros Hw H. unfold replaceAllWith. rewrite (pieces_no_hit r w Hw) by exact H.
  apply emit_Text.
Qed.

Lemma regionFree_windows (t : jstring) :
  regionFree t = true ->
  occurs wJsp t = false /\ occurs wEL t = false /\ occurs wDEL t = false
  /\ occurs wScript t = false /\ occurs wStyle t = false.
Proof.
  unfold regionFree, openers. cbn [forallb]. rewrite !andb_true_iff, !negb_true_iff.
  tauto.
Qed.

Lemma hasPrefix_weaken (x y : window) (s : jstring) :
  hasPrefix (x ++ y) s = true -> hasPrefix x s = true.
Proof. rewrite hasPrefix_app. intros H; now apply andb_prop in H. Qed.

(** On such a text the nine substitutions find nothing. *)
Lemma extractRegions_regionFree (t : jstring) (options : FormatOptions) :
  regionFree t = true -> extractRegions t options = ((0, []), t).
Proof.
  intros H. apply regionFree_windows in H as (HJ & HE & HD & HS & HY).
  unfold extractRegions.
  rewrite (replaceAllWith_no_hit store reComment wJsp); [|apply (hasPrefix_weaken wJsp)|exact HJ].
  rewrite (replaceAllWith_no_hit store reDeclaration wJsp); [|apply (hasPrefix_weaken wJsp)|exact HJ].
  rewrite (replaceAllWith_no_hit store reExpression wJsp); [|apply (hasPrefix_weaken wJsp)|exact HJ].
  rewrite (replaceAllWith_no_hit store reScriptlet wJsp); [|apply (hasPrefix_weaken wJsp)|exact HJ].
  rewrite (replaceAllWith_no_hit store reDirective wJsp); [|apply (hasPrefix_weaken wJsp)|exact HJ].
  rewrite (replaceAllWith_no_hit store reEL wEL); [|apply (hasPrefix_weaken wEL)|exact HE].
  rewrite (replaceAllWith_no_hit store reDEL wDEL); [|apply (hasPrefix_weaken wDEL)|exact HD].
  rewrite (replaceAllWith_no_hit store reScript wScript); [|apply (hasPrefix_weaken wScript)|exact HS].
  rewrite (replaceAllWith_no_hit store reStyle wStyle); [|apply (hasPrefix_weaken wStyle)|exact HY].
  reflexivity.
Qed.

(** ** Lines *)

Lemma isLF_eqb (c : char) : (c =? LF)%N = isLF c.
Proof. unfold isLF. apply N.eqb_sym. Qed.

Lemma splitLines_LF (s : jstring) : splitLines (LF :: s) = [] :: splitLines s.
Proof. reflexivity. Qed.

Lemma splitLines_cons (c : char) (s : jstring) :
  isLF c = false ->
  exists l ls, splitLines s = l :: ls /\ splitLines (c :: s) = (c :: l) :: ls.
Proof.
  intros H. cbn [splitLines]. rewrite isLF_eqb, H.
  destruct s as [|d s]; [now exists [], []|].
  destruct (splitLines (d :: s)) as [|l ls] eqn:E.
  - exfalso. cbn [splitLines] in E. destruct (d =? LF)%N; [discriminate|].
    destruct (splitLines s); discriminate.
  - now exists l, ls.
Qed.

Lemma splitLines_not_nil (s : jstring) : splitLines s <> [].
Proof.
  destruct s as [|c s]; [discriminate|]. destruct (isLF c) eqn:E.
  - unfold isLF in E. apply N.eqb_eq in E. subst c. discriminate.
  - destruct (splitLines_cons c s E) as (l & ls & _ & ->). discriminate.
Qed.

Lemma joinLines_cons (l : jstring) (ls : list jstring) :
  ls <> [] -> joinLines (l :: ls) = l ++ LF :: joinLines ls.
Proof. destruct ls; [congruence|reflexivity]. Qed.

Lemma joinLines_splitLines (s : jstring) : joinLines (splitLines s) = s.
Proof.
  induction s as [|c s IH]; [reflexivity|]. destruct (isLF c) eqn:E.
  - unfold isLF in E. apply N.eqb_eq in E. subst c. rewrite splitLines_LF.
    rewrite joinLines_cons by apply splitLines_not_nil. now rewrite IH.
  - destruct (splitLines_cons c s E) as (l & ls & E1 & ->). rewrite E1 in IH.
    destruct ls as [|l2 ls]; cbn [joinLines] in *; now rewrite <- IH.
Qed.

Lemma splitLines_app_LF (l r : jstring) :
  noLF l = true -> splitLines (l ++ LF :: r) = l :: splitLines r.
Proof.
  induction l as [|c l IH]; intros H; [reflexivity|].
  cbn [noLF forallb] in H. apply andb_prop in H as [Hc Hl]. apply negb_true_iff in Hc.
  cbn [app]. destruct (splitLines_cons c (l ++ LF :: r) Hc) as (l' & ls & E1 & ->).
  rewrite IH in E1 by exact Hl. now injection E1 as <- <-.
Qed.

Lemma splitLines_one (l : jstring) : noLF l = true -> splitLines l = [l].
Proof.
  induction l as [|c l IH]; intros H; [reflexivity|].
  cbn [noLF forallb] in H. apply andb_prop in H as [Hc Hl]. apply negb_true_iff in Hc.
  destruct (splitLines_cons c l Hc) as (l' & ls & E1 & ->).
  rewrite IH in E1 by exact Hl. now injection E1 as <- <-.
Qed.

Lemma splitLines_joinLines (ls : list jstring) :
  ls <> [] -> forallb noLF ls = true -> splitLines (joinLines ls) = ls.
Proof.
  induction ls as [|l ls IH]; [congruence|]. intros _ H.
  cbn [forallb] in H. apply andb_prop in H as [Hl Hls].
  destruct ls as [|l2 ls]; [now apply splitLines_one|].
  rewrite joinLines_cons by discriminate. rewrite splitLines_app_LF by exact Hl.
  now rewrite IH.
Qed.

Lemma splitLines_noLF (s : jstring) : forallb noLF (splitLines s) = true.
Proof.
  induction s as [|c s IH]; [reflexivity|]. destruct (isLF c) eqn:E.
  - unfold isLF in E. apply N.eqb_eq in E. subst c. exact IH.
  - destruct (splitLines_cons c s E) as (l & ls & E1 & ->). rewrite E1 in IH.
    cbn [forallb noLF] in *. now rewrite E.
Qed.

(** ** Trimming *)

Lemma dropSpace_app (ws s : jstring) :
  forallb isSpace ws = true -> dropSpace (ws ++ s) = dropSpace s.
Proof.
  induction ws as [|c ws IH]; [reflexivity|]. cbn [forallb app dropSpace].
  intros H; apply andb_prop in H as [-> H]. now apply IH.
Qed.

Lemma dropSpace_decomp (s : jstring) :
  exists ws, s = ws ++ dropSpace s /\ forallb isSpace ws = true.
Proof.
  induction s as [|c s (ws & E & H)]; [now exists []|]. cbn [dropSpace].
  destruct (isSpace c) eqn:Ec; [|now exists []].
  exists (c :: ws). cbn [app forallb]. rewrite Ec, H. now rewrite <- E.
Qed.

Lemma dropSpace_idem (s : jstring) : dropSpace (dropSpace s) = dropSpace s.
Proof.
  induction s as [|c s IH]; [reflexivity|]. cbn [dropSpace].
  destruct (isSpace c) eqn:Ec; [exact IH|]. cbn [dropSpace]. now rewrite Ec.
Qed.

Lemma dropSpace_snoc (z : jstring) (c : char) :
  isSpace c = false -> exists u, dropSpace (z ++ [c]) = u ++ [c].
Proof.
  intros Hc. induction z as [|d z [u IH]]; cbn [app dropSpace].
  - rewrite Hc. now exists [].
  - destruct (isSpace d); [now exists u|now exists (d :: z)].
Qed.

Lemma trim_fixed (l : jstring) : trimmed l -> trim l = l.
Proof. intros [H1 H2]. unfold trim. now rewrite H1, H2, rev_involutive. Qed.

Lemma trim_trimmed (l : jstring) : trimmed (trim l).
Proof.
  unfold trimmed, trim. rewrite rev_involutive, dropSpace_idem. split; [|reflexivity].
  destruct (dropSpace l) as [|c t] eqn:E; [reflexivity|].
  assert (Hc : isSpace c = false).
  { destruct (dropSpace_decomp l) as (ws & _ & _).
    pose proof (dropSpace_idem l) as H. rewrite E in H. cbn [dropSpace] in H.
    destruct (isSpace c); [|reflexivity].
    exfalso. destruct (dropSpace_decomp t) as (ws' & E' & _).
    apply (f_equal (@length char)) in H. rewrite E' in H at 2.
    cbn [length] in H. rewrite length_app in H. lia. }
  cbn [rev]. destruct (dropSpace_snoc (rev t) c Hc) as [u ->].
  rewrite rev_app_distr. cbn [rev app dropSpace]. now rewrite Hc.
Qed.

Lemma trim_idem (l : jstring) : trim (trim l) = trim l.
Proof. apply trim_fixed, trim_trimmed. Qed.

Lemma trim_space_app (ws l : jstring) :
  forallb isSpace ws = true -> trim (ws ++ l) = trim l.
Proof. intros H. unfold trim. now rewrite dropSpace_app. Qed.

Lemma trim_decomp (l : jstring) :
  exists a b, l = a ++ trim l ++ b
              /\ forallb isSpace a = true /\ forallb isSpace b = true.
Proof.
  destruct (dropSpace_decomp l) as (a & Ea & Ha).
  destruct (dropSpace_decomp (rev (dropSpace l))) as (b & Eb & Hb).
  exists a, (rev b). unfold trim. split; [|split; [exact Ha|]].
  - rewrite <- rev_app_distr, <- Eb, rev_involutive. exact Ea.
  - rewrite forallb_forall in *. intros x Hx. apply Hb. now apply in_rev.
Qed.

Lemma repeatStr_space (indent : jstring) (n : nat) :
  forallb isSpace indent = true -> forallb isSpace (repeatStr indent n) = true.
Proof.
  intros H. induction n as [|n IH]; [reflexivity|]. cbn [repeatStr].
  now rewrite forallb_app, H, IH.
Qed.

Lemma indentOf_space (options : FormatOptions) : forallb isSpace (indentOf options) = true.
Proof.
  unfold indentOf. destruct (insertSpaces options); [|reflexivity].
  now apply repeatStr_space.
Qed.

(** ** The walk of [formatHtmlStructure], line by line *)

Lemma htmlStep_line (indent : jstring) (level : Z) (acc : list jstring) (rawLine : jstring) :
  htmlStep indent (level, acc) rawLine
  = (nextLevel level rawLine, acc ++ [outLine indent level rawLine]).
Proof.
  unfold htmlStep, nextLevel, outLine, lineLevel.
  destruct (trim rawLine) as [|c t]; [reflexivity|].
  destruct (negb (test selfCloseTags (c :: t)));
    destruct (test openTags (c :: t) || test jspOpenTags (c :: t)); reflexivity.
Qed.

Lemma fold_htmlStep (indent : jstring) (lines : list jstring) :
  forall level acc,
    snd (fold_left (htmlStep indent) lines (level, acc))
    = acc ++ walkFrom indent level lines.
Proof.
  induction lines as [|l ls IH]; intros level acc; cbn [fold_left walkFrom].
  - now rewrite app_nil_r.
  - rewrite htmlStep_line, IH. now rewrite <- app_assoc.
Qed.

Lemma formatHtmlStructure_walk (text : jstring) (options : FormatOptions) :
  formatHtmlStructure text options
  = joinLines (walkFrom (indentOf options) 0 (splitLines text)).
Proof. unfold formatHtmlStructure, htmlWalk. now rewrite fold_htmlStep. Qed.

Lemma trim_outLine (indent : jstring) (level : Z) (rawLine : jstring) :
  forallb isSpace indent = true -> trim (outLine indent level rawLine) = trim rawLine.
Proof.
  intros H. unfold outLine. destruct (trim rawLine) as [|c t] eqn:E; [reflexivity|].
  rewrite trim_space_app by now apply repeatStr_space.
  rewrite <- E. apply trim_idem.
Qed.

Lemma nextLevel_trim (level : Z) (a b : jstring) :
  trim a = trim b -> nextLevel level a = nextLevel level b.
Proof. intros H. unfold nextLevel. now rewrite H. Qed.

Lemma outLine_trim (indent : jstring) (level : Z) (a b : jstring) :
  trim a = trim b -> outLine indent level a = outLine indent level b.
Proof. intros H. unfold outLine. now rewrite H. Qed.

(** The lines that the walk pushes are lines that it leaves as they are. *)
Lemma walkFrom_idem (indent : jstring) (lines : list jstring) :
  forallb isSpace indent = true ->
  forall level,
    walkFrom indent level (walkFrom indent level lines) = walkFrom indent level lines.
Proof.
  intros H. induction lines as [|l ls IH]; intros level; [reflexivity|].
  cbn [walkFrom].
  rewrite (nextLevel_trim level _ _ (trim_outLine indent level l H)).
  rewrite (outLine_trim indent level _ _ (trim_outLine indent level l H)).
  now rewrite IH.
Qed.

(** ** Blank lines taken out *)

Lemma Del_refl (a : list jstring) : Del a a.
Proof. induction a; constructor; assumption. Qed.

Lemma DelT_refl (a : list jstring) : a <> [] -> DelT a a.
Proof. destruct a as [|l a]; [congruence|]. intros _. exists l, a, a. auto using Del_refl. Qed.

Lemma DelT_Del (x y : list jstring) : DelT x y -> Del x y.
Proof. intros (l & a & b & -> & -> & H). now constructor. Qed.

Lemma Del_Forall (P : jstring -> Prop) (a b : list jstring) :
  Del a b -> Forall P a -> Forall P b.
Proof.
  induction 1; intros HF; [constructor| |].
  - inversion HF; subst. constructor; auto.
  - inversion HF; subst. auto.
Qed.

Lemma Del_blank_front (k j : nat) (a b : list jstring) :
  j <= k -> Del a b -> Del (repeat [] k ++ a) (repeat [] j ++ b).
Proof.
  revert j. induction k as [|k IH]; intros j Hj Hab.
  - replace j with 0 by lia. exact Hab.
  - destruct j as [|j]; cbn [repeat app].
    + apply Del_drop. apply (IH 0); [lia|exact Hab].
    + apply Del_keep. apply IH; [lia|exact Hab].
Qed.

Lemma walkFrom_Del (indent : jstring) (a b : list jstring) :
  Del a b -> forall level, walkFrom indent level a = a -> walkFrom indent level b = b.
Proof.
  induction 1 as [|l a b _ IH|a b _ IH]; intros level H; [reflexivity| |].
  - cbn [walkFrom] in *. injection H as H1 H2. rewrite H1. f_equal. now apply IH.
  - cbn [walkFrom] in H. injection H as H. apply IH. exact H.
Qed.

Lemma takeW_isLF (s : jstring) : takeW isLF s = repeatStr [LF] (lead s).
Proof.
  unfold lead. induction s as [|c s IH]; [reflexivity|]. cbn [takeW].
  destruct (isLF c) eqn:E; [|reflexivity].
  unfold isLF in E. apply N.eqb_eq in E. subst c. cbn [length repeatStr app]. now f_equal.
Qed.

Lemma splitLines_blank_front (k : nat) (x : jstring) :
  splitLines (repeatStr [LF] k ++ x) = repeat [] k ++ splitLines x.
Proof.
  induction k as [|k IH]; [reflexivity|].
  change (repeatStr [LF] (S k) ++ x) with (LF :: (repeatStr [LF] k ++ x)).
  rewrite splitLines_LF, IH. reflexivity.
Qed.

Lemma capSpec_at_run (m : nat) (s : jstring) :
  m + 2 <= lead s ->
  capSpec m false s = repeatStr [LF] (m + 1) ++ capSpec m false (dropW isLF s).
Proof.
  destruct s as [|c t]; [cbn; lia|]. intros H. cbn [capSpec dropW].
  replace (m + 2 <=? lead (c :: t)) with true by (symmetry; apply Nat.leb_le; exact H).
  rewrite lead_cons_LF in H. destruct (isLF c); [|lia]. now rewrite capSpec_inRun.
Qed.

Lemma lines_capSpec (m : nat) :
  forall n s, length s <= n ->
    DelT (splitLines s) (splitLines (capSpec m false s)).
Proof.
  induction n as [|n IH]; intros s Hn.
  - destruct s; [|simpl in Hn; lia]. apply DelT_refl. discriminate.
  - destruct s as [|c t]; [apply DelT_refl; discriminate|].
    destruct (m + 2 <=? lead (c :: t)) eqn:E.
    + apply Nat.leb_le in E. rewrite (capSpec_at_run m (c :: t) E).
      rewrite <- (takeW_dropW isLF (c :: t)) at 1. rewrite takeW_isLF.
      rewrite !splitLines_blank_front.
      assert (Hlen : length (dropW isLF (c :: t)) <= n).
      { pose proof (length_dropW isLF (c :: t)) as H. fold (lead (c :: t)) in H.
        simpl length in *. lia. }
      specialize (IH _ Hlen). apply DelT_Del in IH.
      destruct (lead (c :: t)) as [|k]; [lia|].
      replace (m + 1) with (S m) by lia. cbn [repeat app].
      eexists _, _, _. split; [reflexivity|]. split; [reflexivity|].
      apply Del_blank_front; [lia|exact IH].
    + cbn [capSpec]. rewrite E.
      assert (Hlen : length t <= n) by (simpl in Hn; lia).
      destruct (IH t Hlen) as (l & a & b & E1 & E2 & HD).
      destruct (isLF c) eqn:Ec.
      * unfold isLF in Ec. apply N.eqb_eq in Ec. subst c. rewrite !splitLines_LF, E1, E2.
        eexists _, _, _. split; [reflexivity|]. split; [reflexivity|]. now constructor.
      * destruct (splitLines_cons c t Ec) as (l1 & a1 & F1 & ->).
        destruct (splitLines_cons c (capSpec m false t) Ec) as (l2 & a2 & F2 & ->).
        rewrite E1 in F1. rewrite E2 in F2. injection F1 as <- <-. injection F2 as <- <-.
        eexists _, _, _. split; [reflexivity|]. split; [reflexivity|]. exact HD.
Qed.

Lemma allLF_repeat (u : jstring) : forallb isLF u = true -> u = repeatStr [LF] (length u).
Proof.
  induction u as [|c u IH]; [reflexivity|]. cbn [forallb]. intros H.
  apply andb_prop in H as [Hc Hu]. unfold isLF in Hc. apply N.eqb_eq in Hc. subst c.
  cbn [length repeatStr app]. f_equal. now apply IH.
Qed.

Lemma lines_endSpec (s : jstring) :
  endTidy s -> DelT (splitLines s) (splitLines (endSpec s)).
Proof.
  induction s as [|c t IH]; intros HT; [apply DelT_refl; discriminate|].
  cbn [endSpec]. destruct (forallb isSpace (c :: t)) eqn:E.
  - pose proof (HT [] (c :: t) eq_refl E) as HL. apply allLF_repeat in HL.
    rewrite HL. cbn [length]. rewrite <- (app_nil_r (repeatStr [LF] (S (length t)))).
    rewrite splitLines_blank_front. cbn [repeat app splitLines].
    eexists _, _, _. split; [reflexivity|]. split; [reflexivity|].
    apply (Del_blank_front (length t) 0 [[]] [[]]); [lia|apply Del_refl].
  - assert (HT' : endTidy t).
    { intros a u Ea Hu. apply (HT (c :: a) u); [now rewrite Ea|exact Hu]. }
    destruct (IH HT') as (l & a & b & E1 & E2 & HD).
    destruct (isLF c) eqn:Ec.
    + unfold isLF in Ec. apply N.eqb_eq in Ec. subst c. rewrite !splitLines_LF, E1, E2.
      eexists _, _, _. split; [reflexivity|]. split; [reflexivity|]. now constructor.
    + destruct (splitLines_cons c t Ec) as (l1 & a1 & F1 & ->).
      destruct (splitLines_cons c (endSpec t) Ec) as (l2 & a2 & F2 & ->).
      rewrite E1 in F1. rewrite E2 in F2. injection F1 as <- <-. injection F2 as <- <-.
      eexists _, _, _. split; [reflexivity|]. split; [reflexivity|]. exact HD.
Qed.

Lemma tidy_space_suffix (l a u : jstring) :
  tidy l = true -> l = a ++ u -> forallb isSpace u = true -> u = [].
Proof.
  intros Ht -> Hu. unfold tidy in Ht. rewrite rev_app_distr in Ht.
  destruct (rev u) as [|c r] eqn:E.
  - apply (f_equal (@rev char)) in E. now rewrite rev_involutive in E.
  - exfalso. cbn [app] in Ht. apply negb_true_iff in Ht.
    rewrite forallb_forall in Hu. rewrite Hu in Ht; [discriminate|].
    apply in_rev. rewrite E. now left.
Qed.

Lemma endTidy_joinLines (ls : list jstring) :
  forallb tidy ls = true -> endTidy (joinLines ls).
Proof.
  induction ls as [|l ls IH]; intros H a u E Hu.
  - destruct a; destruct u; try discriminate. reflexivity.
  - cbn [forallb] in H. apply andb_prop in H as [Hl Hls].
    destruct ls as [|l2 ls].
    + cbn [joinLines] in E. now rewrite (tidy_space_suffix l a u Hl E Hu).
    + rewrite joinLines_cons in E by discriminate.
      assert (Hr : forall v, forallb isSpace v = true -> v = LF :: joinLines (l2 :: ls) ->
                             forallb isLF v = true).
      { intros v Hv ->. cbn [forallb] in *. apply andb_prop in Hv as [_ Hv].
        change (isLF LF) with true. cbn [andb].
        apply (IH Hls [] _ eq_refl Hv). }
      apply app_eq_app in E as [x [[E1 E2]|[E1 E2]]].
      * subst u. rewrite forallb_app in Hu. apply andb_prop in Hu as [Hx Hv].
        pose proof (tidy_space_suffix l a x Hl E1 Hx) as ->.
        cbn [app]. now apply Hr.
      * subst a. destruct x as [|d x].
        -- cbn [app] in E2. apply (Hr u Hu). now symmetry.
        -- cbn [app] in E2. injection E2 as _ E2.
           apply (IH Hls x u E2 Hu).
Qed.

(** ** The lines that the walk pushes *)

Lemma noLF_app (a b : jstring) : noLF (a ++ b) = noLF a && noLF b.
Proof. apply forallb_app. Qed.

Lemma noLF_trim (l : jstring) : noLF l = true -> noLF (trim l) = true.
Proof.
  intros H. destruct (trim_decomp l) as (a & b & E & _ & _). rewrite E in H.
  rewrite !noLF_app in H. apply andb_prop in H as [_ H]. now apply andb_prop in H as [H _].
Qed.

Lemma noLF_repeatStr (indent : jstring) (n : nat) :
  noLF indent = true -> noLF (repeatStr indent n) = true.
Proof.
  intros H. induction n as [|n IH]; [reflexivity|]. cbn [repeatStr].
  now rewrite noLF_app, H, IH.
Qed.

Lemma noLF_indentOf (options : FormatOptions) : noLF (indentOf options) = true.
Proof.
  unfold indentOf. destruct (insertSpaces options); [|reflexivity].
  now apply noLF_repeatStr.
Qed.

Lemma noLF_outLine (indent : jstring) (level : Z) (l : jstring) :
  noLF indent = true -> noLF l = true -> noLF (outLine indent level l) = true.
Proof.
  intros Hi Hl. unfold outLine. pose proof (noLF_trim l Hl) as Ht.
  destruct (trim l) as [|c t]; [reflexivity|].
  now rewrite noLF_app, noLF_repeatStr, Ht.
Qed.

Lemma noLF_walkFrom (indent : jstring) (lines : list jstring) :
  noLF indent = true -> forallb noLF lines = true ->
  forall level, forallb noLF (walkFrom indent level lines) = true.
Proof.
  intros Hi. induction lines as [|l ls IH]; intros H level; [reflexivity|].
  cbn [forallb walkFrom] in *. apply andb_prop in H as [Hl Hls].
  now rewrite noLF_outLine, IH.
Qed.

Lemma tidy_outLine (indent : jstring) (level : Z) (l : jstring) :
  tidy (outLine indent level l) = true.
Proof.
  unfold outLine. destruct (trim l) as [|c t] eqn:E; [reflexivity|].
  unfold tidy. rewrite rev_app_distr.
  destruct (trim_trimmed l) as [_ H]. rewrite E in H.
  destruct (rev (c :: t)) as [|d r] eqn:Er.
  - apply (f_equal (@rev char)) in Er. rewrite rev_involutive in Er. discriminate.
  - cbn [app]. cbn [dropSpace] in H. destruct (isSpace d); [|reflexivity].
    exfalso. destruct (dropSpace_decomp r) as (ws & Ews & _).
    apply (f_equal (@length char)) in H. rewrite Ews in H at 2.
    cbn [length] in H. rewrite length_app in H. lia.
Qed.

Lemma tidy_walkFrom (indent : jstring) (lines : list jstring) :
  forall level, forallb tidy (walkFrom indent level lines) = true.
Proof.
  induction lines as [|l ls IH]; intros level; [reflexivity|].
  cbn [forallb walkFrom]. now rewrite tidy_outLine, IH.
Qed.

Lemma walkFrom_not_nil (indent : jstring) (level : Z) (lines : list jstring) :
  lines <> [] -> walkFrom indent level lines <> [].
Proof. destruct lines; [congruence|discriminate]. Qed.

(** ** Windows without white space *)

Lemma hasPrefix_sep (c : char) (w : window) :
  rejects c w ->
  forall l r, hasPrefix w (l ++ c :: r) = true -> hasPrefix w l = true.
Proof.
  induction 1 as [|p w Hp _ IH]; intros l r H; [reflexivity|].
  destruct l as [|d l]; cbn [app hasPrefix] in *.
  - rewrite Hp in H. discriminate.
  - apply andb_prop in H as [-> H]. now apply IH in H.
Qed.

Lemma occurs_nil (w : window) : w <> [] -> occurs w [] = false.
Proof. destruct w; [congruence|reflexivity]. Qed.

Lemma occurs_cons (w : window) (c : char) (s : jstring) :
  occurs w (c :: s) = hasPrefix w (c :: s) || occurs w s.
Proof. reflexivity. Qed.

Lemma hasPrefix_app_l (w : window) (s b : jstring) :
  hasPrefix w s = true -> hasPrefix w (s ++ b) = true.
Proof.
  revert s. induction w as [|p w IH]; intros s H; [reflexivity|].
  destruct s as [|c s]; [discriminate|]. cbn [app hasPrefix] in *.
  apply andb_prop in H as [-> H]. now apply IH.
Qed.

Lemma occurs_app_l (w : window) (s b : jstring) :
  occurs w s = true -> occurs w (s ++ b) = true.
Proof.
  induction s as [|c s IH]; intros H.
  - cbn [occurs] in H. rewrite orb_false_r in H.
    destruct b; cbn [app occurs]; apply orb_true_iff; left;
      now apply (hasPrefix_app_l w [] _ H).
  - cbn [app]. rewrite occurs_cons in *. apply orb_true_iff in H as [H|H].
    + apply orb_true_iff; left. exact (hasPrefix_app_l w (c :: s) b H).
    + rewrite IH by exact H. apply orb_true_r.
Qed.

Lemma occurs_app_r (w : window) (a s : jstring) :
  occurs w s = true -> occurs w (a ++ s) = true.
Proof.
  intros H. induction a as [|c a IH]; [exact H|].
  cbn [app]. rewrite occurs_cons, IH. apply orb_true_r.
Qed.

Lemma occurs_infix (w : window) (a s b : jstring) :
  occurs w s = true -> occurs w (a ++ s ++ b) = true.
Proof. intros H. now apply occurs_app_r, occurs_app_l. Qed.

Lemma occurs_sep (c : char) (w : window) (l r : jstring) :
  w <> [] -> rejects c w ->
  occurs w (l ++ c :: r) = true -> occurs w l = true \/ occurs w r = true.
Proof.
  intros Hne Hc. induction l as [|d l IH]; intros H.
  - cbn [app] in H. rewrite occurs_cons in H. apply orb_true_iff in H as [H|H]; [|now right].
    apply (hasPrefix_sep c w Hc [] r) in H.
    destruct w; [congruence|discriminate].
  - cbn [app] in H. rewrite occurs_cons in *. apply orb_true_iff in H as [H|H].
    + left. apply (hasPrefix_sep c w Hc (d :: l) r) in H. now rewrite H.
    + destruct (IH H) as [H'|H']; [left; rewrite H'; apply orb_true_r|now right].
Qed.

Lemma occurs_space_app (w : window) (ws x : jstring) :
  solid w -> forallb isSpace ws = true ->
  occurs w (ws ++ x) = true -> occurs w x = true.
Proof.
  intros [Hne Hs]. induction ws as [|c ws IH]; intros Hws H; [exact H|].
  cbn [forallb] in Hws. apply andb_prop in Hws as [Hc Hws].
  destruct (occurs_sep c w [] (ws ++ x) Hne (Hs c Hc) H) as [H'|H'].
  - now rewrite occurs_nil in H'.
  - now apply IH.
Qed.

Lemma solid_LF (w : window) : solid w -> rejects LF w.
Proof. intros [_ H]. now apply H. Qed.

Lemma occurs_joinLines (w : window) (ls : list jstring) :
  solid w -> occurs w (joinLines ls) = true -> exists l, In l ls /\ occurs w l = true.
Proof.
  intros Hs. induction ls as [|l ls IH]; intros H.
  - destruct Hs as [Hne _]. cbn [joinLines] in H. now rewrite occurs_nil in H.
  - destruct ls as [|l2 ls]; [exists l; split; [now left|exact H]|].
    rewrite joinLines_cons in H by discriminate.
    destruct (occurs_sep LF w l _ (proj1 Hs) (solid_LF w Hs) H) as [H'|H'].
    + exists l; split; [now left|exact H'].
    + destruct (IH H') as (l' & Hin & Ho). exists l'; split; [now right|exact Ho].
Qed.

Lemma splitLines_first (t l : jstring) (ls : list jstring) :
  splitLines t = l :: ls -> exists b, t = l ++ b.
Proof.
  revert l ls. induction t as [|c t IH]; intros l ls H.
  - injection H as <- _. now exists [].
  - destruct (isLF c) eqn:E.
    + unfold isLF in E. apply N.eqb_eq in E. subst c. rewrite splitLines_LF in H.
      injection H as <- _. now exists (LF :: t).
    + destruct (splitLines_cons c t E) as (l1 & ls1 & E1 & E2). rewrite E2 in H.
      injection H as <- _. destruct (IH l1 ls1 E1) as [b ->]. now exists b.
Qed.

Lemma splitLines_infix (t l : jstring) :
  In l (splitLines t) -> exists a b, t = a ++ l ++ b.
Proof.
  revert l. induction t as [|c t IH]; intros l H.
  - destruct H as [<-|[]]. now exists [], [].
  - destruct (isLF c) eqn:E.
    + unfold isLF in E. apply N.eqb_eq in E. subst c. rewrite splitLines_LF in H.
      destruct H as [<-|H]; [now exists [], (LF :: t)|].
      destruct (IH l H) as (a & b & ->). now exists (LF :: a), b.
    + destruct (splitLines_cons c t E) as (l1 & ls & E1 & E2). rewrite E2 in H.
      destruct H as [<-|H].
      * destruct (splitLines_first t l1 ls E1) as [b ->]. now exists [], b.
      * destruct (IH l) as (a & b & ->); [rewrite E1; now right|].
        now exists (c :: a), b.
Qed.

Lemma occurs_outLine (w : window) (indent : jstring) (level : Z) (l : jstring) :
  solid w -> forallb isSpace indent = true ->
  occurs w (outLine indent level l) = true -> occurs w l = true.
Proof.
  intros Hs Hi H. unfold outLine in H.
  destruct (trim_decomp l) as (a & b & E & _ & _).
  destruct (trim l) as [|c t] eqn:Et.
  - destruct Hs as [Hne _]. now rewrite occurs_nil in H.
  - apply occurs_space_app in H; [|exact Hs|now apply repeatStr_space].
    rewrite E. now apply occurs_infix.
Qed.

Lemma occurs_walkFrom (w : window) (indent : jstring) (lines : list jstring) :
  solid w -> forallb isSpace indent = true ->
  forall level l, In l (walkFrom indent level lines) -> occurs w l = true ->
    exists l', In l' lines /\ occurs w l' = true.
Proof.
  intros Hs Hi. induction lines as [|x ls IH]; intros level l Hin Ho; [contradiction|].
  cbn [walkFrom] in Hin. destruct Hin as [<-|Hin].
  - exists x. split; [now left|]. now apply (occurs_outLine w indent level x).
  - destruct (IH _ l Hin Ho) as (l' & Hl' & Ho'). exists l'. split; [now right|exact Ho'].
Qed.

Lemma occurs_formatHtmlStructure (w : window) (text : jstring) (options : FormatOptions) :
  solid w -> occurs w (formatHtmlStructure text options) = true -> occurs w text = true.
Proof.
  intros Hs H. rewrite formatHtmlStructure_walk in H.
  apply (occurs_joinLines w _ Hs) in H as (l & Hin & Ho).
  destruct (occurs_walkFrom w _ _ Hs (indentOf_space options) _ l Hin Ho) as (l' & Hl' & Ho').
  destruct (splitLines_infix text l' Hl') as (a & b & ->). now apply occurs_infix.
Qed.

Lemma hasPrefix_capSpec (m : nat) (w : window) :
  rejects LF w ->
  forall s, hasPrefix w (capSpec m false s) = true -> hasPrefix w s = true.
Proof.
  induction 1 as [|p w Hp _ IH]; intros s H; [reflexivity|].
  destruct s as [|c t]; [discriminate|]. cbn [capSpec] in H.
  destruct (m + 2 <=? lead (c :: t)).
  - replace (m + 1) with (S m) in H by lia. cbn [repeatStr app hasPrefix] in H.
    rewrite Hp in H. discriminate.
  - cbn [hasPrefix] in *. apply andb_prop in H as [-> H]. now apply IH.
Qed.

Lemma occurs_capSpec (m : nat) (w : window) (s : jstring) :
  solid w ->
  forall inRun, occurs w (capSpec m inRun s) = true -> occurs w s = true.
Proof.
  intros Hs. pose proof (solid_LF w Hs) as HLF.
  assert (Hcons : forall c t,
             (occurs w (capSpec m false t) = true -> occurs w t = true) ->
             occurs w (c :: capSpec m false t) = true -> occurs w (c :: t) = true).
  { intros c t IH H. rewrite occurs_cons in *. apply orb_true_iff in H as [H|H].
    - apply orb_true_iff; left. destruct w as [|p w]; [reflexivity|].
      cbn [hasPrefix] in *. apply andb_prop in H as [-> H].
      inversion HLF; subst. now apply (hasPrefix_capSpec m w) in H.
    - rewrite IH by exact H. apply orb_true_r. }
  induction s as [|c t IH]; intros inRun H; [exact H|].
  cbn [capSpec] in H. destruct inRun.
  - destruct (isLF c).
    + rewrite occurs_cons, (IH true H). apply orb_true_r.
    + apply Hcons; [apply (IH false)|exact H].
  - destruct (m + 2 <=? lead (c :: t)).
    + apply occurs_space_app in H; [|exact Hs|].
      * rewrite occurs_cons, (IH true H). apply orb_true_r.
      * apply repeatStr_space. reflexivity.
    + apply Hcons; [apply (IH false)|exact H].
Qed.

Lemma hasPrefix_endSpec (w : window) :
  rejects LF w ->
  forall s, hasPrefix w (endSpec s) = true -> hasPrefix w s = true.
Proof.
  induction 1 as [|p w Hp _ IH]; intros s H; [reflexivity|].
  destruct s as [|c t]; [discriminate|]. cbn [endSpec] in H.
  destruct (forallb isSpace (c :: t)).
  - cbn [hasPrefix] in H. rewrite Hp in H. discriminate.
  - cbn [hasPrefix] in *. apply andb_prop in H as [-> H]. now apply IH.
Qed.

Lemma occurs_endSpec (w : window) (s : jstring) :
  solid w -> occurs w (endSpec s) = true -> occurs w s = true.
Proof.
  intros Hs. pose proof (solid_LF w Hs) as HLF.
  induction s as [|c t IH]; intros H; [exact H|].
  cbn [endSpec] in H. destruct (forallb isSpace (c :: t)).
  - exfalso. rewrite occurs_cons, (occurs_nil w (proj1 Hs)), orb_false_r in H.
    apply (hasPrefix_sep LF w HLF [] []) in H. destruct w; [now destruct Hs|discriminate].
  - rewrite occurs_cons in *. apply orb_true_iff in H as [H|H].
    + apply orb_true_iff; left. destruct w as [|p w]; [reflexivity|].
      cbn [hasPrefix] in *. apply andb_prop in H as [-> H].
      inversion HLF; subst. now apply (hasPrefix_endSpec w) in H.
    + rewrite IH by exact H. apply orb_true_r.
Qed.

(** The openers are solid. *)
Lemma isSpace_range (c : char) : (33 <= c < 160)%N -> isSpace c = false.
Proof.
  intros H. unfold isSpace.
  repeat match goal with
         | |- context [(?a =? ?b)%N] =>
             replace (a =? b)%N with false by (symmetry; apply N.eqb_neq; lia)
         end.
  replace (c <=? 13)%N with false by (symmetry; apply N.leb_gt; lia).
  replace (8192 <=? c)%N with false by (symmetry; apply N.leb_gt; lia).
  now rewrite !andb_false_r.
Qed.

Lemma eqc_space (a : ascii) (c : char) :
  isSpace (ch a) = false -> isSpace c = true -> eqc a c = false.
Proof.
  intros Ha Hc. unfold eqc. apply N.eqb_neq. intros ->. congruence.
Qed.

Lemma eqci_space (a : ascii) (c : char) :
  (33 <= ch a < 128)%N -> isSpace c = true -> eqci a c = false.
Proof.
  intros Ha Hc. unfold eqci. apply N.eqb_neq. intros E.
  assert (Hr : (33 <= c < 160)%N).
  { unfold toUpperAscii, isLower in E.
    destruct ((97 <=? c)%N && (c <=? 122)%N) eqn:E1;
      destruct ((97 <=? ch a)%N && (ch a <=? 122)%N) eqn:E2;
      rewrite ?andb_true_iff, ?andb_false_iff, ?N.leb_le, ?N.leb_gt in *; lia. }
  rewrite (isSpace_range c Hr) in Hc. discriminate.
Qed.

Lemma openers_solid (w : window) : In w openers -> solid w.
Proof.
  intros H. unfold openers in H. cbn [In] in H.
  destruct H as [<-|[<-|[<-|[<-|[<-|[]]]]]]; (split; [discriminate|]);
    intros c Hc; unfold rejects, wJsp, wEL, wDEL, wScript, wStyle; cbn [map list_ascii_of_string];
    repeat constructor;
    first [ apply eqc_space; [reflexivity|exact Hc]
          | apply eqci_space; [vm_compute; split; [discriminate|reflexivity]|exact Hc] ].
Qed.

Lemma regionFree_back (t t' : jstring) :
  (forall w, solid w -> occurs w t' = true -> occurs w t = true) ->
  regionFree t = true -> regionFree t' = true.
Proof.
  intros H. unfold regionFree. rewrite !forallb_forall. intros Ht w Hw.
  specialize (Ht w Hw). apply negb_true_iff in Ht. apply negb_true_iff.
  destruct (occurs w t') eqn:E; [|reflexivity].
  rewrite (H w (openers_solid w Hw) E) in Ht. discriminate.
Qed.

(** ** The end of the text, twice *)

Lemma forallb_isSpace_endSpec (s : jstring) :
  forallb isSpace (endSpec s) = forallb isSpace s.
Proof.
  induction s as [|c t IH]; [reflexivity|]. cbn [endSpec].
  destruct (forallb isSpace (c :: t)) eqn:E; [reflexivity|].
  cbn [forallb] in *. now rewrite IH.
Qed.

Lemma endSpec_idem (s : jstring) : endSpec (endSpec s) = endSpec s.
Proof.
  induction s as [|c t IH]; [reflexivity|]. cbn [endSpec].
  destruct (forallb isSpace (c :: t)) eqn:E; [reflexivity|].
  cbn [endSpec]. replace (forallb isSpace (c :: endSpec t)) with false.
  - now rewrite IH.
  - cbn [forallb] in *. now rewrite forallb_isSpace_endSpec.
Qed.

(** ** Formatting twice *)

Lemma formatJsp_regionFree (t : jstring) (options : FormatOptions) :
  regionFree t = true ->
  formatJsp t options = endSpec (capNewlines options (formatHtmlStructure t options)).
Proof.
  intros H. unfold formatJsp. rewrite (extractRegions_regionFree t options H).
  cbn [snd restore fold_left]. apply endWithNewline_spec.
Qed.

Lemma occurs_capNewlines (w : window) (options : FormatOptions) (s : jstring) :
  solid w -> occurs w (capNewlines options s) = true -> occurs w s = true.
Proof.
  intros Hs. rewrite capNewlines_spec. destruct (preserveNewlines options); [|auto].
  now apply occurs_capSpec.
Qed.

Lemma regionFree_formatJsp (t : jstring) (options : FormatOptions) :
  regionFree t = true -> regionFree (formatJsp t options) = true.
Proof.
  intros H. rewrite (formatJsp_regionFree t options H).
  apply (regionFree_back t); [|exact H]. intros w Hs Ho.
  apply (occurs_endSpec w _ Hs) in Ho. apply (occurs_capNewlines w options _ Hs) in Ho.
  now apply (occurs_formatHtmlStructure w t options Hs).
Qed.

Lemma forallb_Forall (P : jstring -> bool) (ls : list jstring) :
  forallb P ls = true <-> Forall (fun l => P l = true) ls.
Proof. rewrite forallb_forall, Forall_forall. reflexivity. Qed.

(** The lines of the text after the three steps are lines that the walk
    leaves as they are. *)
Lemma lines_fixed (x : jstring) (options : FormatOptions) :
  let y := endSpec (capNewlines options (formatHtmlStructure x options)) in
  walkFrom (indentOf options) 0 (splitLines y) = splitLines y.
Proof.
  intros y. subst y. rewrite formatHtmlStructure_walk.
  set (ind := indentOf options). set (E := walkFrom ind 0 (splitLines x)).
  set (y1 := joinLines E). set (y2 := capNewlines options y1).
  assert (HE : splitLines y1 = E).
  { apply splitLines_joinLines.
    - apply walkFrom_not_nil, splitLines_not_nil.
    - apply noLF_walkFrom; [apply noLF_indentOf|apply splitLines_noLF]. }
  assert (HfixE : walkFrom ind 0 E = E)
    by (apply walkFrom_idem, indentOf_space).
  assert (HD12 : DelT (splitLines y1) (splitLines y2)).
  { subst y2. rewrite capNewlines_spec. destruct (preserveNewlines options).
    - apply (lines_capSpec _ (length y1)). lia.
    - apply DelT_refl, splitLines_not_nil. }
  rewrite HE in HD12.
  assert (Hfix2 : walkFrom ind 0 (splitLines y2) = splitLines y2)
    by (apply (walkFrom_Del ind E); [now apply DelT_Del|exact HfixE]).
  assert (Htidy2 : forallb tidy (splitLines y2) = true).
  { apply forallb_Forall. apply (Del_Forall _ E); [now apply DelT_Del|].
    apply forallb_Forall, tidy_walkFrom. }
  assert (HT2 : endTidy y2).
  { rewrite <- (joinLines_splitLines y2). now apply endTidy_joinLines. }
  apply (walkFrom_Del ind (splitLines y2)); [|exact Hfix2].
  apply DelT_Del. now apply lines_endSpec.
Qed.

Lemma formatHtmlStructure_fixed (x : jstring) (options : FormatOptions) :
  let y := endSpec (capNewlines options (formatHtmlStructure x options)) in
  formatHtmlStructure y options = y.
Proof.
  intros y. rewrite (formatHtmlStructure_walk y). subst y.
  rewrite lines_fixed. apply joinLines_splitLines.
Qed.

Lemma capNewlines_fixed (x : jstring) (options : FormatOptions) :
  let y := endSpec (capNewlines options x) in
  capNewlines options y = y.
Proof.
  intros y. subst y. rewrite !capNewlines_spec.
  destruct (preserveNewlines options); [|reflexivity].
  apply capSpec_fixed.
  pose proof (maxRun_endSpec (capSpec (maxPreserveNewlines options) false x)).
  pose proof (maxRun_capSpec (maxPreserveNewlines options) x). lia.
Qed.

(** ** One interpolation in a text without regions *)

Lemma pieces_skip (r : regex) (a : jstring) :
  forall pre rest, pieces r pre (a ++ rest) (length a) = pieces r (rev a ++ pre) rest 0.
Proof.
  induction a as [|c a IH]; intros pre rest; [reflexivity|].
  cbn [app length pieces rev]. rewrite IH. now rewrite <- app_assoc.
Qed.

(** Where no match starts in the first part of a text, the pieces of
    that part are its code units. *)
Lemma pieces_text_prefix (r : regex) (rest : jstring) (a : jstring) :
  forall pre,
    (forall a1 a2, a = a1 ++ a2 -> a2 <> [] ->
                   hasPrefix (req r) (a2 ++ rest) = false) ->
    pieces r pre (a ++ rest) 0 = map Text a ++ pieces r (rev a ++ pre) rest 0.
Proof.
  induction a as [|c a IH]; intros pre H; [reflexivity|].
  cbn [app pieces]. rewrite matchAt_req by (apply (H [] (c :: a)); [reflexivity|discriminate]).
  cbn [map app rev]. rewrite IH.
  - now rewrite <- app_assoc.
  - intros a1 a2 E Hne. apply (H (c :: a1) a2); [now rewrite E|exact Hne].
Qed.

Lemma emit_app_Text (S : Type) (f : S -> jstring -> S * jstring) (st : S) (a : jstring)
    (ps : list piece) :
  emit f st (map Text a ++ ps) = (fst (emit f st ps), a ++ snd (emit f st ps)).
Proof.
  induction a as [|c a IH]; cbn [map app emit].
  - now destruct (emit f st ps).
  - now rewrite IH.
Qed.

Lemma emit_Found_Text (S : Type) (f : S -> jstring -> S * jstring) (st : S) (h : hit)
    (post : jstring) :
  emit f st (Found h :: map Text post)
  = (fst (f st (matched h)), snd (f st (matched h)) ++ post).
Proof. cbn [emit]. destruct (f st (matched h)). now rewrite emit_Text. Qed.


Lemma span_app (pre x y b : jstring) (k : list (nat * jstring)) :
  span (St pre (x ++ y) []) (St b y k) = x.
Proof.
  unfold span. cbn [after]. rewrite length_app.
  replace (length y <=? length x + length y) with true by (symmetry; apply Nat.leb_le; lia).
  replace (length x + length y - length y) with (length x) by lia.
  rewrite firstn_app, firstn_all, Nat.sub_diag. cbn [firstn]. apply app_nil_r.
Qed.


Lemma pieces_hit (r : regex) (pre x rest b : jstring) :
  x <> [] -> matchAt r pre (x ++ rest) = Some (St b rest []) ->
  pieces r pre (x ++ rest) 0
  = Found (mkHit pre (x ++ rest) (St b rest [])) :: pieces r (rev x ++ pre) rest 0.
Proof.
  intros Hne Hm. destruct x as [|c x]; [congruence|].
  assert (Hs : matched (mkHit pre ((c :: x) ++ rest) (St b rest [])) = c :: x)
    by apply span_app.
  change ((c :: x) ++ rest) with (c :: (x ++ rest)) in *.
  cbn [pieces]. rewrite Hm, Hs. cbn [length]. rewrite pieces_skip.
  cbn [rev]. now rewrite <- app_assoc.
Qed.


Lemma occurs_sep_false (c : char) (w : window) (l r : jstring) :
  w <> [] -> rejects c w ->
  occurs w l = false -> occurs w r = false -> occurs w (l ++ c :: r) = false.
Proof.
  intros Hne Hc Hl Hr. destruct (occurs w (l ++ c :: r)) eqn:E; [|reflexivity].
  destruct (occurs_sep c w l r Hne Hc E); congruence.
Qed.

(** No window fits across a part whose first and last code units every
    class of the window refuses. *)
Lemma occurs_around (w : window) (f l : char) (mid pre post : jstring) :
  w <> [] -> rejects f w -> rejects l w ->
  occurs w mid = false -> occurs w pre = false -> occurs w post = false ->
  occurs w (pre ++ (f :: mid ++ [l]) ++ post) = false.
Proof.
  intros Hne Hf Hl Hmid Hpre Hpost.
  change (pre ++ (f :: mid ++ [l]) ++ post) with (pre ++ f :: ((mid ++ [l]) ++ post)).
  apply occurs_sep_false; try assumption.
  rewrite <- app_assoc. cbn [app]. now apply occurs_sep_false.
Qed.

Lemma occurs_first_absent (p : char -> bool) (w : window) (s : jstring) :
  forallb (fun c => negb (p c)) s = true -> occurs (p :: w) s = false.
Proof.
  induction s as [|c s IH]; intros H; [reflexivity|].
  cbn [forallb] in H. apply andb_prop in H as [Hc Hs]. apply negb_true_iff in Hc.
  rewrite occurs_cons. cbn [hasPrefix]. now rewrite Hc, IH.
Qed.



(** ** A key through the walk, and a fragment through the last steps *)

Lemma occurs_app_space (w : window) (x ws : jstring) :
  solid w -> forallb isSpace ws = true ->
  occurs w (x ++ ws) = true -> occurs w x = true.
Proof.
  intros Hs Hws H. destruct ws as [|c ws]; [now rewrite app_nil_r in H|].
  cbn [forallb] in Hws. apply andb_prop in Hws as [Hc Hws].
  destruct (occurs_sep c w x ws (proj1 Hs) (proj2 Hs c Hc) H) as [H'|H']; [exact H'|].
  exfalso. rewrite <- (app_nil_r ws) in H'.
  apply (occurs_space_app w ws [] Hs Hws) in H'.
  now rewrite (occurs_nil w (proj1 Hs)) in H'.
Qed.

Lemma occurs_trim (w : window) (l : jstring) :
  solid w -> occurs w l = true -> occurs w (trim l) = true.
Proof.
  intros Hs H. destruct (trim_decomp l) as (a & b & E & Ha & Hb).
  rewrite E in H. apply (occurs_space_app w a _ Hs Ha) in H.
  now apply (occurs_app_space w _ b Hs Hb) in H.
Qed.

Lemma occurs_outLine_fwd (w : window) (indent : jstring) (level : Z) (l : jstring) :
  solid w -> occurs w l = true -> occurs w (outLine indent level l) = true.
Proof.
  intros Hs H. apply (occurs_trim w l Hs) in H. unfold outLine.
  destruct (trim l) as [|c t] eqn:E.
  - now rewrite (occurs_nil w (proj1 Hs)) in H.
  - now apply occurs_app_r.
Qed.

Lemma occurs_walkFrom_fwd (w : window) (indent : jstring) (lines : list jstring) :
  solid w ->
  forall level l, In l lines -> occurs w l = true ->
    exists l', In l' (walkFrom indent level lines) /\ occurs w l' = true.
Proof.
  intros Hs. induction lines as [|x ls IH]; intros level l Hin Ho; [contradiction|].
  cbn [walkFrom]. destruct Hin as [->|Hin].
  - exists (outLine indent level l). split; [now left|]. now apply occurs_outLine_fwd.
  - destruct (IH (nextLevel level x) l Hin Ho) as (l' & Hl' & Ho').
    exists l'. split; [now right|exact Ho'].
Qed.

Lemma occurs_joinLines_fwd (w : window) (ls : list jstring) (l : jstring) :
  In l ls -> occurs w l = true -> occurs w (joinLines ls) = true.
Proof.
  induction ls as [|x ls IH]; intros Hin Ho; [contradiction|].
  destruct ls as [|x2 ls].
  - destruct Hin as [->|[]]. exact Ho.
  - rewrite joinLines_cons by discriminate. destruct Hin as [->|Hin].
    + now apply occurs_app_l.
    + apply occurs_app_r. rewrite occurs_cons, (IH Hin Ho). apply orb_true_r.
Qed.

Lemma occurs_formatHtmlStructure_fwd (w : window) (text : jstring)
    (options : FormatOptions) :
  solid w -> occurs w text = true -> occurs w (formatHtmlStructure text options) = true.
Proof.
  intros Hs H. rewrite formatHtmlStructure_walk.
  rewrite <- (joinLines_splitLines text) in H.
  apply (occurs_joinLines w _ Hs) in H as (l & Hin & Ho).
  destruct (occurs_walkFrom_fwd w (indentOf options) _ Hs 0%Z l Hin Ho) as (l' & Hl' & Ho').
  now apply (occurs_joinLines_fwd w _ l').
Qed.

Lemma hasPrefix_exact (x s : jstring) : hasPrefix (exact x) s = startsWith s x.
Proof.
  revert s. induction x as [|k x IH]; intros s; [now destruct s|].
  destruct s as [|c s]; [reflexivity|]. cbn [exact map hasPrefix startsWith].
  now rewrite <- IH.
Qed.

Lemma occurs_exact (x a b : jstring) : occurs (exact x) (a ++ x ++ b) = true.
Proof.
  apply occurs_app_r. assert (H : hasPrefix (exact x) (x ++ b) = true).
  { induction x as [|k x IH]; [reflexivity|]. cbn [exact map app hasPrefix].
    now rewrite N.eqb_refl. }
  destruct (x ++ b); cbn [occurs]; now rewrite H.
Qed.

Lemma exact_solid (x : jstring) :
  x <> [] -> forallb (fun k => negb (isSpace k)) x = true -> solid (exact x).
Proof.
  intros Hne H. split; [now destruct x|].
  intros c Hc. unfold rejects, exact. rewrite Forall_map.
  rewrite forallb_forall in H. apply Forall_forall. intros k Hk.
  apply N.eqb_neq. intros ->. apply H in Hk. rewrite Hc in Hk. discriminate.
Qed.

(** [text.replace(key, value)] where the key occurs. *)
Lemma replaceStr_hit (key value : jstring) (s : jstring) :
  forall pre, occurs (exact key) s = true ->
    exists a b h, replaceStr key value pre s
                  = rev pre ++ a ++ getSubstitution 0 h value ++ b.
Proof.
  induction s as [|c s IH]; intros pre H.
  - cbn [occurs] in H. rewrite orb_false_r, hasPrefix_exact in H.
    cbn [replaceStr]. rewrite H. eexists [], _, _. reflexivity.
  - rewrite occurs_cons, hasPrefix_exact in H. cbn [replaceStr].
    destruct (startsWith (c :: s) key); [eexists [], _, _; reflexivity|].
    destruct (IH (c :: pre) H) as (a & b & h & ->). exists (c :: a), b, h.
    cbn [rev app]. now rewrite <- app_assoc.
Qed.


Lemma lead_app_other (u b : jstring) (z : char) :
  isLF z = false -> lead (u ++ z :: b) = lead u.
Proof.
  intros Hz. induction u as [|c u IH]; cbn [app]; rewrite !lead_cons_LF.
  - now rewrite Hz.
  - now rewrite IH.
Qed.

(** The cap leaves a text with short runs alone when a code unit other
    than a line feed follows it. *)
Lemma capSpec_short_app (m : nat) (y b : jstring) (z : char) :
  isLF z = false -> maxRun y <= m + 1 ->
  capSpec m false (y ++ z :: b) = y ++ z :: capSpec m false b.
Proof.
  intros Hz. induction y as [|c y IH]; intros H.
  - cbn [app capSpec]. rewrite lead_cons_LF, Hz.
    now replace (m + 2 <=? 0) with false by (symmetry; apply Nat.leb_gt; lia).
  - cbn [maxRun] in H.
    assert (Hl : lead ((c :: y) ++ z :: b) = lead (c :: y)) by now apply lead_app_other.
    cbn [app capSpec] in *. rewrite Hl.
    replace (m + 2 <=? lead (c :: y)) with false by (symmetry; apply Nat.leb_gt; lia).
    rewrite IH by lia. reflexivity.
Qed.

Lemma capSpec_inRun_other (m : nat) (c : char) (t : jstring) :
  isLF c = false -> capSpec m true (c :: t) = capSpec m false (c :: t).
Proof.
  intros Hc. rewrite capSpec_inRun. cbn [dropW]. now rewrite Hc.
Qed.

Lemma capSpec_keeps (m : nat) (x b : jstring) :
  capSpec m false (x ++ b) = x ++ capSpec m false b ->
  capSpec m true (x ++ b) = x ++ capSpec m false b ->
  forall a inRun, exists a' b', capSpec m inRun (a ++ x ++ b) = a' ++ x ++ b'.
Proof.
  intros H1 H2. induction a as [|c a IH]; intros inRun.
  - exists [], (capSpec m false b). destruct inRun; cbn [app]; assumption.
  - cbn [app capSpec]. destruct inRun.
    + destruct (isLF c).
      * apply IH.
      * destruct (IH false) as (a' & b' & ->). now exists (c :: a'), b'.
    + destruct (m + 2 <=? lead (c :: a ++ x ++ b)).
      * destruct (IH true) as (a' & b' & ->).
        exists (repeatStr [LF] (m + 1) ++ a'), b'. now rewrite <- app_assoc.
      * destruct (IH false) as (a' & b' & ->). now exists (c :: a'), b'.
Qed.


Lemma endSpec_keeps (u b : jstring) (z : char) :
  isSpace z = false -> endSpec (u ++ z :: b) = u ++ z :: endSpec b.
Proof.
  intros Hz. induction u as [|c u IH]; cbn [app endSpec forallb].
  - now rewrite Hz.
  - rewrite forallb_app. cbn [forallb]. rewrite Hz, andb_false_r, andb_false_r.
    now rewrite IH.
Qed.

(** ** The lines of a reformatted body *)

Lemma fold_left_invariant_in (A B : Type) (f : A -> B -> A) (P : A -> Prop)
    (Q : B -> Prop) :
  (forall a x, Q x -> P a -> P (f a x)) ->
  forall l a, Forall Q l -> P a -> P (fold_left f l a).
Proof.
  intros Hstep l; induction l as [|x l IH]; intros a Hl Ha; [exact Ha|].
  inversion Hl; subst. cbn [fold_left]. apply IH; auto.
Qed.

Lemma javaStep_lines (indent : jstring) (st : Z * list jstring) (rawLine : jstring) :
  noLF indent = true -> noLF rawLine = true ->
  forallb noLF (snd st) = true /\ snd st <> [] \/ snd st = [] ->
  forallb noLF (snd (javaStep indent st rawLine)) = true
  /\ snd (javaStep indent st rawLine) <> [].
Proof.
  intros Hi Hr Hst. destruct st as [level result]. unfold javaStep. cbn [snd] in *.
  assert (Hres : forallb noLF result = true) by (destruct Hst as [[H _]| ->]; auto).
  pose proof (noLF_trim rawLine Hr) as Ht.
  destruct (trim rawLine) as [|c t]; cbn [snd].
  - rewrite forallb_app, Hres. split; [reflexivity|]. now destruct result.
  - destruct (endsWith (c :: t) (js "{")); cbn [snd];
      (split; [|now destruct result]); rewrite forallb_app, Hres; cbn [forallb];
      rewrite noLF_app, Ht, noLF_repeatStr by exact Hi; reflexivity.
Qed.

Lemma javaIndent_lines (indent : jstring) (lines : list jstring) :
  noLF indent = true -> forallb noLF lines = true -> lines <> [] ->
  forallb noLF (snd (javaIndent indent lines)) = true
  /\ snd (javaIndent indent lines) <> [].
Proof.
  intros Hi Hl Hne. destruct lines as [|l ls]; [congruence|].
  cbn [forallb] in Hl. apply andb_prop in Hl as [Hl Hls].
  unfold javaIndent. cbn [fold_left].
  apply (fold_left_invariant_in _ _ (javaStep indent)
           (fun st => forallb noLF (snd st) = true /\ snd st <> [])
           (fun l => noLF l = true)).
  - intros a x Hx Ha. apply javaStep_lines; auto.
  - now apply forallb_Forall.
  - apply javaStep_lines; auto.
Qed.

Lemma occurs_single (p : char -> bool) (s : jstring) : occurs [p] s = existsb p s.
Proof.
  induction s as [|c s IH]; [reflexivity|].
  rewrite occurs_cons. cbn [hasPrefix existsb]. now rewrite andb_true_r, IH.
Qed.

(** Without a quotation mark in the code no string literal is set
    aside, and the text that [formatJavaCode] returns is the lines of
    its loop, joined. *)
Lemma formatJavaCode_no_literal (code indent : jstring) :
  includesChar code DQUOTE = false ->
  exists lines, lines <> [] /\ forallb noLF lines = true
                /\ formatJavaCode code indent = joinLines (snd (javaIndent indent lines)).
Proof.
  intros H. unfold formatJavaCode.
  rewrite (replaceAllWith_no_hit store reStringLiteral [N.eqb DQUOTE]);
    [|intros u Hu; exact Hu|rewrite occurs_single; exact H].
  cbn [snd restore fold_left]. eexists. split; [apply splitLines_not_nil|].
  split; [apply splitLines_noLF|reflexivity].
Qed.

(** ** The model on the scenarios of the specification *)

(** Scenario B: a block-scoped custom tag around a void element and a
    line of text. *)
Lemma scenarioB_nesting :
  formatJsp (jsq "<c:if test='x'>|<br>|text|</c:if>") defaultOptions
  = jsq "<c:if test='x'>|    <br>|    text|</c:if>".
Proof. vm_compute; reflexivity. Qed.

(** Scenario D: a scriptlet with two statements and a block. *)
Lemma scenarioD_multi_statement :
  formatJsp (js "<% int x=1; if(x>0){ out.println(x); } %>") defaultOptions
  = joinLines [js "<%"; js "    int x=1;"; js "    if(x>0){";
               js "        out.println(x);"; js "    }"; js ""; js "%>"].
Proof. vm_compute; reflexivity. Qed.

(** The lookahead and the lookbehind of [formatJavaCode]: a brace before
    [else] is not followed by a break, a brace after a break gets no
    second one, and a string literal and the header of a [for] statement
    stay whole. *)
Lemma javaCode_layout :
  formatJavaCode (js "if(x){a;} else {b;}") (js "    ")
  = joinLines [js "    if(x){"; js "        a;"; js "    } else {"; js "        b;";
               js "    }"; js ""]
  /\ formatJavaCode (jsq "String s = 'a;b{c}'; for (int i=0;i<3;i++) { s += 'x'; }")
                    (js "    ")
     = joinLines [jsq "    String s = 'a;b{c}';"; js "    for (int i=0; i<3; i++) {";
                  jsq "        s += 'x';"; js "    }"; js ""].
Proof. split; vm_compute; reflexivity. Qed.

(** ** A match is a part of the subject *)

Lemma follows_refl (fwd : bool) (s : mstate) : follows fwd s s.
Proof. destruct fwd; exists []; split; reflexivity. Qed.

Lemma follows_trans (fwd : bool) (s m e : mstate) :
  follows fwd s m -> follows fwd m e -> follows fwd s e.
Proof.
  destruct fwd; intros (w1 & H1 & H2) (w2 & H3 & H4); exists (w1 ++ w2);
    rewrite H1, H3, H4, H2, rev_app_distr, <- !app_assoc; split; reflexivity.
Qed.

Lemma iter_follows (fwd : bool) (step : mstate -> list mstate) (greedy : bool) :
  (forall s e, In e (step s) -> follows fwd s e) ->
  forall fuel s e, In e (iter step greedy fuel s) -> follows fwd s e.
Proof.
  intros Hstep fuel; induction fuel as [|n IH]; intros s e He; cbn [iter] in He.
  - destruct He as [<- | []]. apply follows_refl.
  - assert (Hmore : In e (flat_map (iter step greedy n) (filter (progress s) (step s)))
                    -> follows fwd s e).
    { intros H. apply in_flat_map in H as (m & Hm & Hi).
      apply filter_In in Hm as [Hm _].
      apply (follows_trans fwd s m e); [apply Hstep; exact Hm|apply IH; exact Hi]. }
    destruct greedy.
    + apply in_app_or in He as [He | [<- | []]]; [auto|apply follows_refl].
    + destruct He as [<- | He]; [apply follows_refl|auto].
Qed.

Lemma ends_follows (r : regex) :
  forall fwd s e, In e (ends fwd r s) -> follows fwd s e.
Proof.
  induction r as [|p|a IHa b IHb|a IHa b IHb|g a IHa|n a IHa| | |a IHa|a IHa];
    intros fwd s e He; cbn [ends] in He.
  - destruct He as [<- | []]. apply follows_refl.
  - destruct fwd.
    + destruct (after s) as [|c t] eqn:E; [destruct He|].
      destruct (p c); [|destruct He]. destruct He as [<- | []].
      exists [c]. cbn. rewrite E. split; reflexivity.
    + destruct (before s) as [|c t] eqn:E; [destruct He|].
      destruct (p c); [|destruct He]. destruct He as [<- | []].
      exists [c]. cbn. rewrite E. split; reflexivity.
  - destruct fwd; apply in_flat_map in He as (m & Hm & Hi).
    + apply (follows_trans true s m e); [apply IHa|apply IHb]; assumption.
    + apply (follows_trans false s m e); [apply IHb|apply IHa]; assumption.
  - apply in_app_or in He as [He | He]; [apply IHa|apply IHb]; assumption.
  - apply (iter_follows fwd (ends fwd a) g (IHa fwd)) in He. exact He.
  - apply in_map_iff in He as (m & <- & Hm). apply IHa in Hm.
    destruct fwd; destruct Hm as (w & H1 & H2); exists w; cbn; split; assumption.
  - destruct (before s); [|destruct He]. destruct He as [<- | []]. apply follows_refl.
  - destruct (after s); [|destruct He]. destruct He as [<- | []]. apply follows_refl.
  - destruct (ends true a s); [|destruct He]. destruct He as [<- | []]. apply follows_refl.
  - destruct (ends false a s); [|destruct He]. destruct He as [<- | []]. apply follows_refl.
Qed.

Lemma matchAt_follows (r : regex) (pre suf : jstring) (e : mstate) :
  matchAt r pre suf = Some e ->
  exists w, suf = w ++ after e /\ span (St pre suf []) e = w.
Proof.
  unfold matchAt. destruct (ends true r (St pre suf [])) as [|e' l] eqn:E; [discriminate|].
  intros [= <-].
  destruct (ends_follows r true (St pre suf []) e') as (w & H1 & H2);
    [rewrite E; left; reflexivity|].
  cbn [after before] in *. exists w. split; [exact H1|].
  destruct e' as [b a k]. cbn [after] in *. subst suf. apply span_app.
Qed.

(** The pieces of a subject, put end to end, are the subject. *)
Lemma pieces_concat (r : regex) (suf : jstring) :
  forall pre skip, flat_map pieceText (pieces r pre suf skip) = skipn skip suf.
Proof.
  induction suf as [|c t IH]; intros pre skip.
  - destruct skip; cbn [pieces]; [|reflexivity].
    destruct (matchAt r pre []) as [e|] eqn:E; [|reflexivity].
    apply matchAt_follows in E as (w & H1 & H2).
    cbn [flat_map pieceText]. unfold mkHit. cbn [matched]. rewrite H2.
    destruct w; [reflexivity|discriminate].
  - destruct skip as [|k]; cbn [pieces].
    + destruct (matchAt r pre (c :: t)) as [e|] eqn:E.
      * apply matchAt_follows in E as (w & H1 & H2).
        cbn [flat_map pieceText]. unfold mkHit at 1. cbn [matched].
        unfold mkHit. cbn [matched]. rewrite H2.
        destruct w as [|c' w']; cbn [length].
        -- cbn [flat_map pieceText app]. rewrite IH. reflexivity.
        -- cbn [app] in H1. injection H1 as <- ->. rewrite IH.
           rewrite skipn_app, skipn_all, Nat.sub_diag. reflexivity.
      * cbn [flat_map pieceText app]. rewrite IH. reflexivity.
    + rewrite IH. reflexivity.
Qed.

(** ** White space and what is not white space *)

Lemma ink_app (a b : jstring) : ink (a ++ b) = ink a ++ ink b.
Proof. apply filter_app. Qed.

Lemma ink_space (ws : jstring) : forallb isSpace ws = true -> ink ws = [].
Proof.
  induction ws as [|c t IH]; [reflexivity|]. cbn [forallb ink filter].
  intros H. apply andb_prop in H as [-> H]. cbn [negb]. apply IH, H.
Qed.

Lemma ink_trim (l : jstring) : ink (trim l) = ink l.
Proof.
  destruct (trim_decomp l) as (a & b & H & Ha & Hb).
  rewrite H at 2. rewrite !ink_app, (ink_space a Ha), (ink_space b Hb), app_nil_r.
  reflexivity.
Qed.

Lemma ink_joinLines (ls : list jstring) : ink (joinLines ls) = flat_map ink ls.
Proof.
  induction ls as [|l ls IH]; [reflexivity|].
  destruct ls as [|l' ls'].
  - cbn. now rewrite app_nil_r.
  - rewrite joinLines_cons by discriminate. cbn [flat_map].
    rewrite ink_app. change (LF :: joinLines (l' :: ls')) with ([LF] ++ joinLines (l' :: ls')).
    rewrite ink_app, IH. reflexivity.
Qed.

Lemma ink_repeat_LF (n : nat) : ink (repeatStr [LF] n) = [].
Proof. apply ink_space. apply repeatStr_space. reflexivity. Qed.

Lemma ink_capSpec (m : nat) (s : jstring) :
  forall inRun, ink (capSpec m inRun s) = ink s.
Proof.
  induction s as [|c t IH]; intros inRun; [reflexivity|].
  cbn [capSpec]. destruct inRun.
  - destruct (isLF c) eqn:E.
    + rewrite IH. unfold isLF in E. apply N.eqb_eq in E. subst c. reflexivity.
    + cbn [ink filter]. fold (ink (capSpec m false t)). fold (ink t). now rewrite IH.
  - destruct (m + 2 <=? lead (c :: t)) eqn:E.
    + rewrite ink_app, ink_repeat_LF, IH. cbn [app].
      apply Nat.leb_le in E. rewrite lead_cons_LF in E.
      destruct (isLF c) eqn:Ec; [|lia].
      unfold isLF in Ec. apply N.eqb_eq in Ec. subst c. reflexivity.
    + cbn [ink filter]. fold (ink (capSpec m false t)). fold (ink t). now rewrite IH.
Qed.

Lemma ink_endSpec (s : jstring) : ink (endSpec s) = ink s.
Proof.
  induction s as [|c t IH]; [reflexivity|].
  cbn [endSpec]. destruct (forallb isSpace (c :: t)) eqn:E.
  - now rewrite (ink_space (c :: t) E).
  - cbn [ink filter]. fold (ink (endSpec t)). fold (ink t). now rewrite IH.
Qed.

Lemma ink_outLine (indent : jstring) (level : Z) (l : jstring) :
  forallb isSpace indent = true -> ink (outLine indent level l) = ink l.
Proof.
  intros Hi. rewrite <- (ink_trim l). unfold outLine.
  destruct (trim l) as [|c t]; [reflexivity|].
  rewrite ink_app, (ink_space _ (repeatStr_space indent _ Hi)). reflexivity.
Qed.

Lemma ink_walkFrom (indent : jstring) (lines : list jstring) :
  forallb isSpace indent = true ->
  forall level, flat_map ink (walkFrom indent level lines) = flat_map ink lines.
Proof.
  intros Hi. induction lines as [|l ls IH]; intros level; [reflexivity|].
  cbn [walkFrom flat_map]. now rewrite ink_outLine, IH.
Qed.

Lemma ink_formatHtmlStructure (text : jstring) (options : FormatOptions) :
  ink (formatHtmlStructure text options) = ink text.
Proof.
  rewrite formatHtmlStructure_walk, ink_joinLines,
    (ink_walkFrom _ _ (indentOf_space options)), <- ink_joinLines, joinLines_splitLines.
  reflexivity.
Qed.

(** ** Substitutions that change white space only *)

Lemma pieces_Found (r : regex) (h : hit) (suf : jstring) :
  forall pre skip, In (Found h) (pieces r pre suf skip) ->
    exists pre' suf' e, matchAt r pre' suf' = Some e /\ h = mkHit pre' suf' e.
Proof.
  induction suf as [|c t IH]; intros pre skip H.
  - destruct skip; cbn [pieces] in H; [|destruct H].
    destruct (matchAt r pre []) as [e|] eqn:E; [|destruct H].
    destruct H as [[= <-] | []]. now exists pre, [], e.
  - destruct skip as [|k]; cbn [pieces] in H; [|apply IH in H; exact H].
    destruct (matchAt r pre (c :: t)) as [e|] eqn:E.
    + destruct H as [[= <-] | H]; [now exists pre, (c :: t), e|].
      destruct (length (matched (mkHit pre (c :: t) e))).
      * destruct H as [H | H]; [discriminate|]. apply IH in H; exact H.
      * apply IH in H; exact H.
    + destruct H as [H | H]; [discriminate|]. apply IH in H; exact H.
Qed.

Lemma flat_map_ink_ext (f g : piece -> jstring) (ps : list piece) :
  (forall p, In p ps -> ink (f p) = ink (g p)) ->
  ink (flat_map f ps) = ink (flat_map g ps).
Proof.
  induction ps as [|p ps IH]; intros H; [reflexivity|].
  cbn [flat_map]. rewrite !ink_app, (H p (or_introl eq_refl)), IH; [reflexivity|].
  intros q Hq. apply H. right; exact Hq.
Qed.

(** A substitution by a template without [$] that has the ink of every
    match keeps the ink of the subject. *)
Lemma ink_replaceAll (r : regex) (template s : jstring) :
  forallb (fun c => negb (eqc "$" c)) template = true ->
  (forall pre suf e, matchAt r pre suf = Some e ->
                     ink (span (St pre suf []) e) = ink template) ->
  ink (replaceAll r 0 template s) = ink s.
Proof.
  intros Ht Hm. unfold replaceAll.
  rewrite <- (pieces_concat r s [] 0) at 2. cbn [skipn].
  apply flat_map_ink_ext. intros [c|h] Hp; [reflexivity|].
  cbn [pieceText]. rewrite (getSubstitution_plain 0 h template Ht).
  apply pieces_Found in Hp as (pre' & suf' & e & He & ->).
  symmetry. apply (Hm pre' suf' e He).
Qed.

Lemma ink_emit (S : Type) (f : S -> jstring -> S * jstring) (ps : list piece) :
  (forall st m, ink (snd (f st m)) = ink m) ->
  forall st, ink (snd (emit f st ps)) = ink (flat_map pieceText ps).
Proof.
  intros Hf. induction ps as [|[c|h] ps IH]; intros st; [reflexivity| |].
  - cbn [emit flat_map pieceText]. specialize (IH st).
    destruct (emit f st ps) as [st' out]. cbn [snd] in *. cbn [app ink filter].
    fold (ink out). now rewrite IH.
  - cbn [emit flat_map pieceText]. specialize (Hf st (matched h)).
    destruct (f st (matched h)) as [st1 txt]. specialize (IH st1).
    destruct (emit f st1 ps) as [st2 out]. cbn [snd] in *.
    now rewrite !ink_app, Hf, IH.
Qed.

Lemma ink_replaceAllWith (S : Type) (r : regex) (f : S -> jstring -> S * jstring)
    (st : S) (s : jstring) :
  (forall st m, ink (snd (f st m)) = ink m) ->
  ink (snd (replaceAllWith r f st s)) = ink s.
Proof.
  intros Hf. unfold replaceAllWith. rewrite (ink_emit S f _ Hf).
  now rewrite pieces_concat.
Qed.

(** The matches of a pattern that is one class between assertions. *)
Lemma span_Cls_NotAhead (p : char -> bool) (a : regex) (pre suf : jstring) (e : mstate) :
  matchAt (Cat (Cls p) (NotAhead a)) pre suf = Some e ->
  exists c, p c = true /\ span (St pre suf []) e = [c].
Proof.
  unfold matchAt. cbn [ends after before caps].
  destruct suf as [|c t]; [discriminate|]. destruct (p c) eqn:Ep; [|discriminate].
  cbn [flat_map]. rewrite app_nil_r. cbn [ends].
  destruct (ends true a (St (c :: pre) t [])); [|discriminate].
  intros [= <-]. exists c. split; [exact Ep|apply span_one].
Qed.

Lemma span_NotBehind_Cls (p : char -> bool) (a : regex) (pre suf : jstring) (e : mstate) :
  matchAt (Cat (NotBehind a) (Cls p)) pre suf = Some e ->
  exists c, p c = true /\ span (St pre suf []) e = [c].
Proof.
  unfold matchAt. cbn [ends].
  destruct (ends false a (St pre suf [])); [|discriminate].
  cbn [flat_map]. rewrite app_nil_r. cbn [ends after before caps].
  destruct suf as [|c t]; [discriminate|]. destruct (p c) eqn:Ep; [|discriminate].
  intros [= <-]. exists c. split; [exact Ep|apply span_one].
Qed.

Lemma span_Cls_Cls (p q : char -> bool) (pre suf : jstring) (e : mstate) :
  matchAt (Cat (Cls p) (Cls q)) pre suf = Some e ->
  exists c d, p c = true /\ q d = true /\ span (St pre suf []) e = [c; d].
Proof.
  unfold matchAt. cbn [ends after before caps].
  destruct suf as [|c t]; [discriminate|]. destruct (p c) eqn:Ep; [|discriminate].
  cbn [flat_map]. rewrite app_nil_r. cbn [ends after before caps].
  destruct t as [|d t]; [discriminate|]. destruct (q d) eqn:Eq; [|discriminate].
  intros [= <-]. exists c, d. split; [exact Ep|]. split; [exact Eq|].
  apply (span_app pre [c; d] t).
Qed.

Lemma eqc_eq (a : ascii) (c : char) : eqc a c = true -> c = ch a.
Proof. unfold eqc. apply N.eqb_eq. Qed.

Lemma ink_javaBreaks (code : jstring) : ink (javaBreaks code) = ink code.
Proof.
  unfold javaBreaks.
  rewrite ink_replaceAllWith.
  2:{ intros _ m. cbn [snd]. apply ink_replaceAll; [reflexivity|].
      intros pre suf e He. apply span_Cls_Cls in He as (c & d & Hc & Hd & ->).
      apply eqc_eq in Hc. apply N.eqb_eq in Hd. subst. reflexivity. }
  rewrite ink_replaceAll; [|reflexivity|].
  2:{ intros pre suf e He. apply span_Cls_NotAhead in He as (c & Hc & ->).
      apply eqc_eq in Hc. subst. reflexivity. }
  rewrite ink_replaceAll; [|reflexivity|].
  2:{ intros pre suf e He. apply span_NotBehind_Cls in He as (c & Hc & ->).
      apply eqc_eq in Hc. subst. reflexivity. }
  rewrite ink_replaceAll; [|reflexivity|].
  2:{ intros pre suf e He. apply span_Cls_NotAhead in He as (c & Hc & ->).
      apply eqc_eq in Hc. subst. reflexivity. }
  rewrite ink_replaceAll; [|reflexivity|].
  2:{ intros pre suf e He. apply span_Cls_NotAhead in He as (c & Hc & ->).
      apply eqc_eq in Hc. subst. reflexivity. }
  rewrite ink_replaceAll; [|reflexivity|].
  2:{ intros pre suf e He. unfold reCR, ChrN, matchAt in He. cbn [ends after before caps] in He.
      destruct suf as [|c t]; [discriminate|]. destruct (N.eqb CR c) eqn:Ec; [|discriminate].
      injection He as <-. rewrite span_one. apply N.eqb_eq in Ec. subst. reflexivity. }
  rewrite ink_replaceAll; [reflexivity|reflexivity|].
  intros pre suf e He. apply span_Cls_Cls in He as (c & d & Hc & Hd & ->).
  apply N.eqb_eq in Hc. apply N.eqb_eq in Hd. subst. reflexivity.
Qed.

Lemma ink_javaStep (indent : jstring) (st : Z * list jstring) (rawLine : jstring) :
  forallb isSpace indent = true ->
  flat_map ink (snd (javaStep indent st rawLine)) = flat_map ink (snd st) ++ ink rawLine.
Proof.
  intros Hi. destruct st as [level result]. unfold javaStep. cbn [snd].
  rewrite <- (ink_trim rawLine).
  destruct (trim rawLine) as [|c t]; cbn [snd].
  - rewrite flat_map_app. reflexivity.
  - destruct (endsWith (c :: t) (js "{")); cbn [snd]; rewrite flat_map_app;
      cbn [flat_map]; rewrite app_nil_r, ink_app,
        (ink_space _ (repeatStr_space indent _ Hi)); reflexivity.
Qed.

Lemma ink_javaIndent (indent : jstring) (lines : list jstring) :
  forallb isSpace indent = true ->
  flat_map ink (snd (javaIndent indent lines)) = flat_map ink lines.
Proof.
  intros Hi. unfold javaIndent.
  change (flat_map ink lines) with (flat_map ink (snd (1%Z, @nil jstring)) ++ flat_map ink lines).
  generalize (1%Z, @nil jstring). induction lines as [|l ls IH]; intros st.
  - cbn [fold_left flat_map]. now rewrite app_nil_r.
  - cbn [fold_left flat_map]. rewrite IH, (ink_javaStep indent st l Hi), <- app_assoc.
    reflexivity.
Qed.

Lemma formatJavaCode_breaks (code indent : jstring) :
  includesChar code DQUOTE = false ->
  formatJavaCode code indent
  = joinLines (snd (javaIndent indent (splitLines (javaBreaks code)))).
Proof.
  intros H. unfold formatJavaCode.
  rewrite (replaceAllWith_no_hit store reStringLiteral [N.eqb DQUOTE]);
    [|intros u Hu; exact Hu|rewrite occurs_single; exact H].
  reflexivity.
Qed.

Lemma ink_formatJavaCode (code indent : jstring) :
  includesChar code DQUOTE = false -> forallb isSpace indent = true ->
  ink (formatJavaCode code indent) = ink code.
Proof.
  intros Hq Hi. rewrite (formatJavaCode_breaks code indent Hq).
  rewrite ink_joinLines, (ink_javaIndent indent _ Hi), <- ink_joinLines,
    joinLines_splitLines. apply ink_javaBreaks.
Qed.

(** ** Slices *)

Lemma slice_mid (a x b : jstring) :
  b <> [] ->
  slice (a ++ x ++ b) (Z.of_nat (length a)) (- Z.of_nat (length b)) = x.
Proof.
  intros Hb. unfold slice. rewrite !length_app.
  assert (0 < length b) by (destruct b; [congruence|cbn; lia]).
  replace (Z.of_nat (length a) <? 0)%Z with false by (symmetry; apply Z.ltb_ge; lia).
  replace (- Z.of_nat (length b) <? 0)%Z with true by (symmetry; apply Z.ltb_lt; lia).
  replace (Z.to_nat (Z.min (Z.of_nat (length a))
                        (Z.of_nat (length a + (length x + length b)))))
    with (length a) by lia.
  replace (Z.to_nat
             (Z.max (Z.of_nat (length a + (length x + length b)) + - Z.of_nat (length b)) 0
              - Z.min (Z.of_nat (length a)) (Z.of_nat (length a + (length x + length b)))))
    with (length x) by lia.
  rewrite skipn_app, skipn_all, Nat.sub_diag. cbn [skipn app].
  rewrite firstn_app, firstn_all, Nat.sub_diag. cbn [firstn]. apply app_nil_r.
Qed.

Lemma includesChar_app (a b : jstring) (c : char) :
  includesChar (a ++ b) c = includesChar a c || includesChar b c.
Proof. apply existsb_app. Qed.

Lemma includesChar_trim (l : jstring) (c : char) :
  includesChar l c = false -> includesChar (trim l) c = false.
Proof.
  destruct (trim_decomp l) as (a & b & H & _). rewrite H at 1.
  rewrite !includesChar_app. intros E.
  apply orb_false_elim in E as [_ E]. apply orb_false_elim in E as [E _]. exact E.
Qed.

Lemma startsWith_nil (s : jstring) : startsWith s [] = true.
Proof. now destruct s. Qed.

Lemma startsWith_app (p s : jstring) : startsWith (p ++ s) p = true.
Proof.
  induction p as [|x p IH]; [apply startsWith_nil|].
  cbn [app startsWith]. now rewrite N.eqb_refl, IH.
Qed.

(** A block in its delimiters: what [formatJspBlock] takes for the
    prefix and the content. *)
Lemma formatJspBlock_parts (inner : jstring) :
  exists prefix body,
    js "<%" ++ inner ++ js "%>" = prefix ++ body ++ js "%>"
    /\ forall options,
         formatJspBlock (js "<%" ++ inner ++ js "%>") options
         = if negb (includesChar (trim body) LF) && (length (trim body) <? 60)
              && negb (includesChar (trim body) (ch "{"))
              && (length (matchAll (Chr ";") (trim body)) <=? 1)
           then prefix ++ js " " ++ trim body ++ js " %>"
           else prefix ++ [LF] ++ formatJavaCode (trim body) (indentOf options)
                       ++ [LF] ++ js "%>".
Proof.
  destruct inner as [|c t].
  - exists (js "<%"), []. split; [reflexivity|]. intros options. reflexivity.
  - destruct (N.eqb_spec (ch "!") c) as [<- | Hc].
    + exists (js "<%!"), t. split; [reflexivity|]. intros options.
      change (js "<%" ++ (ch "!" :: t) ++ js "%>") with (js "<%!" ++ t ++ js "%>").
      unfold formatJspBlock. rewrite startsWith_app. cbv iota.
      change (-2)%Z with (- Z.of_nat (length (js "%>")))%Z.
      rewrite (slice_mid (js "<%!") t (js "%>")) by discriminate. reflexivity.
    + exists (js "<%"), (c :: t). split; [reflexivity|]. intros options.
      unfold formatJspBlock.
      replace (startsWith (js "<%" ++ (c :: t) ++ js "%>") (js "<%!")) with false.
      * cbv iota. change (-2)%Z with (- Z.of_nat (length (js "%>")))%Z.
        rewrite (slice_mid (js "<%") (c :: t) (js "%>")) by discriminate.
        reflexivity.
      * change (js "<%" ++ (c :: t) ++ js "%>")
          with (ch "<" :: ch "%" :: c :: (t ++ js "%>")).
        change (js "<%!") with [ch "<"; ch "%"; ch "!"]. cbn [startsWith].
        apply N.eqb_neq in Hc. now rewrite !N.eqb_refl, Hc.
Qed.

(** ** The walk of [formatHtmlStructure], once more *)

Lemma splitLines_formatHtmlStructure (text : jstring) (options : FormatOptions) :
  splitLines (formatHtmlStructure text options)
  = walkFrom (indentOf options) 0 (splitLines text).
Proof.
  rewrite formatHtmlStructure_walk. apply splitLines_joinLines.
  - apply walkFrom_not_nil, splitLines_not_nil.
  - apply noLF_walkFrom; [apply noLF_indentOf|apply splitLines_noLF].
Qed.

Lemma trim_walkFrom (indent : jstring) (lines : list jstring) :
  forallb isSpace indent = true ->
  forall level, map trim (walkFrom indent level lines) = map trim lines.
Proof.
  intros Hi. induction lines as [|l ls IH]; intros level; [reflexivity|].
  cbn [walkFrom map]. now rewrite (trim_outLine indent level l Hi), IH.
Qed.

(** ** Trimming, from the other end *)

Lemma trim_unique (a t b : jstring) :
  forallb isSpace a = true -> forallb isSpace b = true -> trimmed t ->
  trim (a ++ t ++ b) = t.
Proof.
  intros Ha Hb [H1 H2]. rewrite (trim_space_app a _ Ha). unfold trim.
  destruct t as [|c t'].
  - cbn [app]. replace (dropSpace b) with (@nil char); [reflexivity|].
    symmetry. rewrite <- (app_nil_r b). rewrite (dropSpace_app b [] Hb). reflexivity.
  - assert (Hc : isSpace c = false).
    { cbn [dropSpace] in H1. destruct (isSpace c) eqn:E; [|reflexivity].
      exfalso. destruct (dropSpace_decomp t') as (ws & Hws & _).
      rewrite H1 in Hws. apply (f_equal (@length char)) in Hws.
      rewrite length_app in Hws. cbn [length] in Hws. lia. }
    cbn [app dropSpace]. rewrite Hc.
    change (c :: t' ++ b) with ((c :: t') ++ b).
    rewrite rev_app_distr, dropSpace_app, H2, rev_involutive; [reflexivity|].
    rewrite forallb_forall in *. intros x Hx. apply Hb. now apply in_rev.
Qed.

Lemma trim_pad (t : jstring) :
  trimmed t -> trim (js " " ++ t ++ js " ") = t.
Proof. intros H. now apply trim_unique. Qed.

Lemma slice_comment (content : jstring) :
  slice (js "<%-- " ++ content ++ js " --%>") 4 (-4) = js " " ++ content ++ js " ".
Proof.
  replace (js "<%-- " ++ content ++ js " --%>")
    with (js "<%--" ++ (js " " ++ content ++ js " ") ++ js "--%>")
    by (rewrite <- !app_assoc; reflexivity).
  apply (slice_mid (js "<%--") (js " " ++ content ++ js " ") (js "--%>")). discriminate.
Qed.

Lemma formatJspBlock_one_line (prefix content : jstring) (options : FormatOptions) :
  prefix = js "<%!" \/ prefix = js "<%" -> trimmed content ->
  negb (includesChar content LF) && (length content <? 60)
  && negb (includesChar content (ch "{"))
  && (length (matchAll (Chr ";") content) <=? 1) = true ->
  formatJspBlock (prefix ++ js " " ++ content ++ js " %>") options
  = prefix ++ js " " ++ content ++ js " %>".
Proof.
  intros Hp Ht E. unfold formatJspBlock.
  assert (Hs : (if startsWith (prefix ++ js " " ++ content ++ js " %>") (js "<%!")
                then js "<%!" else js "<%") = prefix).
  { destruct Hp as [-> | ->]; [now rewrite startsWith_app|reflexivity]. }
  rewrite Hs.
  replace (prefix ++ js " " ++ content ++ js " %>")
    with (prefix ++ (js " " ++ content ++ js " ") ++ js "%>")
    by (rewrite <- !app_assoc; reflexivity).
  change (-2)%Z with (- Z.of_nat (length (js "%>")))%Z.
  rewrite (slice_mid prefix (js " " ++ content ++ js " ") (js "%>")) by discriminate.
  rewrite (trim_pad content Ht), E. now rewrite <- !app_assoc.
Qed.

(** ** The end of the formatted text *)

Lemma endSpec_tail (s : jstring) :
  forall a u, endSpec s = a ++ u -> forallb isSpace u = true -> u = [] \/ u = [LF].
Proof.
  induction s as [|c t IH]; intros a u H Hu.
  - cbn in H. symmetry in H. apply app_eq_nil in H as [_ ->]. now left.
  - cbn [endSpec] in H. destruct (forallb isSpace (c :: t)) eqn:E.
    + destruct a as [|x a'].
      * cbn in H. right. now symmetry.
      * cbn in H. injection H as _ H. symmetry in H. apply app_eq_nil in H as [_ ->].
        now left.
    + destruct a as [|x a'].
      * cbn [app] in H. subst u. cbn [forallb] in Hu.
        rewrite forallb_isSpace_endSpec in Hu. cbn [forallb] in E. congruence.
      * cbn [app] in H. injection H as _ H. exact (IH a' u H Hu).
Qed.

(** ** Texts of white space only *)

Lemma occurs_all_space (w : window) (t : jstring) :
  solid w -> forallb isSpace t = true -> occurs w t = false.
Proof.
  intros Hw Ht. destruct (occurs w t) eqn:E; [|reflexivity].
  rewrite <- (app_nil_r t) in E. apply (occurs_space_app w t [] Hw Ht) in E.
  rewrite occurs_nil in E; [discriminate|]. apply Hw.
Qed.

Lemma regionFree_all_space (t : jstring) :
  forallb isSpace t = true -> regionFree t = true.
Proof.
  intros Ht. unfold regionFree. apply forallb_forall. intros w Hw.
  now rewrite (occurs_all_space w t (openers_solid w Hw) Ht).
Qed.

Lemma ink_nil_space (s : jstring) : ink s = [] -> forallb isSpace s = true.
Proof.
  induction s as [|c t IH]; [reflexivity|]. cbn [ink filter forallb].
  destruct (isSpace c); cbn [negb]; [exact IH|discriminate].
Qed.

Lemma endSpec_all_space (s : jstring) :
  forallb isSpace s = true -> endSpec s = match s with [] => [] | _ :: _ => [LF] end.
Proof. destruct s as [|c t]; [reflexivity|]. cbn [endSpec]. now intros ->. Qed.

Lemma includesChar_joinLines_cons (l : jstring) (ls : list jstring) :
  ls <> [] -> includesChar (joinLines (l :: ls)) LF = true.
Proof.
  intros H. rewrite (joinLines_cons l ls H), includesChar_app. cbn [includesChar existsb].
  rewrite N.eqb_refl. cbn [orb]. apply orb_true_r.
Qed.

Lemma includesChar_noLF (l : jstring) : noLF l = true -> includesChar l LF = false.
Proof.
  unfold noLF, includesChar. induction l as [|c t IH]; [reflexivity|].
  cbn [forallb existsb]. intros H. apply andb_prop in H as [Hc Ht].
  unfold isLF in Hc. apply negb_true_iff in Hc. now rewrite Hc, IH.
Qed.

(** A text has a line feed when it has more than one line. *)
Lemma includesChar_lines (s : jstring) :
  includesChar s LF = match splitLines s with [_] => false | _ => true end.
Proof.
  rewrite <- (joinLines_splitLines s) at 1.
  pose proof (splitLines_noLF s) as Hn. pose proof (splitLines_not_nil s) as Hne.
  destruct (splitLines s) as [|l [|l' ls]]; [congruence| |].
  - cbn [joinLines]. apply includesChar_noLF. cbn [forallb] in Hn.
    now apply andb_prop in Hn as [Hn _].
  - now apply includesChar_joinLines_cons.
Qed.

Lemma joinLines_blank (n : nat) : joinLines (repeat [] (S n)) = repeatStr [LF] n.
Proof.
  induction n as [|n IH]; [reflexivity|].
  change (repeat [] (S (S n))) with (@nil char :: repeat [] (S n)).
  rewrite joinLines_cons by discriminate. now rewrite IH.
Qed.

Lemma forallb_isSpace_lines (s : jstring) :
  forallb isSpace s = true -> Forall (fun l => forallb isSpace l = true) (splitLines s).
Proof.
  intros H. apply Forall_forall. intros l Hl.
  apply splitLines_infix in Hl as (a & b & ->).
  rewrite !forallb_app in H. apply andb_prop in H as [_ H].
  now apply andb_prop in H as [H _].
Qed.

Lemma trim_all_space (l : jstring) : forallb isSpace l = true -> trim l = [].
Proof.
  intros H. rewrite <- (app_nil_r l). rewrite (trim_space_app l [] H). reflexivity.
Qed.

Lemma walkFrom_blank (indent : jstring) (lines : list jstring) :
  Forall (fun l => forallb isSpace l = true) lines ->
  forall level, walkFrom indent level lines = repeat [] (length lines).
Proof.
  induction 1 as [|l ls Hl _ IH]; intros level; [reflexivity|].
  cbn [walkFrom length repeat]. unfold outLine at 1. rewrite (trim_all_space l Hl).
  now rewrite IH.
Qed.

Lemma capSpec_all_LF (m n : nat) :
  exists j, capSpec m false (repeatStr [LF] n) = repeatStr [LF] j /\ (j = 0 <-> n = 0).
Proof.
  destruct (Nat.le_gt_cases (m + 2) n) as [H | H].
  - exists (m + 1). split; [|lia].
    pose proof (capSpec_run m n [] H eq_refl) as [H1 _].
    rewrite !app_nil_r in H1. exact H1.
  - exists n. split; [|tauto]. apply capSpec_fixed.
    pose proof (maxRun_repeat_app n []) as Hm. rewrite app_nil_r in Hm.
    cbn [lead takeW length maxRun] in Hm. lia.
Qed.


(** ** Runs of white space made one space *)

Lemma matchAt_spaces (pre suf : jstring) :
  if 1 <=? length (takeW isSpace suf)
  then exists b, matchAt reSpaces pre suf = Some (St b (dropW isSpace suf) [])
  else matchAt reSpaces pre suf = None.
Proof.
  unfold matchAt, reSpaces, Plus, Space.
  change (Cat (Cls isSpace) (Star true (Cls isSpace))) with (AtLeast 1 (Cls isSpace)).
  rewrite ends_AtLeast_Cls.
  destruct (1 <=? length (takeW isSpace suf)) eqn:E; [|reflexivity].
  apply Nat.leb_le in E.
  destruct (unwind_head isSpace (skipn 1 suf) (rev (firstn 1 suf) ++ pre) []) as [tl ->].
  rewrite dropW_skipn by exact E. eexists; reflexivity.
Qed.

Lemma span_dropW_any (p : char -> bool) (pre suf b : jstring) (k : list (nat * jstring)) :
  length (span (St pre suf []) (St b (dropW p suf) k)) = length (takeW p suf).
Proof.
  unfold span; cbn [after]. pose proof (length_dropW p suf) as H.
  replace (length (dropW p suf) <=? length suf) with true
    by (symmetry; apply Nat.leb_le; lia).
  rewrite length_firstn. lia.
Qed.

Lemma pieces_spaces (s : jstring) :
  forall pre,
    render 0 (js " ") (pieces reSpaces pre s 0) = collapse false s
    /\ render 0 (js " ") (pieces reSpaces pre s (length (takeW isSpace s)))
       = collapse true s.
Proof.
  induction s as [|c t IH]; intros pre.
  - split; cbn [takeW length pieces];
      (generalize (matchAt_spaces pre []); cbn [takeW length Nat.leb];
       intros ->; reflexivity).
  - assert (H0 : render 0 (js " ") (pieces reSpaces pre (c :: t) 0)
                 = collapse false (c :: t)).
    { cbn [pieces collapse]. generalize (matchAt_spaces pre (c :: t)).
      destruct (1 <=? length (takeW isSpace (c :: t))) eqn:E.
      - intros [b ->]. unfold mkHit at 2. cbn [matched]. rewrite span_dropW_any.
        cbn [takeW] in *. destruct (isSpace c); [|discriminate E].
        cbn [length]. unfold render at 1. cbn [flat_map].
        rewrite getSubstitution_plain by reflexivity.
        cbn [js map list_ascii_of_string app]. f_equal. apply (IH (c :: pre)).
      - intros ->. cbn [takeW] in E. destruct (isSpace c); [discriminate E|].
        unfold render at 1. cbn [flat_map app]. f_equal. apply (IH (c :: pre)). }
    split; [exact H0|]. cbn [takeW collapse].
    destruct (isSpace c) eqn:Ec.
    + cbn [length pieces]. apply (IH (c :: pre)).
    + cbn [length]. rewrite H0. cbn [collapse]. now rewrite Ec.
Qed.

Lemma directiveContent_spec (d : jstring) : directiveContent d = trim (collapse false d).
Proof. unfold directiveContent. f_equal. apply (pieces_spaces d []). Qed.

Lemma ink_collapse (s : jstring) : forall inRun, ink (collapse inRun s) = ink s.
Proof.
  induction s as [|c t IH]; intros inRun; [reflexivity|]. cbn [collapse].
  destruct (isSpace c) eqn:E.
  - cbn [ink filter]. rewrite E. cbn [negb]. fold (ink t).
    destruct inRun; [apply IH|]. cbn [ink filter]. fold (ink (collapse true t)).
    change (negb (isSpace (ch " "))) with false. cbv iota. apply IH.
  - cbn [ink filter]. rewrite E. cbn [negb]. fold (ink t).
    fold (ink (collapse false t)). now rewrite IH.
Qed.

(** After a run the text goes on with a code unit that is not white
    space, or ends. *)
Lemma collapse_inRun_head (s : jstring) :
  match collapse true s with [] => True | d :: _ => isSpace d = false end.
Proof.
  induction s as [|c t IH]; [exact I|]. cbn [collapse].
  destruct (isSpace c) eqn:E; [exact IH|exact E].
Qed.

Lemma spaced_collapse (s : jstring) : forall inRun, spaced (collapse inRun s) = true.
Proof.
  induction s as [|c t IH]; intros inRun; [reflexivity|]. cbn [collapse].
  destruct (isSpace c) eqn:E.
  - destruct inRun; [apply IH|]. cbn [spaced].
    change (isSpace (ch " ")) with true. cbv iota.
    change (eqc " " (ch " ")) with true. rewrite IH.
    pose proof (collapse_inRun_head t) as H.
    destruct (collapse true t) as [|d r]; [reflexivity|]. now rewrite H.
  - cbn [spaced]. rewrite E. apply IH.
Qed.

Lemma collapse_inRun_nonspace (s : jstring) :
  match s with [] => True | d :: _ => isSpace d = false end ->
  collapse true s = collapse false s.
Proof. destruct s as [|d r]; [reflexivity|]. cbn [collapse]. now intros ->. Qed.

Lemma collapse_spaced (s : jstring) : spaced s = true -> collapse false s = s.
Proof.
  induction s as [|c t IH]; [reflexivity|]. cbn [spaced collapse].
  intros H. apply andb_prop in H as [Hc Ht].
  destruct (isSpace c) eqn:E.
  - apply andb_prop in Hc as [Hc Hn]. apply eqc_eq in Hc. subst c.
    f_equal. rewrite collapse_inRun_nonspace; [apply IH, Ht|].
    destruct t as [|d r]; [exact I|]. now apply negb_true_iff in Hn.
  - f_equal. apply IH, Ht.
Qed.

Lemma spaced_suffix (a x : jstring) : spaced (a ++ x) = true -> spaced x = true.
Proof.
  induction a as [|c a IH]; [trivial|]. cbn [app spaced].
  intros H. apply andb_prop in H as [_ H]. apply IH, H.
Qed.

Lemma spaced_prefix (x b : jstring) : spaced (x ++ b) = true -> spaced x = true.
Proof.
  induction x as [|c x IH]; [reflexivity|]. cbn [app spaced].
  intros H. apply andb_prop in H as [Hc H]. rewrite (IH H), andb_true_r.
  destruct (isSpace c); [|reflexivity].
  apply andb_prop in Hc as [-> Hn]. cbn [andb].
  destruct x as [|d x']; [reflexivity|exact Hn].
Qed.

Lemma spaced_trim (s : jstring) : spaced s = true -> spaced (trim s) = true.
Proof.
  intros H. destruct (trim_decomp s) as (a & b & E & _). rewrite E in H.
  apply spaced_suffix in H. now apply spaced_prefix in H.
Qed.

Lemma spaced_noLF (s : jstring) : spaced s = true -> noLF s = true.
Proof.
  induction s as [|c t IH]; [reflexivity|]. cbn [spaced noLF forallb].
  intros H. apply andb_prop in H as [Hc Ht]. fold (noLF t). rewrite (IH Ht), andb_true_r.
  destruct (isLF c) eqn:E; [|reflexivity].
  unfold isLF in E. apply N.eqb_eq in E. subst c.
  change (isSpace LF) with true in Hc. cbv iota in Hc. discriminate Hc.
Qed.

Lemma directiveContent_spaced (d : jstring) : spaced (directiveContent d) = true.
Proof. rewrite directiveContent_spec. apply spaced_trim, spaced_collapse. Qed.

Lemma directiveContent_idem (d : jstring) :
  directiveContent (directiveContent d) = directiveContent d.
Proof.
  rewrite (directiveContent_spec (directiveContent d)).
  rewrite (collapse_spaced _ (directiveContent_spaced d)).
  rewrite directiveContent_spec. apply trim_idem.
Qed.

(** ** The keys of the protected regions *)

Lemma js_app (a b : string) : js (a ++ b) = js a ++ js b.
Proof.
  unfold js. induction a as [|x a IH]; [reflexivity|]. cbn. now rewrite IH.
Qed.

Lemma ch_inj (a b : ascii) : ch a = ch b -> a = b.
Proof.
  unfold ch. intros H. apply (f_equal ascii_of_N) in H.
  now rewrite !ascii_N_embedding in H.
Qed.

Lemma js_inj (a : string) : forall b, js a = js b -> a = b.
Proof.
  unfold js. induction a as [|x a IH]; intros [|y b] H; cbn in H;
    [reflexivity|discriminate|discriminate|].
  injection H as Hx H. apply ch_inj in Hx. apply IH in H. now subst.
Qed.

Lemma digits_string_of_uint (d : Decimal.uint) :
  forallb isDigit (js (NilEmpty.string_of_uint d)) = true.
Proof. induction d; cbn [NilEmpty.string_of_uint]; [reflexivity|exact IHd..]. Qed.

Lemma to_uint_nonnil (n : nat) : Nat.to_uint n <> Decimal.Nil.
Proof.
  rewrite <- (DecimalNat.Unsigned.of_to n) at 1. rewrite DecimalNat.Unsigned.to_of.
  apply DecimalFacts.unorm_nonnil.
Qed.

Lemma numToString_digits (n : nat) : forallb isDigit (numToString n) = true.
Proof.
  unfold numToString. pose proof (to_uint_nonnil n) as H.
  destruct (Nat.to_uint n) eqn:E; [congruence|apply (digits_string_of_uint (_ u))..].
Qed.

Lemma numToString_inj (n m : nat) : numToString n = numToString m -> n = m.
Proof.
  unfold numToString. intros H. apply js_inj in H.
  apply DecimalNat.Unsigned.to_uint_inj.
  pose proof (NilZero.usu _ (to_uint_nonnil n)) as Hn.
  pose proof (NilZero.usu _ (to_uint_nonnil m)) as Hm.
  rewrite H in Hn. congruence.
Qed.

Lemma takeW_app_stop (p : char -> bool) (a : jstring) (c : char) (b : jstring) :
  forallb p a = true -> p c = false -> takeW p (a ++ c :: b) = a.
Proof.
  intros Ha Hc. induction a as [|x a IH]; cbn [app takeW].
  - now rewrite Hc.
  - cbn [forallb] in Ha. apply andb_prop in Ha as [-> Ha]. now rewrite IH.
Qed.

(** A key tells the value of the counter that it was made from. *)
Lemma keyFor_number (p q : string) (i j : nat) :
  In p kinds -> In q kinds -> keyFor p i = keyFor q j -> i = j.
Proof.
  intros Hp Hq H. apply numToString_inj.
  assert (Hrev : forall r n, In r kinds ->
            takeW isDigit (skipn 2 (rev (keyFor r n))) = rev (numToString n)).
  { intros r n Hr. unfold keyFor. rewrite !rev_app_distr, <- app_assoc.
    change (rev (js "__")) with (js "__"). cbn [js map list_ascii_of_string app skipn].
    assert (Hu : exists b, rev (js r) = ch "_" :: b).
    { cbn in Hr. repeat (destruct Hr as [<- | Hr]; [eexists; reflexivity|]).
      destruct Hr. }
    destruct Hu as [b ->]. apply takeW_app_stop; [|reflexivity].
    rewrite forallb_forall. intros x Hx. apply in_rev in Hx.
    pose proof (numToString_digits n) as Hd. rewrite forallb_forall in Hd. now apply Hd. }
  apply (f_equal (fun k => takeW isDigit (skipn 2 (rev k)))) in H.
  rewrite (Hrev p i Hp), (Hrev q j Hq) in H.
  apply (f_equal (@rev char)) in H. now rewrite !rev_involutive in H.
Qed.

Lemma eqs_eq (a : jstring) : forall b, eqs a b = true <-> a = b.
Proof.
  induction a as [|x a IH]; intros [|y b]; cbn [eqs]; split; intros H;
    try discriminate; try reflexivity.
  - apply andb_prop in H as [Hx H]. apply N.eqb_eq in Hx. apply IH in H. now subst.
  - injection H as <- <-. rewrite N.eqb_refl. now apply IH.
Qed.

Lemma mapSet_fresh (key value : jstring) (m : preserveMap) :
  ~ In key (map fst m) -> mapSet key value m = m ++ [(key, value)].
Proof.
  induction m as [|[k v] m IH]; intros H; [reflexivity|]. cbn [mapSet].
  destruct (eqs k key) eqn:E.
  - apply eqs_eq in E. exfalso. apply H. now left.
  - cbn [app]. rewrite IH; [reflexivity|]. intros Hin. apply H. now right.
Qed.

Lemma preserve_wellKeyed (prefix : string) (transform : jstring -> jstring)
    (st : store) (m : jstring) :
  In prefix kinds -> wellKeyed st -> wellKeyed (fst (preserve prefix transform st m)).
Proof.
  intros Hp (Hlen & Hkeys & Hnd). unfold preserve. cbn [fst snd].
  fold (keyFor prefix (fst st)).
  assert (Hfresh : ~ In (keyFor prefix (fst st)) (map fst (snd st))).
  { intros Hin. rewrite Forall_forall in Hkeys.
    destruct (Hkeys _ Hin) as (q & j & Hq & Hj & E).
    apply (keyFor_number prefix q (fst st) j Hp Hq) in E. lia. }
  rewrite (mapSet_fresh _ _ _ Hfresh). unfold wellKeyed. cbn [fst snd].
  rewrite length_app, map_app. cbn [length map fst]. split; [lia|]. split.
  - apply Forall_app. split.
    + eapply Forall_impl; [|exact Hkeys]. cbn beta.
      intros k (q & j & Hq & Hj & E). exists q, j. split; [exact Hq|]. split; [lia|exact E].
    + constructor; [|constructor]. exists prefix, (fst st). split; [exact Hp|].
      split; [lia|reflexivity].
  - apply NoDup_app; [exact Hnd|repeat constructor; intros []|].
    intros k Hk [<- | []]. exact (Hfresh Hk).
Qed.

Lemma emit_wellKeyed (f : store -> jstring -> store * jstring) (ps : list piece) :
  (forall st m, wellKeyed st -> wellKeyed (fst (f st m))) ->
  forall st, wellKeyed st -> wellKeyed (fst (emit f st ps)).
Proof.
  intros Hf. induction ps as [|[c|h] ps IH]; intros st Hst; [exact Hst| |].
  - cbn [emit]. specialize (IH st Hst). now destruct (emit f st ps).
  - cbn [emit]. specialize (Hf st (matched h) Hst).
    destruct (f st (matched h)) as [st1 txt]. specialize (IH st1 Hf).
    now destruct (emit f st1 ps).
Qed.

Lemma replaceAllWith_wellKeyed (r : regex) (prefix : string)
    (transform : jstring -> jstring) (st : store) (s : jstring) :
  In prefix kinds -> wellKeyed st ->
  wellKeyed (fst (replaceAllWith r (preserve prefix transform) st s)).
Proof.
  intros Hp Hst. unfold replaceAllWith. apply emit_wellKeyed; [|exact Hst].
  intros st' m. now apply preserve_wellKeyed.
Qed.

Lemma extractRegions_wellKeyed (text : jstring) (options : FormatOptions) :
  wellKeyed (fst (extractRegions text options)).
Proof.
  unfold extractRegions.
  assert (H0 : wellKeyed (0, [])).
  { unfold wellKeyed. cbn. split; [reflexivity|]. split; constructor. }
  revert H0. generalize ((0, []) : store). intros st0 H0.
  repeat match goal with
  | |- context [replaceAllWith ?r (preserve ?p ?tr) ?st ?s] =>
      let H := fresh "H" in
      assert (H : wellKeyed (fst (replaceAllWith r (preserve p tr) st s)))
        by (apply replaceAllWith_wellKeyed; [cbn; tauto|assumption]);
      destruct (replaceAllWith r (preserve p tr) st s); cbn [fst] in H
  end.
  cbn [fst]. assumption.
Qed.

(** ** Blank lines taken out, counted *)

Lemma Del_filter (a b : list jstring) :
  Del a b ->
  filter (fun l => negb (isBlank l)) a = filter (fun l => negb (isBlank l)) b.
Proof.
  induction 1 as [|l a b _ IH|a b _ IH]; [reflexivity| |exact IH].
  cbn [filter]. now rewrite IH.
Qed.

Lemma Del_length (a b : list jstring) : Del a b -> length b <= length a.
Proof. induction 1; cbn [length]; lia. Qed.


(** ** Formatting twice, for the callers *)

Lemma formatJsp_twice (t : jstring) (options : FormatOptions) :
  regionFree t = true ->
  formatJsp (formatJsp t options) options = formatJsp t options.
Proof.
  intros H.
  rewrite (formatJsp_regionFree (formatJsp t options) options
             (regionFree_formatJsp t options H)).
  rewrite (formatJsp_regionFree t options H).
  rewrite formatHtmlStructure_fixed, capNewlines_fixed. apply endSpec_idem.
Qed.

Lemma eqs_refl (a : jstring) : eqs a a = true.
Proof. now apply eqs_eq. Qed.

(** ** Directives on one line *)

Lemma formatDirective_content (d : jstring) :
  formatDirective (directiveContent d) = formatDirective d.
Proof.
  unfold formatDirective. fold (directiveContent (directiveContent d)).
  fold (directiveContent d). now rewrite directiveContent_idem.
Qed.

Lemma appendToLast_cons (l : jstring) (ls : list jstring) (tail : jstring) :
  ls <> [] ->
  appendToLast (l :: ls) tail = l :: appendToLast ls tail /\ appendToLast ls tail <> [].
Proof.
  intros H. destruct ls as [|l' ls']; [congruence|]. split; [reflexivity|].
  cbn [appendToLast]. destruct ls'; discriminate.
Qed.

(** [formatDirective] returns the collapsed content or a text of more
    than one line. *)
Lemma formatDirective_cases (d : jstring) :
  formatDirective d = directiveContent d \/ includesChar (formatDirective d) LF = true.
Proof.
  unfold formatDirective. fold (directiveContent d).
  destruct (length (directiveContent d) <=? 120); [now left|].
  destruct (matchOne reDirectiveParts (directiveContent d)) as [m|]; [|now left].
  destruct (length (matchAll reAttrPair (group 2 m)) <=? 1) eqn:E; [now left|].
  right. destruct (matchAll reAttrPair (group 2 m)) as [|a l]; [discriminate E|].
  cbn [map].
  destruct (appendToLast_cons (group 1 m)
              ((js "    " ++ a) :: map (fun attr => js "    " ++ attr) l)
              (js " " ++ group 3 m)) as [-> Hne]; [discriminate|].
  now apply includesChar_joinLines_cons.
Qed.


(** ** Patterns on a line, one by one *)

Lemma firstn_plus (A : Type) (n m : nat) :
  forall l : list A, firstn (n + m) l = firstn n l ++ firstn m (skipn n l).
Proof.
  induction n as [|n IH]; intros l; [reflexivity|].
  destruct l as [|x l]; [now rewrite !firstn_nil|].
  cbn [Nat.add firstn skipn app]. now rewrite IH.
Qed.

Lemma litOf_ends_eq (a : regex) :
  forall x s, litOf a = Some x ->
    ends true a s
    = if hasPrefix x (after s)
      then [St (rev (firstn (length x) (after s)) ++ before s)
               (skipn (length x) (after s)) (caps s)]
      else [].
Proof.
  induction a as [|p|a IHa b IHb|a IHa b IHb|g a IHa|n a IHa| | |a IHa|a IHa];
    intros x s H; cbn [litOf] in H; try discriminate.
  - injection H as <-. now destruct s.
  - injection H as <-. cbn [ends hasPrefix length firstn skipn].
    destruct (after s) as [|c t]; [reflexivity|].
    cbn [firstn skipn rev app]. destruct (p c); [|reflexivity]. now rewrite andb_true_l.
  - destruct (litOf a) as [xa|]; [|discriminate].
    destruct (litOf b) as [xb|]; [|discriminate]. injection H as <-.
    cbn [ends]. rewrite (IHa xa s eq_refl), hasPrefix_app.
    destruct (hasPrefix xa (after s)) eqn:Ea; [|reflexivity].
    cbn [flat_map andb]. rewrite app_nil_r, (IHb xb _ eq_refl). cbn [after before caps].
    destruct (hasPrefix xb (skipn (length xa) (after s))) eqn:Eb; [|reflexivity].
    rewrite length_app, firstn_plus, rev_app_distr, <- app_assoc, skipn_skipn.
    now replace (length xb + length xa) with (length xa + length xb) by lia.
Qed.

Lemma litOf_seq_Cls (w : window) : litOf (seq (map Cls w)) = Some w.
Proof.
  induction w as [|p w IH]; [reflexivity|].
  destruct w as [|q w']; [reflexivity|].
  change (seq (map Cls (p :: q :: w'))) with (Cat (Cls p) (seq (map Cls (q :: w')))).
  cbn [litOf]. now rewrite IH.
Qed.

Lemma litOf_Lit (v : string) : litOf (Lit v) = Some (map eqc (list_ascii_of_string v)).
Proof. unfold Lit, Chr. rewrite <- litOf_seq_Cls. now rewrite map_map. Qed.

Lemma hasPrefix_eqc (v : string) (s : jstring) :
  hasPrefix (map eqc (list_ascii_of_string v)) s = startsWith s (js v).
Proof.
  unfold js. revert s. induction (list_ascii_of_string v) as [|a l IH]; intros s.
  - cbn. now destruct s.
  - destruct s as [|c t]; [reflexivity|]. cbn [map hasPrefix startsWith].
    rewrite IH. unfold eqc. now rewrite N.eqb_sym.
Qed.

Lemma ends_Lit_miss (v : string) (pre s : jstring) (k : list (nat * jstring)) :
  startsWith s (js v) = false -> ends true (Lit v) (St pre s k) = [].
Proof.
  intros H. rewrite (litOf_ends_eq (Lit v) _ _ (litOf_Lit v)). cbn [after].
  now rewrite hasPrefix_eqc, H.
Qed.

Lemma ends_alts (rs : list regex) (s : mstate) :
  ends true (alts rs) s = flat_map (fun r => ends true r s) rs.
Proof.
  induction rs as [|r rs IH]; [reflexivity|].
  destruct rs as [|r' rs']; [cbn; now rewrite app_nil_r|].
  change (alts (r :: r' :: rs')) with (Alt r (alts (r' :: rs'))).
  cbn [ends flat_map]. now rewrite IH.
Qed.

Lemma flat_map_nil (A B : Type) (f : A -> list B) (l : list A) :
  (forall x, In x l -> f x = []) -> flat_map f l = [].
Proof.
  induction l as [|x l IH]; intros H; [reflexivity|]. cbn [flat_map].
  rewrite (H x (or_introl eq_refl)), IH; [reflexivity|].
  intros y Hy. apply H. now right.
Qed.

Lemma ends_oneOf_miss (names : list string) (pre s : jstring) (k : list (nat * jstring)) :
  (forall n, In n names -> startsWith s (js n) = false) ->
  ends true (oneOf names) (St pre s k) = [].
Proof.
  intros H. unfold oneOf. rewrite ends_alts. apply flat_map_nil.
  intros r Hr. apply in_map_iff in Hr as (n & <- & Hn). apply ends_Lit_miss, H, Hn.
Qed.

Lemma startsWith_app_split (s p q : jstring) :
  startsWith s (p ++ q) = startsWith s p && startsWith (skipn (length p) s) q.
Proof.
  revert s. induction p as [|x p IH]; intros s.
  - cbn [app length skipn]. now rewrite startsWith_nil.
  - destruct s as [|c t]; [reflexivity|]. cbn [app startsWith length skipn].
    now rewrite IH, andb_assoc.
Qed.

Lemma ends_prefixed_miss (pfx : string) (names : list string) (pre s : jstring)
    (k : list (nat * jstring)) :
  (forall n, In n names -> startsWith s (js (pfx ++ n)) = false) ->
  ends true (Cat (Lit pfx) (oneOf names)) (St pre s k) = [].
Proof.
  intros H. cbn [ends]. rewrite (litOf_ends_eq (Lit pfx) _ _ (litOf_Lit pfx)).
  cbn [after before caps]. rewrite hasPrefix_eqc.
  destruct (startsWith s (js pfx)) eqn:E; [|reflexivity].
  cbn [flat_map]. rewrite app_nil_r. apply ends_oneOf_miss.
  intros n Hn. specialize (H n Hn). rewrite js_app, startsWith_app_split, E in H.
  rewrite length_map. unfold js in H. rewrite length_map in H. exact H.
Qed.

Lemma isTagStart_not (a : ascii) (c : char) :
  isTagStart (ch a) = false -> isTagStart c = true -> eqc a c = false.
Proof.
  intros Ha Hc. unfold eqc. destruct (N.eqb_spec c (ch a)) as [-> |]; congruence.
Qed.

Lemma existsb_false_In (A : Type) (f : A -> bool) (l : list A) (x : A) :
  existsb f l = false -> In x l -> f x = false.
Proof.
  intros H Hx. destruct (f x) eqn:E; [|reflexivity].
  assert (existsb f l = true) by (apply existsb_exists; now exists x). congruence.
Qed.

(** The lookahead of [openTags] lets a name pass that begins with a
    letter or a colon and with none of its names. *)
Lemma lookahead_passes (c : char) (rest pre : jstring) (k : list (nat * jstring)) :
  isTagStart c = true ->
  existsb (fun v => startsWith (c :: rest) (js v)) voidTagNames = false ->
  ends true (alts ([Chr "/"; Chr "!"] ++ map Lit htmlVoidNames
                   ++ [Cat (Lit "jsp:") (oneOf jspVoidNames);
                       Cat (Lit "c:") (oneOf cVoidNames);
                       Cat (Lit "fmt:") (oneOf fmtVoidNames);
                       Cat (Lit "sql:") (oneOf sqlVoidNames)]))
       (St pre (c :: rest) k) = [].
Proof.
  intros Hc Hv. rewrite ends_alts. apply flat_map_nil. intros r Hr.
  assert (Hin : forall v, In v voidTagNames -> startsWith (c :: rest) (js v) = false).
  { intros v. apply (existsb_false_In _ (fun v => startsWith (c :: rest) (js v))), Hv. }
  apply in_app_or in Hr as [Hr | Hr].
  - destruct Hr as [<- | [<- | []]]; cbn [ends after before caps Chr];
      first [rewrite (isTagStart_not "/" c eq_refl Hc)
            |rewrite (isTagStart_not "!" c eq_refl Hc)]; reflexivity.
  - apply in_app_or in Hr as [Hr | Hr].
    + apply in_map_iff in Hr as (v & <- & Hv'). apply ends_Lit_miss, Hin.
      unfold voidTagNames. apply in_or_app. now left.
    + destruct Hr as [<- | [<- | [<- | [<- | []]]]]; apply ends_prefixed_miss;
        intros n Hn; apply Hin; unfold voidTagNames; apply in_or_app; right.
      * apply in_or_app; left. now apply in_map.
      * apply in_or_app; right. apply in_or_app; left. now apply in_map.
      * do 2 (apply in_or_app; right). apply in_or_app; left. now apply in_map.
      * do 3 (apply in_or_app; right). now apply in_map.
Qed.

Lemma unwind_In (p : char -> bool) (a : jstring) :
  forall pre b k, forallb p a = true ->
    In (St (rev a ++ pre) b k) (unwind p pre (a ++ b) k).
Proof.
  induction a as [|c a IH]; intros pre b k H.
  - cbn [rev app]. destruct b as [|d b]; cbn [unwind]; [now left|].
    destruct (p d); [apply in_or_app; right|]; now left.
  - cbn [forallb] in H. apply andb_prop in H as [Hc Ha].
    cbn [app unwind rev]. rewrite Hc. apply in_or_app; left.
    rewrite <- app_assoc. apply (IH (c :: pre) b k Ha).
Qed.

Lemma unwind_decomp (p : char -> bool) (suf : jstring) :
  forall pre k e, In e (unwind p pre suf k) ->
    exists a b, suf = a ++ b /\ forallb p a = true /\ e = St (rev a ++ pre) b k.
Proof.
  induction suf as [|c t IH]; intros pre k e H; cbn [unwind] in H.
  - destruct H as [<- | []]. now exists [], [].
  - destruct (p c) eqn:Ec.
    + apply in_app_or in H as [H | [<- | []]].
      * apply IH in H as (a & b & -> & Ha & ->). exists (c :: a), b.
        cbn [app forallb rev]. rewrite Ec, Ha, <- app_assoc. now repeat split.
      * now exists [], (c :: t).
    + destruct H as [<- | []]. now exists [], (c :: t).
Qed.

Lemma flat_map_not_nil (A B : Type) (f : A -> list B) (l : list A) (x : A) :
  In x l -> f x <> [] -> flat_map f l <> [].
Proof.
  intros Hx Hf H. apply Hf.
  destruct (f x) as [|y ys] eqn:E; [reflexivity|].
  assert (In y (flat_map f l)) by (apply in_flat_map; exists x; rewrite E; now split; [|left]).
  rewrite H in *. contradiction.
Qed.

Lemma test_true (r : regex) (s : jstring) :
  ends true r (St [] s []) <> [] -> test (Cat Bol r) s = true.
Proof. rewrite test_anchored. now destruct (ends true r (St [] s [])). Qed.

Lemma test_false (r : regex) (s : jstring) :
  ends true r (St [] s []) = [] -> test (Cat Bol r) s = false.
Proof. rewrite test_anchored. now intros ->. Qed.

Lemma noGT_app (a b : jstring) : noGT (a ++ b) = noGT a && noGT b.
Proof. apply forallb_app. Qed.


(** ** The kinds of lines *)

Lemma rev_eq_cons (A : Type) (l : list A) (x : A) (t : list A) :
  rev l = x :: t -> l = rev t ++ [x].
Proof. intros H. apply (f_equal (@rev A)) in H. now rewrite rev_involutive in H. Qed.

Lemma startsWith_inv (s p : jstring) : startsWith s p = true -> exists rest, s = p ++ rest.
Proof.
  revert s. induction p as [|x p IH]; intros s H; [now exists s|].
  destruct s as [|c t]; [discriminate|]. cbn [startsWith] in H.
  apply andb_prop in H as [Hx H]. apply N.eqb_eq in Hx. subst.
  destruct (IH t H) as [rest ->]. now exists rest.
Qed.

Lemma text_line_tests (c : char) (t : jstring) :
  eqc "<" c = false ->
  test closeTags (c :: t) = false /\ test jspCloseTags (c :: t) = false
  /\ test openTags (c :: t) = false /\ test jspOpenTags (c :: t) = false.
Proof.
  intros H. unfold closeTags, jspCloseTags, openTags, jspOpenTags.
  repeat split; apply test_false, req_ends; cbn [after]; cbn; now rewrite H.
Qed.

Lemma bang_line_tests (rest : jstring) :
  test closeTags (ch "<" :: ch "!" :: rest) = false
  /\ test jspCloseTags (ch "<" :: ch "!" :: rest) = false
  /\ test openTags (ch "<" :: ch "!" :: rest) = false
  /\ test jspOpenTags (ch "<" :: ch "!" :: rest) = false.
Proof.
  unfold closeTags, jspCloseTags, openTags, jspOpenTags.
  repeat split; apply test_false; vm_compute; reflexivity.
Qed.

Lemma not_close_tests (c : char) (rest : jstring) :
  isTagStart c = true ->
  test closeTags (ch "<" :: c :: rest) = false
  /\ test jspCloseTags (ch "<" :: c :: rest) = false.
Proof.
  intros Hc. unfold closeTags, jspCloseTags.
  split; apply test_false, req_ends; cbn [after]; cbn;
    now rewrite (isTagStart_not "/" c eq_refl Hc).
Qed.

Lemma ends_Cat (a b : regex) (s : mstate) :
  ends true (Cat a b) s = flat_map (ends true b) (ends true a s).
Proof. reflexivity. Qed.

Lemma flat_map_one (A B : Type) (f : A -> list B) (x : A) : flat_map f [x] = f x.
Proof. cbn. apply app_nil_r. Qed.

Lemma ends_Chr_same (a : ascii) (pre t : jstring) (k : list (nat * jstring)) :
  ends true (Cls (eqc a)) (St pre (ch a :: t) k) = [St (ch a :: pre) t k].
Proof. rewrite ends_Cls_cons. unfold eqc. now rewrite N.eqb_refl. Qed.

Lemma ends_NotAhead (a : regex) (s : mstate) :
  ends true (NotAhead a) s = match ends true a s with [] => [s] | _ :: _ => [] end.
Proof. reflexivity. Qed.

(** The steps that walk a pattern along the first code units of a
    line. *)
Ltac walk_pattern :=
  repeat first [ rewrite flat_map_one | rewrite ends_Chr_same | rewrite ends_Cat ].

Lemma close_line_tests (c : char) (body : jstring) :
  isTagStart c = true -> noGT body = true ->
  let s := ch "<" :: ch "/" :: c :: body ++ [ch ">"] in
  test closeTags s = true /\ test openTags s = false /\ test jspOpenTags s = false.
Proof.
  intros Hc Hb s. subst s. split; [|split].
  - unfold closeTags. apply test_true.
    cbn [seq Lit map list_ascii_of_string]. unfold Chr, NotChr.
    walk_pattern. rewrite ends_Cls_cons, Hc. walk_pattern. rewrite ends_Star_Cls.
    apply (flat_map_not_nil _ _ _ _ (St (rev body ++ [c; ch "/"; ch "<"]) [ch ">"] [])).
    + apply unwind_In. exact Hb.
    + discriminate.
  - unfold openTags. apply test_false. vm_compute. reflexivity.
  - unfold jspOpenTags. apply test_false. vm_compute. reflexivity.
Qed.

Lemma selfClosing_line_test (c : char) (body : jstring) :
  isTagStart c = true -> noGT body = true ->
  test selfCloseTags (ch "<" :: c :: body ++ [ch "/"; ch ">"]) = true.
Proof.
  intros Hc Hb. unfold selfCloseTags. apply test_true.
  cbn [seq Lit map list_ascii_of_string]. unfold Chr, NotChr.
  walk_pattern. rewrite ends_Cls_cons, Hc. walk_pattern. rewrite ends_Star_Cls.
  apply (flat_map_not_nil _ _ _ _ (St (rev body ++ [c; ch "<"]) [ch "/"; ch ">"] [])).
  - apply unwind_In. exact Hb.
  - discriminate.
Qed.

Lemma open_line_tests (c x : char) (body : jstring) :
  isTagStart c = true -> noGT (body ++ [x]) = true -> eqc "/" x = false ->
  existsb (fun v => startsWith (c :: body ++ [x; ch ">"]) (js v)) voidTagNames = false ->
  let s := ch "<" :: c :: body ++ [x; ch ">"] in
  test selfCloseTags s = false /\ test openTags s = true.
Proof.
  intros Hc Hb Hx Hv s. subst s. split.
  - unfold selfCloseTags. apply test_false.
    cbn [seq Lit map list_ascii_of_string]. unfold Chr, NotChr.
    walk_pattern. rewrite ends_Cls_cons, Hc. walk_pattern. rewrite ends_Star_Cls.
    apply flat_map_nil. intros e He.
    apply unwind_decomp in He as (a & b & E & Ha & ->).
    destruct b as [|b0 [|b1 [|b2 b']]]; cbn [ends flat_map after before caps app].
    + reflexivity.
    + destruct (eqc "/" b0); reflexivity.
    + replace (body ++ [x; ch ">"]) with ((body ++ [x]) ++ [ch ">"]) in E
        by (now rewrite <- app_assoc).
      replace (a ++ [b0; b1]) with ((a ++ [b0]) ++ [b1]) in E by (now rewrite <- app_assoc).
      apply app_inj_tail in E as [E _]. apply app_inj_tail in E as [_ <-].
      now rewrite Hx.
    + destruct (eqc "/" b0); [|reflexivity]. cbn [flat_map app after].
      destruct (eqc ">" b1); reflexivity.
  - unfold openTags. apply test_true.
    cbn [seq]. change (Chr "<") with (Cls (eqc "<")).
    change (Chr ">") with (Cls (eqc ">")). walk_pattern.
    rewrite ends_NotAhead.
    rewrite (lookahead_passes c (body ++ [x; ch ">"]) [ch "<"] [] Hc Hv).
    walk_pattern. rewrite ends_Cls_cons, Hc. walk_pattern.
    unfold NotChr. rewrite ends_Star_Cls.
    rewrite noGT_app in Hb. apply andb_prop in Hb as [Hb _].
    apply (flat_map_not_nil _ _ _ _ (St (rev body ++ [c; ch "<"]) [x; ch ">"] [])).
    + apply unwind_In. exact Hb.
    + cbn [ends flat_map after before caps app]. rewrite Hx. discriminate.
Qed.


Lemma noGT_rev (s : jstring) : noGT (rev s) = noGT s.
Proof.
  unfold noGT. destruct (forallb _ s) eqn:E.
  - rewrite forallb_forall in *. intros x Hx. apply E. now apply in_rev.
  - destruct (forallb _ (rev s)) eqn:E'; [|reflexivity].
    rewrite forallb_forall in E'.
    assert (forallb (fun c => negb (eqc ">" c)) s = true); [|congruence].
    apply forallb_forall. intros x Hx. apply E'. now apply in_rev in Hx.
Qed.

Ltac split_andb :=
  repeat match goal with
         | H : _ && _ = true |- _ => apply andb_prop in H as [? ?]
         end.

Lemma isOpenLine_inv (s : jstring) :
  isOpenLine s = true ->
  exists c x body,
    s = ch "<" :: c :: body ++ [x; ch ">"]
    /\ isTagStart c = true /\ noGT (body ++ [x]) = true /\ eqc "/" x = false
    /\ existsb (fun v => startsWith (c :: body ++ [x; ch ">"]) (js v)) voidTagNames
       = false.
Proof.
  destruct s as [|lt [|c rest]]; try discriminate. cbn [isOpenLine].
  destruct (rev rest) as [|gt [|x body]] eqn:E;
    try (rewrite !andb_false_r; discriminate).
  intros H. split_andb.
  apply rev_eq_cons in E. cbn [rev] in E. rewrite <- app_assoc in E. cbn [app] in E.
  repeat match goal with H : eqc _ _ = true |- _ => apply eqc_eq in H; subst end.
  exists c, x, (rev body). split; [reflexivity|].
  split; [assumption|]. split; [|split; now apply negb_true_iff].
  match goal with H : noGT (x :: body) = true |- _ =>
    cbn [noGT forallb] in H; apply andb_prop in H as [Hx Hb] end.
  rewrite noGT_app, noGT_rev. unfold noGT at 1. rewrite Hb. cbn. now rewrite Hx.
Qed.

Lemma isCloseLine_inv (s : jstring) :
  isCloseLine s = true ->
  exists c body,
    s = ch "<" :: ch "/" :: c :: body ++ [ch ">"]
    /\ isTagStart c = true /\ noGT body = true.
Proof.
  destruct s as [|lt [|sl [|c rest]]]; try discriminate. cbn [isCloseLine].
  destruct (rev rest) as [|gt body] eqn:E; [rewrite !andb_false_r; discriminate|].
  intros H. split_andb. apply rev_eq_cons in E.
  repeat match goal with H : eqc _ _ = true |- _ => apply eqc_eq in H; subst end.
  exists c, (rev body). split; [reflexivity|]. split; [assumption|].
  now rewrite noGT_rev.
Qed.

Lemma isSelfClosingLine_inv (s : jstring) :
  isSelfClosingLine s = true ->
  exists c body,
    s = ch "<" :: c :: body ++ [ch "/"; ch ">"]
    /\ isTagStart c = true /\ noGT body = true.
Proof.
  destruct s as [|lt [|c rest]]; try discriminate. cbn [isSelfClosingLine].
  destruct (rev rest) as [|gt [|sl body]] eqn:E;
    try (rewrite !andb_false_r; discriminate).
  intros H. split_andb.
  apply rev_eq_cons in E. cbn [rev] in E. rewrite <- app_assoc in E. cbn [app] in E.
  repeat match goal with H : eqc _ _ = true |- _ => apply eqc_eq in H; subst end.
  exists c, (rev body). split; [reflexivity|]. split; [assumption|].
  now rewrite noGT_rev.
Qed.

Lemma isVoidLine_inv (s : jstring) :
  isVoidLine s = true ->
  exists name rest,
    s = js "<" ++ js name ++ rest
    /\ In name voidTagNames /\ ~ In name voidAndBlockNames.
Proof.
  unfold isVoidLine. intros H. apply existsb_exists in H as (v & Hv & H).
  unfold plainVoidNames in Hv. apply filter_In in Hv as [Hin Hnot].
  apply startsWith_inv in H as [rest ->]. exists v, rest.
  split; [now rewrite <- app_assoc|]. split; [exact Hin|].
  intros Hbad. apply negb_true_iff in Hnot.
  assert (existsb (String.eqb v) voidAndBlockNames = true); [|congruence].
  apply existsb_exists. exists v. split; [exact Hbad|apply String.eqb_refl].
Qed.

(** ** The rounds of the walk, by the kind of the line *)

Lemma pushed_outLine (indent : jstring) (level : Z) (l : jstring) :
  test closeTags (trim l) = false -> test jspCloseTags (trim l) = false ->
  outLine indent level l = pushed indent (Z.to_nat level) l.
Proof.
  intros H1 H2. unfold outLine, pushed, lineLevel. now rewrite H1, H2.
Qed.

Lemma neutral_step (indent : jstring) (level : Z) (l : jstring) :
  test closeTags (trim l) = false -> test jspCloseTags (trim l) = false ->
  test selfCloseTags (trim l) = true
  \/ (test openTags (trim l) = false /\ test jspOpenTags (trim l) = false) ->
  nextLevel level l = level
  /\ outLine indent level l = pushed indent (Z.to_nat level) l.
Proof.
  intros H1 H2 H3. split; [|now apply pushed_outLine].
  unfold nextLevel, lineLevel. rewrite H1, H2. cbn [orb].
  destruct (trim l); [reflexivity|].
  destruct H3 as [-> | [-> ->]]; [reflexivity|]. now destruct (negb _).
Qed.

Lemma leaf_step (indent : jstring) (level : Z) (l : jstring) :
  isLeafLine (trim l) = true ->
  nextLevel level l = level
  /\ outLine indent level l = pushed indent (Z.to_nat level) l.
Proof.
  intros H. destruct (trim l) as [|c t] eqn:E.
  - unfold nextLevel, outLine, pushed. now rewrite E.
  - rewrite <- E in H. unfold isLeafLine in H.
    apply orb_prop in H as [H | H]; [apply orb_prop in H as [H | H];
      [apply orb_prop in H as [H | H]|]|].
    + rewrite E in H. cbn [isTextLine] in H. apply negb_true_iff in H.
      destruct (text_line_tests c t H) as (H1 & H2 & H3 & H4).
      apply neutral_step; rewrite E; auto.
    + apply startsWith_inv in H as [rest H]. cbn [js map list_ascii_of_string app] in H.
      destruct (bang_line_tests rest) as (H1 & H2 & H3 & H4).
      apply neutral_step; rewrite H; auto.
    + apply isSelfClosingLine_inv in H as (c' & body & H & Hc & Hb).
      destruct (not_close_tests c' (body ++ [ch "/"; ch ">"]) Hc) as [H1 H2].
      pose proof (selfClosing_line_test c' body Hc Hb) as H3.
      apply neutral_step; rewrite H; auto.
    + apply isVoidLine_inv in H as (name & rest & H & Hin & Hnot).
      destruct (void_line_tests name rest Hin Hnot) as (H1 & H2 & H3 & H4).
      apply neutral_step; rewrite H; auto.
Qed.

Lemma open_step (indent : jstring) (level : Z) (l : jstring) :
  isOpenLine (trim l) = true ->
  nextLevel level l = (level + 1)%Z
  /\ outLine indent level l = pushed indent (Z.to_nat level) l.
Proof.
  intros H. apply isOpenLine_inv in H as (c & x & body & H & Hc & Hb & Hx & Hv).
  destruct (not_close_tests c (body ++ [x; ch ">"]) Hc) as [H1 H2].
  destruct (open_line_tests c x body Hc Hb Hx Hv) as [H3 H4].
  split; [|apply pushed_outLine; rewrite H; assumption].
  unfold nextLevel, lineLevel. rewrite H, H1, H2, H3, H4. reflexivity.
Qed.

Lemma close_step (indent : jstring) (level : Z) (l : jstring) :
  isCloseLine (trim l) = true ->
  nextLevel level l = Z.max 0 (level - 1)
  /\ outLine indent level l = pushed indent (Z.to_nat (Z.max 0 (level - 1))) l.
Proof.
  intros H. apply isCloseLine_inv in H as (c & body & H & Hc & Hb).
  destruct (close_line_tests c body Hc Hb) as (H1 & H2 & H3).
  unfold nextLevel, outLine, pushed, lineLevel. rewrite H, H1, H2, H3. cbn [orb].
  split; [now destruct (negb _)|reflexivity].
Qed.

(** ** Markup laid out *)

Lemma linesOf_noLF (m : markup) :
  wellFormed m = true -> forallb noLF (linesOf m) = true.
Proof.
  induction m as [l|o b c IH] using markup_nested_ind; cbn [wellFormed linesOf].
  - intros H. apply andb_prop in H as [H _]. cbn. now rewrite H.
  - intros H. repeat (apply andb_prop in H as [H ?]).
    cbn [forallb]. rewrite forallb_app. cbn [forallb].
    rewrite H. match goal with H : noLF c = true |- _ => rewrite H end.
    rewrite !andb_true_r. cbn [andb].
    match goal with H : forallb wellFormed b = true |- _ => rename H into Hb end.
    clear - IH Hb. induction IH as [|x b Hx _ IHb]; [reflexivity|].
    cbn [forallb] in Hb. apply andb_prop in Hb as [Hx' Hb].
    cbn [flat_map]. rewrite forallb_app, (Hx Hx'), (IHb Hb). reflexivity.
Qed.

Lemma walk_markup (indent : jstring) (m : markup) :
  wellFormed m = true ->
  forall depth rest,
    walkFrom indent (Z.of_nat depth) (linesOf m ++ rest)
    = layout indent depth m ++ walkFrom indent (Z.of_nat depth) rest.
Proof.
  induction m as [l|o b c IH] using markup_nested_ind; cbn [wellFormed linesOf layout];
    intros H depth rest.
  - apply andb_prop in H as [_ H].
    destruct (leaf_step indent (Z.of_nat depth) l H) as [Hn Ho].
    cbn [app walkFrom]. now rewrite Hn, Ho, Nat2Z.id.
  - repeat (apply andb_prop in H as [H ?]).
    match goal with H : isOpenLine (trim o) = true |- _ =>
      destruct (open_step indent (Z.of_nat depth) o H) as [Hn Ho] end.
    match goal with H : isCloseLine (trim c) = true |- _ =>
      destruct (close_step indent (Z.of_nat (S depth)) c H) as [Hn' Ho'] end.
    match goal with H : forallb wellFormed b = true |- _ => rename H into Hb end.
    cbn [app walkFrom]. rewrite Hn, Ho, Nat2Z.id. f_equal.
    replace (Z.of_nat depth + 1)%Z with (Z.of_nat (S depth)) by lia.
    rewrite <- !app_assoc.
    assert (Hin : forall tail,
               walkFrom indent (Z.of_nat (S depth)) (flat_map linesOf b ++ tail)
               = flat_map (layout indent (S depth)) b
                 ++ walkFrom indent (Z.of_nat (S depth)) tail).
    { clear - IH Hb. induction IH as [|x b Hx _ IHb]; intros tail; [reflexivity|].
      cbn [forallb] in Hb. apply andb_prop in Hb as [Hx' Hb].
      cbn [flat_map]. rewrite <- !app_assoc, (Hx Hx'), (IHb Hb). reflexivity. }
    rewrite Hin. f_equal. cbn [app walkFrom]. rewrite Hn', Ho'.
    replace (Z.max 0 (Z.of_nat (S depth) - 1)) with (Z.of_nat depth) by lia.
    now rewrite Nat2Z.id.
Qed.

Lemma walk_forest (indent : jstring) (forest : list markup) :
  forallb wellFormed forest = true ->
  forall depth,
    walkFrom indent (Z.of_nat depth) (flat_map linesOf forest)
    = flat_map (layout indent depth) forest.
Proof.
  induction forest as [|m forest IH]; intros H depth; [reflexivity|].
  cbn [forallb] in H. apply andb_prop in H as [Hm H].
  cbn [flat_map]. now rewrite (walk_markup indent m Hm), IH.
Qed.

Lemma linesOf_not_nil (m : markup) : linesOf m <> [].
Proof. destruct m; discriminate. Qed.


(** ** Tags of one letter *)

Lemma one_letter_tests (c : char) :
  let s := [ch "<"; c; ch ">"] in
  test closeTags s = false /\ test jspCloseTags s = false
  /\ test openTags s = false /\ test jspOpenTags s = false.
Proof.
  cbv zeta. unfold closeTags, jspCloseTags, openTags, jspOpenTags.
  split; [|split; [|split]]; apply test_false.
  - cbn [seq Lit map list_ascii_of_string]. unfold Chr. walk_pattern.
    rewrite !ends_Cls_cons. destruct (eqc "/" c); reflexivity.
  - cbn [seq Lit map list_ascii_of_string]. unfold Chr at 1 2. walk_pattern.
    rewrite !ends_Cls_cons. destruct (eqc "/" c); [|reflexivity].
    rewrite flat_map_one. vm_compute. reflexivity.
  - cbn [seq]. change (Chr "<") with (Cls (eqc "<")). walk_pattern.
    rewrite ends_NotAhead.
    match goal with |- context [ends true (alts ?l) ?st] =>
      destruct (ends true (alts l) st) end; [|reflexivity].
    walk_pattern. rewrite ends_Cls_cons. destruct (isTagStart c); [|reflexivity].
    rewrite flat_map_one. reflexivity.
  - cbn [seq]. change (Chr "<") with (Cls (eqc "<")). walk_pattern.
    assert (H : ends true (Grp 1 jspBlockNames) (St [ch "<"] [c; ch ">"] []) = []).
    { cbn [ends]. replace (ends true jspBlockNames (St [ch "<"] [c; ch ">"] [])) with (@nil mstate);
        [reflexivity|].
      assert (Hp : forall pfx names,
                 startsWith [c; ch ">"] (js pfx) = false ->
                 ends true (Cat (Lit pfx) (oneOf names)) (St [ch "<"] [c; ch ">"] []) = []).
      { intros pfx names Hs. now rewrite ends_Cat, (ends_Lit_miss pfx _ _ _ Hs). }
      unfold jspBlockNames. rewrite ends_alts. cbn [flat_map].
      rewrite !Hp; try reflexivity;
        cbn [js map list_ascii_of_string startsWith];
        match goal with |- context [(?a =? c)%N] => destruct (a =? c)%N end; reflexivity. }
    now rewrite H.
Qed.

(** ** Lazy repetition up to a closer *)

Lemma iter_lazy_any (fuel : nat) :
  forall suf pre k, length suf < fuel ->
    iter (ends true AnyChar) false fuel (St pre suf k) = forward pre suf k.
Proof.
  induction fuel as [|n IH]; intros suf pre k Hlen; [lia|].
  destruct suf as [|c t]; cbn [iter ends after before caps forward AnyChar].
  - reflexivity.
  - cbn [filter]. unfold progress at 1; cbn [after length].
    replace (length t =? S (length t)) with false by (symmetry; apply Nat.eqb_neq; lia).
    cbn [negb flat_map]. rewrite app_nil_r.
    f_equal. apply IH. cbn [length] in Hlen. lia.
Qed.

Lemma ends_lazyAny (pre suf : jstring) (k : list (nat * jstring)) :
  ends true lazyAny (St pre suf k) = forward pre suf k.
Proof. unfold lazyAny. cbn [ends after before]. apply iter_lazy_any. lia. Qed.

Lemma forward_skip (B : Type) (f : mstate -> list B) (a b : jstring)
    (k : list (nat * jstring)) :
  forall pre,
    (forall a1 a2, a = a1 ++ a2 -> a2 <> [] -> f (St (rev a1 ++ pre) (a2 ++ b) k) = []) ->
    flat_map f (forward pre (a ++ b) k) = flat_map f (forward (rev a ++ pre) b k).
Proof.
  induction a as [|c a IH]; intros pre H; [reflexivity|].
  cbn [app forward flat_map].
  assert (H0 : f (St pre (c :: a ++ b) k) = [])
    by (apply (H [] (c :: a) eq_refl); discriminate).
  rewrite H0. cbn [app rev].
  rewrite IH; [now rewrite <- app_assoc|].
  intros a1 a2 E Hne. specialize (H (c :: a1) a2). cbn [app rev] in H.
  rewrite <- app_assoc in H. apply H; [now rewrite E|exact Hne].
Qed.

Lemma hasPrefix_length (w : window) (s : jstring) :
  hasPrefix w s = true -> length w <= length s.
Proof.
  revert s. induction w as [|p w IH]; intros s H; [cbn; lia|].
  destruct s as [|c s]; [discriminate|]. cbn [hasPrefix] in H.
  apply andb_prop in H as [_ H]. apply IH in H. cbn [length]. lia.
Qed.

Lemma hasPrefix_cut (w : window) (x y : jstring) :
  length w <= length x -> hasPrefix w (x ++ y) = hasPrefix w x.
Proof.
  revert x. induction w as [|p w IH]; intros x H; [now destruct x, y|].
  destruct x as [|c x]; [cbn in H; lia|]. cbn [app hasPrefix].
  rewrite IH; [reflexivity|cbn [length] in H; lia].
Qed.

Lemma hasPrefix_occurs (w : window) (s : jstring) :
  hasPrefix w s = true -> occurs w s = true.
Proof. intros H. destruct s; cbn [occurs]; now rewrite H. Qed.

Lemma ends_lazy_close (C : regex) (wc : window) (body cinit : jstring) (clast : char)
    (post pre : jstring) (k : list (nat * jstring)) :
  litOf C = Some wc -> length wc = S (length cinit) ->
  hasPrefix wc (cinit ++ [clast]) = true ->
  occurs wc (body ++ cinit) = false ->
  exists tl,
    ends true (Cat lazyAny C) (St pre (body ++ (cinit ++ [clast]) ++ post) k)
    = St (rev (cinit ++ [clast]) ++ rev body ++ pre) post k :: tl.
Proof.
  intros HC Hlen Hc Hno. rewrite ends_Cat, ends_lazyAny.
  rewrite forward_skip.
  - assert (Hf : exists tl, forward (rev body ++ pre) ((cinit ++ [clast]) ++ post) k
                            = St (rev body ++ pre) ((cinit ++ [clast]) ++ post) k :: tl).
    { destruct ((cinit ++ [clast]) ++ post); eexists; reflexivity. }
    destruct Hf as [tl ->]. cbn [flat_map].
    rewrite (litOf_ends_eq C wc _ HC). cbn [after before caps].
    rewrite (hasPrefix_app_l wc _ post Hc).
    assert (Hl : length (cinit ++ [clast]) = length wc)
      by (rewrite length_app; cbn [length]; lia).
    rewrite <- Hl, firstn_app, firstn_all, skipn_app, skipn_all, Nat.sub_diag.
    cbn [firstn skipn app]. rewrite app_nil_r. eexists. reflexivity.
  - intros a1 a2 E Hne. rewrite (litOf_ends_eq C wc _ HC). cbn [after].
    destruct (hasPrefix wc (a2 ++ (cinit ++ [clast]) ++ post)) eqn:Eh; [|reflexivity].
    exfalso.
    replace (a2 ++ (cinit ++ [clast]) ++ post)
      with ((a2 ++ cinit) ++ ([clast] ++ post)) in Eh by (now rewrite <- !app_assoc).
    rewrite hasPrefix_cut in Eh.
    + apply hasPrefix_occurs in Eh. apply (occurs_app_r wc a1) in Eh.
      rewrite app_assoc, <- E in Eh. congruence.
    + rewrite length_app. destruct a2; [congruence|cbn [length]; lia].
Qed.

(** ** One match in a text *)

Lemma no_straddle (p : char -> bool) (w : window) (f : char) (pre rest : jstring) :
  rejects f w -> occurs (p :: w) pre = false ->
  forall a1 a2, pre = a1 ++ a2 -> a2 <> [] ->
    hasPrefix (p :: w) (a2 ++ f :: rest) = false.
Proof.
  intros Hf Hpre a1 a2 E Hne.
  destruct (hasPrefix (p :: w) (a2 ++ f :: rest)) eqn:Eh; [|reflexivity]. exfalso.
  destruct a2 as [|x a2]; [congruence|]. cbn [app hasPrefix] in Eh.
  apply andb_prop in Eh as [Hx Eh]. apply (hasPrefix_sep f w Hf) in Eh.
  assert (Ho : occurs (p :: w) (x :: a2) = true).
  { apply hasPrefix_occurs. cbn [hasPrefix]. now rewrite Hx, Eh. }
  apply (occurs_app_r _ a1) in Ho. rewrite <- E in Ho. congruence.
Qed.

Lemma pieces_one_hit (r : regex) (pre R post b : jstring) :
  (forall a1 a2, pre = a1 ++ a2 -> a2 <> [] ->
                 hasPrefix (req r) (a2 ++ R ++ post) = false) ->
  R <> [] -> matchAt r (rev pre ++ []) (R ++ post) = Some (St b post []) ->
  pieces r (rev R ++ rev pre ++ []) post 0 = map Text post ->
  pieces r [] (pre ++ R ++ post) 0
  = map Text pre ++ Found (mkHit (rev pre ++ []) (R ++ post) (St b post []))
      :: map Text post.
Proof.
  intros Hpre Hne Hm Hpost. rewrite (pieces_text_prefix r (R ++ post) pre [] Hpre).
  f_equal. rewrite (pieces_hit r (rev pre ++ []) R post b Hne Hm). now rewrite Hpost.
Qed.

Lemma replaceAllWith_one_hit (r : regex) (prefix : string)
    (transform : jstring -> jstring) (st : store) (pre R post b : jstring) :
  (forall a1 a2, pre = a1 ++ a2 -> a2 <> [] ->
                 hasPrefix (req r) (a2 ++ R ++ post) = false) ->
  R <> [] -> matchAt r (rev pre ++ []) (R ++ post) = Some (St b post []) ->
  pieces r (rev R ++ rev pre ++ []) post 0 = map Text post ->
  replaceAllWith r (preserve prefix transform) st (pre ++ R ++ post)
  = ((S (fst st),
      mapSet (js prefix ++ numToString (fst st) ++ js "__") (transform R) (snd st)),
     pre ++ (js prefix ++ numToString (fst st) ++ js "__") ++ post).
Proof.
  intros Hpre Hne Hm Hpost. unfold replaceAllWith.
  rewrite (pieces_one_hit r pre R post b Hpre Hne Hm Hpost).
  rewrite emit_app_Text, emit_Found_Text.
  unfold mkHit. cbn [matched]. rewrite span_app. reflexivity.
Qed.

(** ** A stored text put back and carried to the output *)

Lemma getSubstitution_inert (h : hit) (v : jstring) :
  occurs wDollar v = false -> getSubstitution 0 h v = v.
Proof.
  induction v as [|c rest IH]; intros H; [reflexivity|].
  rewrite occurs_cons in H. apply orb_false_iff in H as [Hh Ho].
  specialize (IH Ho). cbn [getSubstitution].
  destruct (eqc "$" c) eqn:Ec; cbn [negb]; [|now rewrite IH].
  destruct rest as [|d rest']; [reflexivity|].
  unfold wDollar in Hh. cbn [hasPrefix] in Hh. rewrite Ec, andb_true_r in Hh.
  cbn [andb] in Hh. apply orb_false_iff in Hh as [Hh H4].
  apply orb_false_iff in Hh as [Hh H3]. apply orb_false_iff in Hh as [H1 H2].
  rewrite H1, H2, H3, H4.
  destruct (isDigit d); [|now rewrite IH].
  assert (Hg : forall n, (1 <=? n) && (n <=? 0) = false) by (intros [|n]; reflexivity).
  destruct rest' as [|d2 rest''].
  - rewrite Hg. now rewrite IH.
  - rewrite <- andb_assoc, !Hg, andb_false_r. now rewrite IH.
Qed.

Lemma lead_le_app (u x : jstring) : lead u <= lead (u ++ x).
Proof.
  induction u as [|c u IH]; [cbn; lia|]. cbn [app]. rewrite !lead_cons_LF.
  destruct (isLF c); lia.
Qed.

Lemma maxRun_le_app (u x : jstring) : maxRun u <= maxRun (u ++ x).
Proof.
  induction u as [|c u IH]; [cbn; lia|]. cbn [app maxRun].
  pose proof (lead_le_app (c :: u) x) as H. cbn [app] in H. lia.
Qed.

Lemma isSpace_LF (c : char) : isSpace c = false -> isLF c = false.
Proof.
  intros H. destruct (isLF c) eqn:E; [|reflexivity].
  unfold isLF in E. apply N.eqb_eq in E. subst c. discriminate H.
Qed.


Lemma firmEnds_inv (v : jstring) :
  firmEnds v = true ->
  exists f u w l,
    v = f :: u /\ v = w ++ [l] /\ isSpace f = false /\ isSpace l = false.
Proof.
  unfold firmEnds. intros H. apply andb_prop in H as [Hf Hl].
  destruct v as [|f u]; [discriminate|].
  destruct (rev (f :: u)) as [|l w] eqn:E; [discriminate|].
  apply rev_eq_cons in E. exists f, u, (rev w), l.
  split; [reflexivity|]. split; [exact E|]. now split; apply negb_true_iff.
Qed.

Lemma capSpec_block (m : nat) (v b : jstring) :
  firmEnds v = true -> maxRun v <= m + 1 ->
  forall a inRun, exists a' b', capSpec m inRun (a ++ v ++ b) = a' ++ v ++ b'.
Proof.
  intros Hv Hrun. destruct (firmEnds_inv v Hv) as (f & u & w & l & Ef & El & Hf & Hl).
  assert (H1 : capSpec m false (v ++ b) = v ++ capSpec m false b).
  { rewrite El, <- !app_assoc. cbn [app].
    apply capSpec_short_app; [now apply isSpace_LF|].
    pose proof (maxRun_le_app w [l]) as H. rewrite <- El in H. lia. }
  apply capSpec_keeps; [exact H1|]. rewrite <- H1, Ef. cbn [app].
  apply capSpec_inRun_other. now apply isSpace_LF.
Qed.

(** The text stored under a key that is in the skeleton comes into the
    output as it is, when it is inert, has no white space at its ends
    and no run of line feeds that the cap would cut. *)
Lemma value_kept (key value skeleton : jstring) (options : FormatOptions) :
  key <> [] -> forallb (fun k => negb (isSpace k)) key = true ->
  occurs (exact key) skeleton = true ->
  inert value = true -> runsAllowed options value -> firmEnds value = true ->
  exists a b,
    endWithNewline
      (capNewlines options
         (restore [(key, value)] (formatHtmlStructure skeleton options)))
    = a ++ value ++ b.
Proof.
  intros Hne Hkey Hocc Hin Hruns Hfirm.
  apply (occurs_formatHtmlStructure_fwd _ _ options (exact_solid key Hne Hkey)) in Hocc.
  cbn [restore fold_left fst snd].
  destruct (replaceStr_hit key value _ [] Hocc) as (a1 & b1 & h & ->).
  unfold inert in Hin. apply negb_true_iff in Hin.
  rewrite (getSubstitution_inert h value Hin). cbn [rev app].
  rewrite endWithNewline_spec, capNewlines_spec.
  assert (Hcap : exists a2 b2,
             (if preserveNewlines options
              then capSpec (maxPreserveNewlines options) false (a1 ++ value ++ b1)
              else a1 ++ value ++ b1)
             = a2 ++ value ++ b2).
  { destruct Hruns as [-> | Hrun]; [now exists a1, b1|].
    destruct (preserveNewlines options); [|now exists a1, b1].
    now apply capSpec_block. }
  destruct Hcap as (a2 & b2 & ->).
  destruct (firmEnds_inv value Hfirm) as (f & u & w & l & _ & El & _ & Hl).
  exists a2, (endSpec b2). rewrite El.
  replace (a2 ++ (w ++ [l]) ++ b2) with ((a2 ++ w) ++ l :: b2)
    by (rewrite <- !app_assoc; reflexivity).
  rewrite (endSpec_keeps _ _ _ Hl). now rewrite <- !app_assoc.
Qed.

Lemma formatJsp_one_region (text key value skeleton : jstring) (options : FormatOptions) :
  extractRegions text options = ((1, [(key, value)]), skeleton) ->
  key <> [] -> forallb (fun k => negb (isSpace k)) key = true ->
  occurs (exact key) skeleton = true ->
  inert value = true -> runsAllowed options value -> firmEnds value = true ->
  exists a b, formatJsp text options = a ++ value ++ b.
Proof.
  intros E. unfold formatJsp. rewrite E. cbn [snd]. apply value_kept.
Qed.

(** ** One raw block in a text without regions *)

Lemma occurs_head_sep (p : char -> bool) (w : window) (c : char) (x y : jstring) :
  rejects c w -> occurs (p :: w) x = false -> occurs (p :: w) (c :: y) = false ->
  occurs (p :: w) (x ++ c :: y) = false.
Proof.
  intros Hc Hx Hy. induction x as [|d x IH]; [exact Hy|].
  rewrite occurs_cons in Hx. apply orb_false_iff in Hx as [Hd Hx].
  cbn [app]. rewrite occurs_cons, (IH Hx), orb_false_r.
  destruct (hasPrefix (p :: w) (d :: x ++ c :: y)) eqn:E; [|reflexivity].
  cbn [hasPrefix] in E, Hd. apply andb_prop in E as [Ep E].
  apply (hasPrefix_sep c w Hc) in E. now rewrite Ep, E in Hd.
Qed.

Lemma key_fits (w : window) (mid pre post : jstring) :
  w <> [] -> rejects (ch "_") w -> occurs w mid = false ->
  occurs w pre = false -> occurs w post = false ->
  occurs w (pre ++ (ch "_" :: mid ++ [ch "_"]) ++ post) = false.
Proof. intros. now apply occurs_around. Qed.

Lemma matchAt_raw_block (O C : regex) (wo wc : window) (o body cinit : jstring)
    (clast : char) (post pre : jstring) :
  litOf O = Some wo -> length o = length wo -> hasPrefix wo o = true ->
  litOf C = Some wc -> length wc = S (length cinit) ->
  hasPrefix wc (cinit ++ [clast]) = true ->
  occurs wc (body ++ cinit) = false ->
  exists b,
    matchAt (Cat O (Cat lazyAny C)) pre ((o ++ body ++ cinit ++ [clast]) ++ post)
    = Some (St b post []).
Proof.
  intros HO Hlo Ho HC Hlc Hc Hno. unfold matchAt. rewrite ends_Cat.
  rewrite (litOf_ends_eq O wo _ HO). cbn [after before caps].
  rewrite <- !app_assoc, (hasPrefix_app_l wo o _ Ho).
  rewrite <- Hlo, firstn_app, firstn_all, skipn_app, skipn_all, Nat.sub_diag.
  cbn [firstn skipn app]. rewrite app_nil_r, flat_map_one.
  replace (body ++ cinit ++ clast :: post) with (body ++ (cinit ++ [clast]) ++ post)
    by (now rewrite <- !app_assoc).
  destruct (ends_lazy_close C wc body cinit clast post (rev o ++ pre) [] HC Hlc Hc Hno)
    as [tl ->].
  eexists. reflexivity.
Qed.

(** The steps over the code units of a literal part of a text, at none
    of which the window fits. *)
Ltac lit_false :=
  repeat (rewrite occurs_cons;
          match goal with
          | |- context [hasPrefix ?w (?c :: ?s)] => change (hasPrefix w (c :: s)) with false
          end;
          cbn [orb]).

(** A window that begins with [<], [$] or [#] and goes on with code
    units that are not [<] fits nowhere in a raw block whose body it
    does not fit in, between two parts that it does not fit in. *)
Ltac raw_block_free p w Hpre Hbody Hpost :=
  rewrite <- ?app_assoc; cbn [js map list_ascii_of_string app];
  apply (occurs_head_sep p w (ch "<") _ _); [reject|exact Hpre|];
  lit_false;
  apply (occurs_head_sep p w (ch "<") _ _); [reject|exact Hbody|];
  lit_false; exact Hpost.

Lemma extractRegions_script (pre body post : jstring) (options : FormatOptions) :
  regionFree pre = true -> regionFree post = true ->
  occurs wJsp body = false -> occurs wEL body = false -> occurs wDEL body = false ->
  occurs wScriptEnd (body ++ js "</script") = false ->
  extractRegions (pre ++ (js "<script" ++ body ++ js "</script>") ++ post) options
  = ((1, [(js "__SCRIPT_0__", js "<script" ++ body ++ js "</script>")]),
     pre ++ js "__SCRIPT_0__" ++ post).
Proof.
  intros Hpre Hpost BJ BE BD Hend.
  apply regionFree_windows in Hpre as (PJ & PE & PD & PS & PY).
  apply regionFree_windows in Hpost as (QJ & QE & QD & QS & QY).
  assert (HJ : occurs wJsp (pre ++ (js "<script" ++ body ++ js "</script>") ++ post) = false)
    by (raw_block_free (eqc "<") [eqc "%"] PJ BJ QJ).
  assert (HE : occurs wEL (pre ++ (js "<script" ++ body ++ js "</script>") ++ post) = false)
    by (raw_block_free (eqc "$") [eqc "{"] PE BE QE).
  assert (HD : occurs wDEL (pre ++ (js "<script" ++ body ++ js "</script>") ++ post) = false)
    by (raw_block_free (eqc "#") [eqc "{"] PD BD QD).
  unfold extractRegions.
  rewrite (replaceAllWith_no_hit store reComment wJsp); [|apply (hasPrefix_weaken wJsp)|exact HJ].
  rewrite (replaceAllWith_no_hit store reDeclaration wJsp); [|apply (hasPrefix_weaken wJsp)|exact HJ].
  rewrite (replaceAllWith_no_hit store reExpression wJsp); [|apply (hasPrefix_weaken wJsp)|exact HJ].
  rewrite (replaceAllWith_no_hit store reScriptlet wJsp); [|apply (hasPrefix_weaken wJsp)|exact HJ].
  rewrite (replaceAllWith_no_hit store reDirective wJsp); [|apply (hasPrefix_weaken wJsp)|exact HJ].
  rewrite (replaceAllWith_no_hit store reEL wEL); [|apply (hasPrefix_weaken wEL)|exact HE].
  rewrite (replaceAllWith_no_hit store reDEL wDEL); [|apply (hasPrefix_weaken wDEL)|exact HD].
  destruct (matchAt_raw_block (LitI "<script") (LitI "</script>") wScript wScriptEnd
              (js "<script") body (js "</script") (ch ">") post (rev pre ++ []))
    as [b Hm]; try reflexivity; [exact Hend|].
  change (js "</script" ++ [ch ">"]) with (js "</script>") in Hm.
  rewrite (replaceAllWith_one_hit reScript "__SCRIPT_" (fun m => m) (0, []) pre
             (js "<script" ++ body ++ js "</script>") post b).
  - cbn [fst snd mapSet].
    change (js "__SCRIPT_" ++ numToString 0 ++ js "__") with (js "__SCRIPT_0__").
    rewrite (replaceAllWith_no_hit store reStyle wStyle); [reflexivity|apply (hasPrefix_weaken wStyle)|].
    change (js "__SCRIPT_0__") with (ch "_" :: js "_SCRIPT_0_" ++ [ch "_"]).
    apply key_fits; try assumption; try discriminate; try reflexivity; reject.
  - intros a1 a2 E Hne.
    destruct (hasPrefix (req reScript) (a2 ++ (js "<script" ++ body ++ js "</script>") ++ post))
      eqn:Eh; [|reflexivity].
    apply (hasPrefix_weaken wScript) in Eh.
    rewrite <- app_assoc in Eh. cbn [js map list_ascii_of_string app] in Eh.
    rewrite (no_straddle (eqci "<") (map eqci (list_ascii_of_string "script")) (ch "<")
               pre _ ltac:(reject) PS a1 a2 E Hne) in Eh. discriminate.
  - discriminate.
  - exact Hm.
  - apply (pieces_no_hit reScript wScript); [apply (hasPrefix_weaken wScript)|exact QS].
Qed.


Lemma extractRegions_style (pre body post : jstring) (options : FormatOptions) :
  regionFree pre = true -> regionFree post = true ->
  occurs wJsp body = false -> occurs wEL body = false -> occurs wDEL body = false ->
  occurs wScript body = false ->
  occurs wStyleEnd (body ++ js "</style") = false ->
  extractRegions (pre ++ (js "<style" ++ body ++ js "</style>") ++ post) options
  = ((1, [(js "__STYLE_0__", js "<style" ++ body ++ js "</style>")]),
     pre ++ js "__STYLE_0__" ++ post).
Proof.
  intros Hpre Hpost BJ BE BD BS Hend.
  apply regionFree_windows in Hpre as (PJ & PE & PD & PS & PY).
  apply regionFree_windows in Hpost as (QJ & QE & QD & QS & QY).
  assert (HJ : occurs wJsp (pre ++ (js "<style" ++ body ++ js "</style>") ++ post) = false)
    by (raw_block_free (eqc "<") [eqc "%"] PJ BJ QJ).
  assert (HE : occurs wEL (pre ++ (js "<style" ++ body ++ js "</style>") ++ post) = false)
    by (raw_block_free (eqc "$") [eqc "{"] PE BE QE).
  assert (HD : occurs wDEL (pre ++ (js "<style" ++ body ++ js "</style>") ++ post) = false)
    by (raw_block_free (eqc "#") [eqc "{"] PD BD QD).
  assert (HS : occurs wScript (pre ++ (js "<style" ++ body ++ js "</style>") ++ post) = false)
    by (raw_block_free (eqci "<") (map eqci (list_ascii_of_string "script")) PS BS QS).
  unfold extractRegions.
  rewrite (replaceAllWith_no_hit store reComment wJsp); [|apply (hasPrefix_weaken wJsp)|exact HJ].
  rewrite (replaceAllWith_no_hit store reDeclaration wJsp); [|apply (hasPrefix_weaken wJsp)|exact HJ].
  rewrite (replaceAllWith_no_hit store reExpression wJsp); [|apply (hasPrefix_weaken wJsp)|exact HJ].
  rewrite (replaceAllWith_no_hit store reScriptlet wJsp); [|apply (hasPrefix_weaken wJsp)|exact HJ].
  rewrite (replaceAllWith_no_hit store reDirective wJsp); [|apply (hasPrefix_weaken wJsp)|exact HJ].
  rewrite (replaceAllWith_no_hit store reEL wEL); [|apply (hasPrefix_weaken wEL)|exact HE].
  rewrite (replaceAllWith_no_hit store reDEL wDEL); [|apply (hasPrefix_weaken wDEL)|exact HD].
  rewrite (replaceAllWith_no_hit store reScript wScript); [|apply (hasPrefix_weaken wScript)|exact HS].
  destruct (matchAt_raw_block (LitI "<style") (LitI "</style>") wStyle wStyleEnd
              (js "<style") body (js "</style") (ch ">") post (rev pre ++ []))
    as [b Hm]; try reflexivity; [exact Hend|].
  change (js "</style" ++ [ch ">"]) with (js "</style>") in Hm.
  rewrite (replaceAllWith_one_hit reStyle "__STYLE_" (fun m => m) (0, []) pre
             (js "<style" ++ body ++ js "</style>") post b).
  - reflexivity.
  - intros a1 a2 E Hne.
    destruct (hasPrefix (req reStyle) (a2 ++ (js "<style" ++ body ++ js "</style>") ++ post))
      eqn:Eh; [|reflexivity].
    apply (hasPrefix_weaken wStyle) in Eh.
    rewrite <- app_assoc in Eh. cbn [js map list_ascii_of_string app] in Eh.
    rewrite (no_straddle (eqci "<") (map eqci (list_ascii_of_string "style")) (ch "<")
               pre _ ltac:(reject) PY a1 a2 E Hne) in Eh. discriminate.
  - discriminate.
  - exact Hm.
  - apply (pieces_no_hit reStyle wStyle); [apply (hasPrefix_weaken wStyle)|exact QY].
Qed.

(** ** A block between two literal parts *)

Lemma maxRun_app_other (u b : jstring) (z : char) :
  isLF z = false -> maxRun (u ++ z :: b) <= Nat.max (maxRun u) (maxRun b).
Proof.
  intros Hz. induction u as [|c u IH].
  - cbn [app maxRun]. rewrite lead_cons_LF, Hz. lia.
  - pose proof (lead_app_other (c :: u) b z Hz) as Hl.
    cbn [app maxRun] in *. rewrite Hl. lia.
Qed.

Lemma firmEnds_between (f l : char) (x y body : jstring) :
  isSpace f = false -> isSpace l = false ->
  firmEnds ((f :: x) ++ body ++ y ++ [l]) = true.
Proof.
  intros Hf Hl. unfold firmEnds. cbn [app]. rewrite Hf. cbn [negb andb].
  change (f :: x ++ body ++ y ++ [l]) with ((f :: x) ++ body ++ y ++ [l]).
  rewrite !app_assoc, rev_app_distr. cbn [rev app]. now rewrite Hl.
Qed.

Lemma rawBodyOK_inv (body : jstring) :
  rawBodyOK body = true ->
  occurs wJsp body = false /\ occurs wEL body = false /\ occurs wDEL body = false.
Proof.
  unfold rawBodyOK. intros H. split_andb.
  repeat split; now apply negb_true_iff.
Qed.

Lemma runsAllowed_between (options : FormatOptions) (body x y : jstring) (z : char) :
  runsAllowed options body -> maxRun x = 0 -> isLF z = false -> maxRun y = 0 ->
  runsAllowed options (x ++ body ++ z :: y).
Proof.
  intros [H | H] Hx Hz Hy; [now left|]. right.
  assert (Hb : maxRun (body ++ z :: y) <= maxPreserveNewlines options + 1).
  { pose proof (maxRun_app_other body y z Hz). lia. }
  revert Hx. generalize (body ++ z :: y) Hb. clear. intros s Hs.
  induction x as [|c x IH]; intros Hx; [exact Hs|].
  cbn [app maxRun] in *. pose proof (lead_le_maxRun ((c :: x) ++ s)).
  assert (Hl : lead (c :: x) = 0) by lia.
  assert (Hm : maxRun x = 0) by lia.
  specialize (IH Hm). rewrite lead_cons_LF in *.
  destruct (isLF c); [lia|]. lia.
Qed.

Lemma occurs_skip_absent (p : char -> bool) (w : window) (x s : jstring) :
  forallb (fun c => negb (p c)) x = true -> occurs (p :: w) (x ++ s) = occurs (p :: w) s.
Proof.
  induction x as [|c x IH]; intros H; [reflexivity|].
  cbn [forallb] in H. apply andb_prop in H as [Hc Hx]. apply negb_true_iff in Hc.
  cbn [app]. rewrite occurs_cons. cbn [hasPrefix]. rewrite Hc. cbn [andb orb].
  apply IH, Hx.
Qed.

Lemma inert_between (x body y : jstring) :
  forallb (fun c => negb (eqc "$" c)) x = true ->
  forallb (fun c => negb (eqc "$" c)) (ch "<" :: y) = true ->
  inert body = true -> inert (x ++ body ++ ch "<" :: y) = true.
Proof.
  intros Hx Hy Hb. unfold inert in *. apply negb_true_iff in Hb. apply negb_true_iff.
  unfold wDollar. rewrite occurs_skip_absent by exact Hx.
  apply occurs_head_sep; [reject|exact Hb|].
  now apply occurs_first_absent.
Qed.

Lemma scriptBlock_kept (pre body post : jstring) (options : FormatOptions) :
  regionFree pre = true -> regionFree post = true -> rawBodyOK body = true ->
  occurs wScriptEnd (body ++ js "</script") = false ->
  inert body = true -> runsAllowed options body ->
  exists a b,
    formatJsp (pre ++ scriptBlock body ++ post) options = a ++ scriptBlock body ++ b.
Proof.
  intros Hpre Hpost Hbody Hend Hin Hruns.
  apply rawBodyOK_inv in Hbody as (BJ & BE & BD). unfold scriptBlock.
  apply (formatJsp_one_region _ (js "__SCRIPT_0__") _ (pre ++ js "__SCRIPT_0__" ++ post)).
  - now apply extractRegions_script.
  - discriminate.
  - reflexivity.
  - apply occurs_exact.
  - apply (inert_between (js "<script") body (js "/script>")); [reflexivity|reflexivity|exact Hin].
  - apply (runsAllowed_between options body (js "<script") (js "/script>") (ch "<"));
      [exact Hruns|reflexivity|reflexivity|reflexivity].
  - apply (firmEnds_between (ch "<") (ch ">") (js "script") (js "</script") body);
      reflexivity.
Qed.

Lemma styleBlock_kept (pre body post : jstring) (options : FormatOptions) :
  regionFree pre = true -> regionFree post = true -> rawBodyOK body = true ->
  occurs wScript body = false ->
  occurs wStyleEnd (body ++ js "</style") = false ->
  inert body = true -> runsAllowed options body ->
  exists a b,
    formatJsp (pre ++ styleBlock body ++ post) options = a ++ styleBlock body ++ b.
Proof.
  intros Hpre Hpost Hbody BS Hend Hin Hruns.
  apply rawBodyOK_inv in Hbody as (BJ & BE & BD). unfold styleBlock.
  apply (formatJsp_one_region _ (js "__STYLE_0__") _ (pre ++ js "__STYLE_0__" ++ post)).
  - now apply extractRegions_style.
  - discriminate.
  - reflexivity.
  - apply occurs_exact.
  - apply (inert_between (js "<style") body (js "/style>")); [reflexivity|reflexivity|exact Hin].
  - apply (runsAllowed_between options body (js "<style") (js "/style>") (ch "<"));
      [exact Hruns|reflexivity|reflexivity|reflexivity].
  - apply (firmEnds_between (ch "<") (ch ">") (js "style") (js "</style") body);
      reflexivity.
Qed.

(** ** One block of the page language in a text without regions *)

Lemma occurs_weaken (x y : window) (s : jstring) :
  occurs x s = false -> occurs (x ++ y) s = false.
Proof.
  induction s as [|c s IH]; intros H.
  - cbn [occurs] in *. rewrite orb_false_r in *.
    destruct (hasPrefix (x ++ y) []) eqn:E; [|reflexivity].
    apply hasPrefix_weaken in E. congruence.
  - rewrite occurs_cons in *. apply orb_false_iff in H as [H1 H2].
    rewrite (IH H2), orb_false_r.
    destruct (hasPrefix (x ++ y) (c :: s)) eqn:E; [|reflexivity].
    apply hasPrefix_weaken in E. congruence.
Qed.

(** The steps after the one that took the block out find nothing in the
    skeleton. *)
Ltac skeleton_free key mid :=
  change key with (ch "_" :: mid ++ [ch "_"]);
  apply key_fits; try assumption; try discriminate; try reflexivity; reject.

Lemma extractRegions_comment (pre body post : jstring) (options : FormatOptions) :
  regionFree pre = true -> regionFree post = true ->
  occurs wCommentEnd (body ++ js "--%") = false ->
  extractRegions (pre ++ commentBlock body ++ post) options
  = ((1, [(js "__JSP_COMMENT_0__", formatJspComment (commentBlock body) options)]),
     pre ++ js "__JSP_COMMENT_0__" ++ post).
Proof.
  intros Hpre Hpost Hend. unfold commentBlock.
  apply regionFree_windows in Hpre as (PJ & PE & PD & PS & PY).
  apply regionFree_windows in Hpost as (QJ & QE & QD & QS & QY).
  unfold extractRegions.
  destruct (matchAt_raw_block (Lit "<%--") (Lit "--%>")
              (map eqc (list_ascii_of_string "<%--")) wCommentEnd
              (js "<%--") body (js "--%") (ch ">") post (rev pre ++ []))
    as [b Hm]; try reflexivity; [exact Hend|].
  change (js "--%" ++ [ch ">"]) with (js "--%>") in Hm.
  rewrite (replaceAllWith_one_hit reComment "__JSP_COMMENT_"
             (fun m => formatJspComment m options) (0, []) pre
             (js "<%--" ++ body ++ js "--%>") post b).
  - cbn [fst snd mapSet].
    change (js "__JSP_COMMENT_" ++ numToString 0 ++ js "__") with (js "__JSP_COMMENT_0__").
    assert (HJ : occurs wJsp (pre ++ js "__JSP_COMMENT_0__" ++ post) = false)
      by (skeleton_free (js "__JSP_COMMENT_0__") (js "_JSP_COMMENT_0_")).
    rewrite (replaceAllWith_no_hit store reDeclaration wJsp); [|apply (hasPrefix_weaken wJsp)|exact HJ].
    rewrite (replaceAllWith_no_hit store reExpression wJsp); [|apply (hasPrefix_weaken wJsp)|exact HJ].
    rewrite (replaceAllWith_no_hit store reScriptlet wJsp); [|apply (hasPrefix_weaken wJsp)|exact HJ].
    rewrite (replaceAllWith_no_hit store reDirective wJsp); [|apply (hasPrefix_weaken wJsp)|exact HJ].
    rewrite (replaceAllWith_no_hit store reEL wEL); [|apply (hasPrefix_weaken wEL)|
      skeleton_free (js "__JSP_COMMENT_0__") (js "_JSP_COMMENT_0_")].
    rewrite (replaceAllWith_no_hit store reDEL wDEL); [|apply (hasPrefix_weaken wDEL)|
      skeleton_free (js "__JSP_COMMENT_0__") (js "_JSP_COMMENT_0_")].
    rewrite (replaceAllWith_no_hit store reScript wScript); [|apply (hasPrefix_weaken wScript)|
      skeleton_free (js "__JSP_COMMENT_0__") (js "_JSP_COMMENT_0_")].
    rewrite (replaceAllWith_no_hit store reStyle wStyle); [|apply (hasPrefix_weaken wStyle)|
      skeleton_free (js "__JSP_COMMENT_0__") (js "_JSP_COMMENT_0_")].
    reflexivity.
  - intros a1 a2 E Hne.
    destruct (hasPrefix (req reComment) (a2 ++ (js "<%--" ++ body ++ js "--%>") ++ post))
      eqn:Eh; [|reflexivity].
    apply (hasPrefix_weaken wJsp) in Eh.
    rewrite <- app_assoc in Eh. cbn [js map list_ascii_of_string app] in Eh.
    rewrite (no_straddle (eqc "<") [eqc "%"] (ch "<") pre _ ltac:(reject) PJ a1 a2 E Hne)
      in Eh. discriminate.
  - discriminate.
  - exact Hm.
  - apply (pieces_no_hit reComment wJsp); [apply (hasPrefix_weaken wJsp)|exact QJ].
Qed.

Lemma jsp_tail_free (x body post : jstring) :
  forallb (fun c => negb (eqc "<" c)) x = true ->
  occurs wJsp (body ++ js "%") = false -> occurs wJsp post = false ->
  occurs wJsp (x ++ body ++ js "%>" ++ post) = false.
Proof.
  intros Hx Hb Hp. unfold wJsp. rewrite occurs_skip_absent by exact Hx.
  cbn [js map list_ascii_of_string app].
  replace (body ++ ch "%" :: ch ">" :: post) with ((body ++ [ch "%"]) ++ ch ">" :: post)
    by (now rewrite <- app_assoc).
  apply occurs_head_sep; [reject|exact Hb|]. lit_false. exact Hp.
Qed.

Lemma earlier_step_free (y : window) (pre tail : jstring) :
  rejects (ch "<") y -> occurs wJsp pre = false ->
  hasPrefix (wJsp ++ y) (ch "<" :: tail) = false -> occurs wJsp tail = false ->
  occurs (wJsp ++ y) (pre ++ ch "<" :: tail) = false.
Proof.
  intros Hy Hpre Hh Ht.
  apply (occurs_head_sep (eqc "<") ([eqc "%"] ++ y) (ch "<")).
  - constructor; [reflexivity|exact Hy].
  - now apply (occurs_weaken wJsp y).
  - rewrite occurs_cons.
    change (eqc "<" :: [eqc "%"] ++ y) with (wJsp ++ y).
    now rewrite Hh, (occurs_weaken wJsp y tail Ht).
Qed.

Lemma blockBodyOK_inv (body : jstring) :
  blockBodyOK body = true ->
  occurs wJsp (body ++ js "%") = false /\ occurs wBlockEnd (body ++ js "%") = false.
Proof.
  unfold blockBodyOK. intros H. split_andb. split; now apply negb_true_iff.
Qed.

Lemma extractRegions_declaration (pre body post : jstring) (options : FormatOptions) :
  regionFree pre = true -> regionFree post = true -> blockBodyOK body = true ->
  extractRegions (pre ++ declarationBlock body ++ post) options
  = ((1, [(js "__JSP_DECL_0__", formatJspBlock (declarationBlock body) options)]),
     pre ++ js "__JSP_DECL_0__" ++ post).
Proof.
  intros Hpre Hpost Hbody. unfold declarationBlock.
  apply regionFree_windows in Hpre as (PJ & PE & PD & PS & PY).
  apply regionFree_windows in Hpost as (QJ & QE & QD & QS & QY).
  apply blockBodyOK_inv in Hbody as [BJ Hend].
  assert (Htail : occurs wJsp (js "%!" ++ body ++ js "%>" ++ post) = false)
    by (apply jsp_tail_free; [reflexivity|exact BJ|exact QJ]).
  assert (ET : pre ++ (js "<%!" ++ body ++ js "%>") ++ post
               = pre ++ ch "<" :: (js "%!" ++ body ++ js "%>" ++ post))
    by (now rewrite <- !app_assoc).
  unfold extractRegions.
  rewrite (replaceAllWith_no_hit store reComment (wJsp ++ [eqc "-"; eqc "-"]));
    [|intros u Hu; exact Hu
     |rewrite ET; apply earlier_step_free; [reject|exact PJ|reflexivity|exact Htail]].
  destruct (matchAt_raw_block (Lit "<%!") (Lit "%>")
              (map eqc (list_ascii_of_string "<%!")) wBlockEnd
              (js "<%!") body (js "%") (ch ">") post (rev pre ++ []))
    as [b Hm]; try reflexivity; [exact Hend|].
  change (js "%" ++ [ch ">"]) with (js "%>") in Hm.
  rewrite (replaceAllWith_one_hit reDeclaration "__JSP_DECL_"
             (fun m => formatJspBlock m options) (0, []) pre
             (js "<%!" ++ body ++ js "%>") post b).
  - cbn [fst snd mapSet].
    change (js "__JSP_DECL_" ++ numToString 0 ++ js "__") with (js "__JSP_DECL_0__").
    assert (HJ : occurs wJsp (pre ++ js "__JSP_DECL_0__" ++ post) = false)
      by (skeleton_free (js "__JSP_DECL_0__") (js "_JSP_DECL_0_")).
    rewrite (replaceAllWith_no_hit store reExpression wJsp); [|apply (hasPrefix_weaken wJsp)|exact HJ].
    rewrite (replaceAllWith_no_hit store reScriptlet wJsp); [|apply (hasPrefix_weaken wJsp)|exact HJ].
    rewrite (replaceAllWith_no_hit store reDirective wJsp); [|apply (hasPrefix_weaken wJsp)|exact HJ].
    rewrite (replaceAllWith_no_hit store reEL wEL); [|apply (hasPrefix_weaken wEL)|
      skeleton_free (js "__JSP_DECL_0__") (js "_JSP_DECL_0_")].
    rewrite (replaceAllWith_no_hit store reDEL wDEL); [|apply (hasPrefix_weaken wDEL)|
      skeleton_free (js "__JSP_DECL_0__") (js "_JSP_DECL_0_")].
    rewrite (replaceAllWith_no_hit store reScript wScript); [|apply (hasPrefix_weaken wScript)|
      skeleton_free (js "__JSP_DECL_0__") (js "_JSP_DECL_0_")].
    rewrite (replaceAllWith_no_hit store reStyle wStyle); [|apply (hasPrefix_weaken wStyle)|
      skeleton_free (js "__JSP_DECL_0__") (js "_JSP_DECL_0_")].
    reflexivity.
  - intros a1 a2 E Hne.
    destruct (hasPrefix (req reDeclaration) (a2 ++ (js "<%!" ++ body ++ js "%>") ++ post))
      eqn:Eh; [|reflexivity].
    apply (hasPrefix_weaken wJsp) in Eh.
    rewrite <- app_assoc in Eh. cbn [js map list_ascii_of_string app] in Eh.
    rewrite (no_straddle (eqc "<") [eqc "%"] (ch "<") pre _ ltac:(reject) PJ a1 a2 E Hne)
      in Eh. discriminate.
  - discriminate.
  - exact Hm.
  - apply (pieces_no_hit reDeclaration wJsp); [apply (hasPrefix_weaken wJsp)|exact QJ].
Qed.

Lemma extractRegions_expression (pre body post : jstring) (options : FormatOptions) :
  regionFree pre = true -> regionFree post = true -> blockBodyOK body = true ->
  extractRegions (pre ++ expressionBlock body ++ post) options
  = ((1, [(js "__JSP_EXPR_0__", directiveContent (expressionBlock body))]),
     pre ++ js "__JSP_EXPR_0__" ++ post).
Proof.
  intros Hpre Hpost Hbody. unfold expressionBlock.
  apply regionFree_windows in Hpre as (PJ & PE & PD & PS & PY).
  apply regionFree_windows in Hpost as (QJ & QE & QD & QS & QY).
  apply blockBodyOK_inv in Hbody as [BJ Hend].
  assert (Htail : occurs wJsp (js "%=" ++ body ++ js "%>" ++ post) = false)
    by (apply jsp_tail_free; [reflexivity|exact BJ|exact QJ]).
  assert (ET : pre ++ (js "<%=" ++ body ++ js "%>") ++ post
               = pre ++ ch "<" :: (js "%=" ++ body ++ js "%>" ++ post))
    by (now rewrite <- !app_assoc).
  unfold extractRegions.
  rewrite (replaceAllWith_no_hit store reComment (wJsp ++ [eqc "-"; eqc "-"]));
    [|intros u Hu; exact Hu
     |rewrite ET; apply earlier_step_free; [reject|exact PJ|reflexivity|exact Htail]].
  rewrite (replaceAllWith_no_hit store reDeclaration (wJsp ++ [eqc "!"]));
    [|intros u Hu; exact Hu
     |rewrite ET; apply earlier_step_free; [reject|exact PJ|reflexivity|exact Htail]].
  destruct (matchAt_raw_block (Lit "<%=") (Lit "%>")
              (map eqc (list_ascii_of_string "<%=")) wBlockEnd
              (js "<%=") body (js "%") (ch ">") post (rev pre ++ []))
    as [b Hm]; try reflexivity; [exact Hend|].
  change (js "%" ++ [ch ">"]) with (js "%>") in Hm.
  rewrite (replaceAllWith_one_hit reExpression "__JSP_EXPR_"
             (fun m => trim (replaceAll reSpaces 0 (js " ") m)) (0, []) pre
             (js "<%=" ++ body ++ js "%>") post b).
  - cbn [fst snd mapSet].
    change (js "__JSP_EXPR_" ++ numToString 0 ++ js "__") with (js "__JSP_EXPR_0__").
    assert (HJ : occurs wJsp (pre ++ js "__JSP_EXPR_0__" ++ post) = false)
      by (skeleton_free (js "__JSP_EXPR_0__") (js "_JSP_EXPR_0_")).
    rewrite (replaceAllWith_no_hit store reScriptlet wJsp); [|apply (hasPrefix_weaken wJsp)|exact HJ].
    rewrite (replaceAllWith_no_hit store reDirective wJsp); [|apply (hasPrefix_weaken wJsp)|exact HJ].
    rewrite (replaceAllWith_no_hit store reEL wEL); [|apply (hasPrefix_weaken wEL)|
      skeleton_free (js "__JSP_EXPR_0__") (js "_JSP_EXPR_0_")].
    rewrite (replaceAllWith_no_hit store reDEL wDEL); [|apply (hasPrefix_weaken wDEL)|
      skeleton_free (js "__JSP_EXPR_0__") (js "_JSP_EXPR_0_")].
    rewrite (replaceAllWith_no_hit store reScript wScript); [|apply (hasPrefix_weaken wScript)|
      skeleton_free (js "__JSP_EXPR_0__") (js "_JSP_EXPR_0_")].
    rewrite (replaceAllWith_no_hit store reStyle wStyle); [|apply (hasPrefix_weaken wStyle)|
      skeleton_free (js "__JSP_EXPR_0__") (js "_JSP_EXPR_0_")].
    reflexivity.
  - intros a1 a2 E Hne.
    destruct (hasPrefix (req reExpression) (a2 ++ (js "<%=" ++ body ++ js "%>") ++ post))
      eqn:Eh; [|reflexivity].
    apply (hasPrefix_weaken wJsp) in Eh.
    rewrite <- app_assoc in Eh. cbn [js map list_ascii_of_string app] in Eh.
    rewrite (no_straddle (eqc "<") [eqc "%"] (ch "<") pre _ ltac:(reject) PJ a1 a2 E Hne)
      in Eh. discriminate.
  - discriminate.
  - exact Hm.
  - apply (pieces_no_hit reExpression wJsp); [apply (hasPrefix_weaken wJsp)|exact QJ].
Qed.

Lemma scriptletStart_inv (body : jstring) :
  scriptletStart body = true ->
  exists c rest, body = c :: rest
    /\ (eqc "=" c || eqc "!" c || eqc "@" c || eqc "-" c) = false.
Proof.
  destruct body as [|c rest]; [discriminate|]. cbn [scriptletStart].
  intros H. exists c, rest. split; [reflexivity|]. now apply negb_true_iff.
Qed.

Lemma matchAt_scriptlet (body post pre : jstring) :
  scriptletStart body = true -> occurs wBlockEnd (body ++ js "%") = false ->
  exists b,
    matchAt reScriptlet pre (scriptletBlock body ++ post) = Some (St b post []).
Proof.
  intros Hs Hno. apply scriptletStart_inv in Hs as (c & rest & -> & Hc).
  unfold matchAt, reScriptlet, scriptletBlock.
  cbn [seq]. rewrite ends_Cat.
  rewrite (litOf_ends_eq (Lit "<%") (map eqc (list_ascii_of_string "<%")) _ eq_refl).
  cbn [after before caps]. rewrite <- !app_assoc.
  cbn [js map list_ascii_of_string app hasPrefix length firstn skipn rev].
  change (eqc "<" (ch "<") && (eqc "%" (ch "%") && true)) with true. cbv iota.
  rewrite flat_map_one, ends_Cat, ends_NotAhead, ends_Cls_cons, Hc, flat_map_one.
  destruct (ends_lazy_close (Lit "%>") wBlockEnd (c :: rest) (js "%") (ch ">") post
              (ch "%" :: ch "<" :: pre) [] eq_refl eq_refl eq_refl Hno) as [tl Htl].
  cbn [js map list_ascii_of_string app] in Htl.
  change (ends true (Cat lazyAny (Lit "%>"))
            (St (ch "%" :: ch "<" :: pre) (c :: rest ++ ch "%" :: ch ">" :: post) []))
    with (ends true (Cat lazyAny (Lit "%>"))
            (St (ch "%" :: ch "<" :: pre) (c :: rest ++ ch "%" :: ch ">" :: post) [])) in Htl.
  rewrite Htl.
  eexists. reflexivity.
Qed.

Lemma extractRegions_scriptlet (pre body post : jstring) (options : FormatOptions) :
  regionFree pre = true -> regionFree post = true ->
  blockBodyOK body = true -> scriptletStart body = true ->
  extractRegions (pre ++ scriptletBlock body ++ post) options
  = ((1, [(js "__JSP_SCRIPT_0__", formatJspBlock (scriptletBlock body) options)]),
     pre ++ js "__JSP_SCRIPT_0__" ++ post).
Proof.
  intros Hpre Hpost Hbody Hstart.
  destruct (matchAt_scriptlet body post (rev pre ++ []) Hstart
              (proj2 (blockBodyOK_inv body Hbody))) as [b Hm].
  apply regionFree_windows in Hpre as (PJ & PE & PD & PS & PY).
  apply regionFree_windows in Hpost as (QJ & QE & QD & QS & QY).
  apply blockBodyOK_inv in Hbody as [BJ Hend].
  apply scriptletStart_inv in Hstart as (c & rest & -> & Hc).
  apply orb_false_iff in Hc as [Hc Hminus].
  apply orb_false_iff in Hc as [Hc Hat].
  apply orb_false_iff in Hc as [Heq Hbang].
  unfold scriptletBlock in *.
  assert (Htail : occurs wJsp (js "%" ++ (c :: rest) ++ js "%>" ++ post) = false)
    by (apply jsp_tail_free; [reflexivity|exact BJ|exact QJ]).
  assert (ET : pre ++ (js "<%" ++ (c :: rest) ++ js "%>") ++ post
               = pre ++ ch "<" :: (js "%" ++ (c :: rest) ++ js "%>" ++ post))
    by (now rewrite <- !app_assoc).
  assert (Hearlier : forall p : char -> bool, p c = false -> rejects (ch "<") [p] ->
            occurs (wJsp ++ [p]) (pre ++ (js "<%" ++ (c :: rest) ++ js "%>") ++ post) = false).
  { intros p Hp Hr. rewrite ET. apply earlier_step_free; [exact Hr|exact PJ| |exact Htail].
    unfold wJsp. cbn [js map list_ascii_of_string app hasPrefix].
    rewrite Hp. reflexivity. }
  unfold extractRegions.
  rewrite (replaceAllWith_no_hit store reComment (wJsp ++ [eqc "-"]));
    [|intros u Hu; apply (hasPrefix_weaken (wJsp ++ [eqc "-"]) [eqc "-"]); exact Hu
     |apply Hearlier; [exact Hminus|reject]].
  rewrite (replaceAllWith_no_hit store reDeclaration (wJsp ++ [eqc "!"]));
    [|intros u Hu; exact Hu|apply Hearlier; [exact Hbang|reject]].
  rewrite (replaceAllWith_no_hit store reExpression (wJsp ++ [eqc "="]));
    [|intros u Hu; exact Hu|apply Hearlier; [exact Heq|reject]].
  rewrite (replaceAllWith_one_hit reScriptlet "__JSP_SCRIPT_"
             (fun m => formatJspBlock m options) (0, []) pre
             (js "<%" ++ (c :: rest) ++ js "%>") post b).
  - cbn [fst snd mapSet].
    change (js "__JSP_SCRIPT_" ++ numToString 0 ++ js "__") with (js "__JSP_SCRIPT_0__").
    assert (HJ : occurs wJsp (pre ++ js "__JSP_SCRIPT_0__" ++ post) = false)
      by (skeleton_free (js "__JSP_SCRIPT_0__") (js "_JSP_SCRIPT_0_")).
    rewrite (replaceAllWith_no_hit store reDirective wJsp); [|apply (hasPrefix_weaken wJsp)|exact HJ].
    rewrite (replaceAllWith_no_hit store reEL wEL); [|apply (hasPrefix_weaken wEL)|
      skeleton_free (js "__JSP_SCRIPT_0__") (js "_JSP_SCRIPT_0_")].
    rewrite (replaceAllWith_no_hit store reDEL wDEL); [|apply (hasPrefix_weaken wDEL)|
      skeleton_free (js "__JSP_SCRIPT_0__") (js "_JSP_SCRIPT_0_")].
    rewrite (replaceAllWith_no_hit store reScript wScript); [|apply (hasPrefix_weaken wScript)|
      skeleton_free (js "__JSP_SCRIPT_0__") (js "_JSP_SCRIPT_0_")].
    rewrite (replaceAllWith_no_hit store reStyle wStyle); [|apply (hasPrefix_weaken wStyle)|
      skeleton_free (js "__JSP_SCRIPT_0__") (js "_JSP_SCRIPT_0_")].
    reflexivity.
  - intros a1 a2 E Hne.
    destruct (hasPrefix (req reScriptlet) (a2 ++ (js "<%" ++ (c :: rest) ++ js "%>") ++ post))
      eqn:Eh; [|reflexivity].
    apply (hasPrefix_weaken wJsp) in Eh.
    rewrite <- app_assoc in Eh. cbn [js map list_ascii_of_string app] in Eh.
    rewrite (no_straddle (eqc "<") [eqc "%"] (ch "<") pre _ ltac:(reject) PJ a1 a2 E Hne)
      in Eh. discriminate.
  - discriminate.
  - exact Hm.
  - apply (pieces_no_hit reScriptlet wJsp); [apply (hasPrefix_weaken wJsp)|exact QJ].
Qed.

(** ** The text that is stored for a block of the page language *)

Lemma maxRun_noLF (s : jstring) : noLF s = true -> maxRun s = 0.
Proof.
  induction s as [|c t IH]; [reflexivity|]. cbn [noLF forallb]. intros H.
  apply andb_prop in H as [Hc Ht]. apply negb_true_iff in Hc.
  cbn [maxRun]. rewrite lead_cons_LF, Hc, (IH Ht). reflexivity.
Qed.

Lemma noLF_includesChar (s : jstring) : includesChar s LF = false -> noLF s = true.
Proof.
  unfold noLF, includesChar. induction s as [|c t IH]; [reflexivity|].
  cbn [existsb forallb]. intros H. apply orb_false_iff in H as [Hc Ht].
  unfold isLF. rewrite Hc. exact (IH Ht).
Qed.

Lemma occurs_absent (p : char -> bool) (w : window) (y : jstring) :
  forallb (fun c => negb (p c)) y = true -> occurs (p :: w) y = false.
Proof.
  intros H. rewrite <- (app_nil_r y), (occurs_skip_absent p w y [] H). reflexivity.
Qed.

Lemma inert_wrap (x body y : jstring) (z : char) :
  forallb (fun c => negb (eqc "$" c)) x = true ->
  eqc "$" z || eqc "&" z || eqc "`" z || eqc "'" z = false ->
  forallb (fun c => negb (eqc "$" c)) y = true ->
  inert body = true -> inert (x ++ body ++ z :: y) = true.
Proof.
  unfold inert, wDollar. intros Hx Hz Hy Hb. apply negb_true_iff in Hb.
  apply negb_true_iff. rewrite (occurs_skip_absent _ _ x _ Hx).
  apply occurs_head_sep; [constructor; [exact Hz|constructor]|exact Hb|].
  rewrite occurs_cons, (occurs_absent _ _ y Hy), orb_false_r. cbn [hasPrefix].
  apply orb_false_iff in Hz as [Hz _]. apply orb_false_iff in Hz as [Hz _].
  apply orb_false_iff in Hz as [Hz _]. now rewrite Hz.
Qed.

Lemma inert_trim (s : jstring) : inert s = true -> inert (trim s) = true.
Proof.
  unfold inert. intros H. apply negb_true_iff in H. apply negb_true_iff.
  destruct (occurs wDollar (trim s)) eqn:E; [|reflexivity].
  destruct (trim_decomp s) as (a & b & Es & _). rewrite Es in H.
  now rewrite (occurs_infix wDollar a (trim s) b E) in H.
Qed.

Lemma occurs_collapse (p q : char -> bool) (s : jstring) :
  (forall c, isSpace c = true -> p c = false) ->
  (forall c, isSpace c = true -> q c = false) ->
  forall inRun, occurs [p; q] s = false -> occurs [p; q] (collapse inRun s) = false.
Proof.
  intros Hp Hq. induction s as [|c t IH]; intros inRun H; [reflexivity|].
  rewrite occurs_cons in H. apply orb_false_iff in H as [Hh Ht].
  cbn [collapse]. destruct (isSpace c) eqn:Ec.
  - destruct inRun; [now apply IH|].
    rewrite occurs_cons, (IH true Ht), orb_false_r. cbn [hasPrefix].
    now rewrite (Hp (ch " ") eq_refl).
  - rewrite occurs_cons, (IH false Ht), orb_false_r.
    cbn [hasPrefix] in *. destruct (p c); [|reflexivity]. cbn [andb] in *.
    destruct t as [|d t']; [reflexivity|]. cbn [collapse].
    destruct (isSpace d) eqn:Ed.
    + now rewrite (Hq (ch " ") eq_refl).
    + exact Hh.
Qed.

Lemma inert_directiveContent (s : jstring) :
  inert s = true -> inert (directiveContent s) = true.
Proof.
  intros H. rewrite directiveContent_spec. apply inert_trim.
  unfold inert in *. apply negb_true_iff in H. apply negb_true_iff.
  apply occurs_collapse; [| |exact H].
  - intros c Hc. now apply eqc_space.
  - intros c Hc. now rewrite !eqc_space.
Qed.

Lemma collapse_snoc (s : jstring) (l : char) :
  isSpace l = false ->
  forall inRun, collapse inRun (s ++ [l]) = collapse inRun s ++ [l].
Proof.
  intros Hl. induction s as [|c t IH]; intros inRun.
  - cbn [app collapse]. now rewrite Hl.
  - cbn [app collapse]. destruct (isSpace c); [destruct inRun|]; now rewrite IH.
Qed.

Lemma trimmed_ends (f l : char) (mid : jstring) :
  isSpace f = false -> isSpace l = false -> trimmed (f :: mid ++ [l]).
Proof.
  intros Hf Hl. split.
  - cbn [dropSpace]. now rewrite Hf.
  - change (f :: mid ++ [l]) with ((f :: mid) ++ [l]). rewrite rev_app_distr.
    cbn [rev app dropSpace]. now rewrite Hl.
Qed.

Lemma directiveContent_ends (f l : char) (mid : jstring) :
  isSpace f = false -> isSpace l = false ->
  directiveContent (f :: mid ++ [l]) = f :: collapse false mid ++ [l].
Proof.
  intros Hf Hl. rewrite directiveContent_spec. cbn [collapse]. rewrite Hf.
  rewrite (collapse_snoc mid l Hl). now apply trim_fixed, trimmed_ends.
Qed.

Lemma formatJspComment_block (body : jstring) (options : FormatOptions) :
  formatJspComment (commentBlock body) options
  = if negb (includesChar (trim body) LF) && (length (trim body) <? 80)
    then js "<%-- " ++ trim body ++ js " --%>"
    else commentBlock body.
Proof.
  unfold formatJspComment, commentBlock.
  change 4%Z with (Z.of_nat (length (js "<%--"))).
  change (-4)%Z with (- Z.of_nat (length (js "--%>")))%Z.
  rewrite (slice_mid (js "<%--") body (js "--%>")) by discriminate. reflexivity.
Qed.

Lemma firmEnds_formatJspBlock (block : jstring) (options : FormatOptions) :
  firmEnds (formatJspBlock block options) = true.
Proof.
  unfold formatJspBlock.
  set (content := trim (slice block _ _)).
  destruct (startsWith block (js "<%!"));
    destruct (negb (includesChar content LF) && (length content <? 60)
              && negb (includesChar content (ch "{"))
              && (length (matchAll (Chr ";") content) <=? 1)).
  - apply (firmEnds_between (ch "<") (ch ">") (js "%! ") (js " %") content); reflexivity.
  - apply (firmEnds_between (ch "<") (ch ">") (js "%!" ++ [LF]) ([LF] ++ js "%")
             (formatJavaCode content (indentOf options))); reflexivity.
  - apply (firmEnds_between (ch "<") (ch ">") (js "% ") (js " %") content); reflexivity.
  - apply (firmEnds_between (ch "<") (ch ">") (js "%" ++ [LF]) ([LF] ++ js "%")
             (formatJavaCode content (indentOf options))); reflexivity.
Qed.

Lemma block_kept (pre block post key value : jstring) (options : FormatOptions) :
  extractRegions (pre ++ block ++ post) options
  = ((1, [(key, value)]), pre ++ key ++ post) ->
  key <> [] -> forallb (fun k => negb (isSpace k)) key = true ->
  inert value = true -> runsAllowed options value -> firmEnds value = true ->
  exists a b, formatJsp (pre ++ block ++ post) options = a ++ value ++ b.
Proof.
  intros He Hne Hk Hin Hruns Hfirm.
  apply (formatJsp_one_region _ key value (pre ++ key ++ post)); try assumption.
  apply occurs_exact.
Qed.

(** ** The three names that are void and block-scoped *)

Lemma nonempty_app (A : Type) (x y : list A) :
  match x ++ y with [] => false | _ :: _ => true end
  = match x with [] => false | _ :: _ => true end
    || match y with [] => false | _ :: _ => true end.
Proof. destruct x, y; reflexivity. Qed.

Lemma openEnd_ends (s : jstring) :
  forall pre k,
    match flat_map (ends true (Cat (NotChr "/") (Chr ">")))
                   (unwind (fun c => negb (eqc ">" c)) pre s k) with
    | [] => false
    | _ :: _ => true
    end = openEnd s.
Proof.
  induction s as [|x t IH]; intros pre k; [reflexivity|].
  cbn [unwind openEnd].
  assert (Hx : match ends true (Cat (NotChr "/") (Chr ">")) (St pre (x :: t) k) with
               | [] => false | _ :: _ => true end
               = negb (eqc "/" x) && match t with g :: _ => eqc ">" g | [] => false end).
  { rewrite ends_Cat. unfold NotChr, Chr. rewrite ends_Cls_cons.
    destruct (negb (eqc "/" x)); [|reflexivity]. rewrite flat_map_one.
    destruct t as [|g t']; [reflexivity|]. rewrite ends_Cls_cons.
    now destruct (eqc ">" g). }
  destruct (negb (eqc ">" x)).
  - rewrite flat_map_app, nonempty_app, IH, flat_map_one, Hx. cbn [andb].
    apply orb_comm.
  - rewrite flat_map_one, Hx. cbn [andb]. now rewrite orb_false_r.
Qed.

Lemma selfEnd_ends (s : jstring) :
  forall pre k,
    match flat_map (ends true (Cat (Lit "/>") Eol))
                   (unwind (fun c => negb (eqc ">" c)) pre s k) with
    | [] => false
    | _ :: _ => true
    end = selfEnd s.
Proof.
  induction s as [|x t IH]; intros pre k; [reflexivity|].
  cbn [unwind selfEnd].
  assert (Hx : match ends true (Cat (Lit "/>") Eol) (St pre (x :: t) k) with
               | [] => false | _ :: _ => true end
               = eqc "/" x && match t with [g] => eqc ">" g | _ => false end).
  { rewrite ends_Cat. cbn [Lit seq map list_ascii_of_string]. rewrite ends_Cat.
    unfold Chr. rewrite ends_Cls_cons.
    destruct (eqc "/" x); [|reflexivity]. rewrite flat_map_one.
    destruct t as [|g t']; [reflexivity|]. rewrite ends_Cls_cons.
    destruct (eqc ">" g); [|now destruct t']. rewrite flat_map_one.
    now destruct t'. }
  destruct (negb (eqc ">" x)).
  - rewrite flat_map_app, nonempty_app, IH, flat_map_one, Hx. cbn [andb].
    apply orb_comm.
  - rewrite flat_map_one, Hx. cbn [andb]. now rewrite orb_false_r.
Qed.

Lemma openEnd_not_selfEnd (s : jstring) : openEnd s = true -> selfEnd s = false.
Proof.
  induction s as [|x t IH]; [discriminate|]. cbn [openEnd selfEnd]. intros H.
  apply orb_true_iff in H as [H|H]; apply andb_prop in H as [Hx Ht].
  - apply negb_true_iff in Hx. rewrite Hx. cbn [andb orb].
    destruct t as [|g t']; [discriminate|]. apply eqc_eq in Ht. subst g.
    cbn [selfEnd]. change (eqc "/" (ch ">")) with false.
    change (eqc ">" (ch ">")) with true. cbn [negb andb orb]. apply andb_false_r.
  - rewrite Hx, (IH Ht). cbn [andb]. rewrite orb_false_r.
    destruct (eqc "/" x); [|reflexivity]. cbn [andb].
    destruct t as [|g [|h t']]; try reflexivity.
    cbn [openEnd] in Ht. rewrite !andb_false_r in Ht. discriminate.
Qed.

Lemma test_selfCloseTags (c : char) (s : jstring) :
  test selfCloseTags (ch "<" :: c :: s) = isTagStart c && selfEnd s.
Proof.
  unfold selfCloseTags. cbn [seq]. rewrite test_anchored.
  rewrite ends_Cat. unfold Chr at 1. rewrite ends_Cls_cons.
  change (eqc "<" (ch "<")) with true. cbv iota. rewrite flat_map_one, ends_Cat, ends_Cls_cons.
  destruct (isTagStart c); [|reflexivity]. rewrite flat_map_one, ends_Cat.
  unfold NotChr. rewrite ends_Star_Cls. apply selfEnd_ends.
Qed.

(** After [<] and one of the three names [jspOpenTags] is at the text
    that follows the name. *)
Lemma blockVoid_names (name : string) :
  isBlockVoid name = true ->
  name = "jsp:include"%string \/ name = "jsp:forward"%string \/ name = "jsp:useBean"%string.
Proof.
  unfold isBlockVoid, voidAndBlockNames. cbn [existsb]. intros H.
  repeat (apply orb_true_iff in H as [H|H]; [apply String.eqb_eq in H; tauto|]).
  discriminate.
Qed.

Lemma ends_Cat_assoc (a b c : regex) (s : mstate) :
  ends true (Cat a (Cat b c)) s = flat_map (ends true c) (ends true (Cat a b) s).
Proof.
  cbn [ends]. induction (ends true a s) as [|x l IH]; [reflexivity|].
  cbn [flat_map]. now rewrite flat_map_app, IH.
Qed.

Lemma blockVoid_tests (name : string) (rest : jstring) :
  isBlockVoid name = true ->
  let trimmed := js "<" ++ js name ++ rest in
  test closeTags trimmed = false /\ test jspCloseTags trimmed = false
  /\ test openTags trimmed = false
  /\ test jspOpenTags trimmed = openEnd rest
  /\ test selfCloseTags trimmed = selfEnd rest.
Proof.
  intros H trimmed; subst trimmed.
  apply blockVoid_names in H.
  split; [|split; [|split; [|split]]].
  - unfold closeTags. cbn [seq]. rewrite test_anchored.
    destruct H as [-> | [-> | ->]]; vm_compute; reflexivity.
  - unfold jspCloseTags. cbn [seq]. rewrite test_anchored.
    destruct H as [-> | [-> | ->]]; vm_compute; reflexivity.
  - unfold openTags. cbn [seq]. rewrite test_anchored.
    destruct H as [-> | [-> | ->]]; vm_compute; reflexivity.
  - unfold jspOpenTags. cbn [seq]. rewrite test_anchored, ends_Cat_assoc.
    assert (Hn : exists k,
               ends true (Cat (Chr "<") (Grp 1 jspBlockNames))
                    (St [] (js "<" ++ js name ++ rest) [])
               = [St (rev (js name) ++ [ch "<"]) rest k]).
    { destruct H as [-> | [-> | ->]]; eexists; vm_compute; reflexivity. }
    destruct Hn as [k ->]. rewrite flat_map_one, ends_Cat.
    change (NotChr ">") with (Cls (fun c => negb (eqc ">" c))).
    rewrite ends_Star_Cls. apply openEnd_ends.
  - destruct H as [-> | [-> | ->]];
      cbn [js map list_ascii_of_string app]; rewrite test_selfCloseTags;
      reflexivity.
Qed.

Lemma isBlockVoid_false (name : string) :
  isBlockVoid name = false -> ~ In name voidAndBlockNames.
Proof.
  unfold isBlockVoid. intros H Hin.
  assert (E : existsb (String.eqb name) voidAndBlockNames = true).
  { apply existsb_exists. exists name. split; [exact Hin|apply String.eqb_refl]. }
  congruence.
Qed.

(** ** The nine substitutions, one after the other *)


(** ** A substitution over a text in parts *)






(** ** The code units of keys and the ends of regions *)







(** ** Where the pattern of a kind finds nothing *)













Ltac head_false :=
  rewrite occurs_cons;
  match goal with
  | |- context [hasPrefix ?w (?c :: ?s)] => change (hasPrefix w (c :: s)) with false
  end;
  cbn [orb].




(** ** A substitution over a page *)








(** ** The nine substitutions over a page and what follows it *)


Lemma quiet_nil (k : kind) (r : jstring) : quiet k [] r.
Proof.
  intros ctx a1 a2 E Hne. symmetry in E. apply app_eq_nil in E as [_ E]. congruence.
Qed.









(** ** The walk of [formatHtmlStructure], text by text *)






















(** ** Keys put back around a part of the text *)









(** ** The cap on newlines around a run between two words *)





(** ** A run of blank lines between two words, through [formatJsp] *)






(** ** The claims *)

(** C1, at a failing input: formatting the formatted text again changes
    it.  [formatJavaCode] breaks the line after every semicolon and then
    turns the semicolon and line feed inside the header of a [for]
    statement into a semicolon and a space; the comments of these two
    steps say that [for] statements are left out of the line breaking
    and that their semicolons are restored, but the white space that
    followed a semicolon stays, so each pass leaves one more space after
    the semicolons of the header. *)
Lemma C1_counterexample :
  formatJsp (js "<% for(a;b;c) d; %>") defaultOptions
  = joinLines [js "<%"; js "    for(a; b; c) d;"; js ""; js "%>"]
  /\ formatJsp (formatJsp (js "<% for(a;b;c) d; %>") defaultOptions) defaultOptions
     = joinLines [js "<%"; js "    for(a;  b;  c) d;"; js ""; js "%>"]
  /\ formatJsp (formatJsp (js "<% for(a;b;c) d; %>") defaultOptions) defaultOptions
     <> formatJsp (js "<% for(a;b;c) d; %>") defaultOptions.
Proof.
  split; [vm_compute; reflexivity|]. split; [vm_compute; reflexivity|].
  vm_compute. discriminate.
Qed.


(** Inside a [script] block the interpolation comes back as its key: the
    map is read in insertion order, so the key of the interpolation is
    looked for before the block that holds it is put back. *)
Lemma fragment_in_script_lost :
  formatJsp (js "<script>${a}</script>") defaultOptions = js "<script>__EL_0__</script>".
Proof. vm_compute; reflexivity. Qed.



(** C3. In the walk of [formatHtmlStructure] over the lines of any text
    the level is 0 before the first line and at least 0 after any number
    of lines, whatever these are; the level at which the next line is
    pushed, after the decrement [max 0 (level - 1)] of a closing line, is
    at least 0 as well; and over closing lines that match nothing the
    level stays 0. *)
Theorem C3_depth_never_negative (text : jstring) (options : FormatOptions) :
  fst (htmlWalk (indentOf options) []) = 0%Z
  /\ (forall n : nat,
        (0 <= fst (htmlWalk (indentOf options) (firstn n (splitLines text))))%Z)
  /\ (forall (n : nat) (next : jstring),
        (0 <= lineLevel (fst (htmlWalk (indentOf options) (firstn n (splitLines text))))
                        (trim next))%Z)
  /\ (forall k : nat, fst (htmlWalk (indentOf options) (repeat (js "</div>") k)) = 0%Z).
Proof.
  assert (H : forall n : nat,
             (0 <= fst (htmlWalk (indentOf options) (firstn n (splitLines text))))%Z).
  { intros n. unfold htmlWalk.
    apply fold_left_invariant with (P := fun st => (0 <= fst st)%Z).
    - intros a x; apply htmlStep_level.
    - simpl; lia. }
  split; [reflexivity|]. split; [exact H|]. split.
  - intros n next. specialize (H n). unfold lineLevel.
    destruct (test closeTags (trim next) || test jspCloseTags (trim next)); lia.
  - intros k. unfold htmlWalk. generalize (@nil jstring).
    induction k as [|k IH]; intros acc; [reflexivity|].
    cbn [repeat fold_left]. rewrite htmlStep_line.
    change (nextLevel 0 (js "</div>")) with 0%Z. apply IH.
Qed.

(** C4, as stated, fails: the directive of scenario A has 102 columns, so
    [formatDirective] does not return the multi-line form. *)
Lemma C4_counterexample :
  length scenarioA = 102 /\ formatDirective scenarioA <> scenarioA_multiline.
Proof. split; [reflexivity|]. vm_compute. discriminate. Qed.

(** C4, amended. The directive of scenario A has 102 columns, at most
    120, and [formatDirective] returns it as it is, on one line; the same
    directive with a fifth attribute has 133 columns and is returned in
    the multi-line form: the opener on a line of its own, each pair on a
    line of its own behind four spaces, the closer after the last pair. *)
Theorem C4_scenarioA_directive :
  formatDirective scenarioA = scenarioA
  /\ length longDirective = 133
  /\ formatDirective longDirective = longDirective_multiline.
Proof. repeat split; vm_compute; reflexivity. Qed.

(** C5, at a failing input: a text that ends in a character that is not
    white space comes back without a final newline. *)
Theorem C5_no_final_newline :
  formatJsp (js "abc") defaultOptions = js "abc"
  /\ endsWith (formatJsp (js "abc") defaultOptions) [LF] = false.
Proof. split; vm_compute; reflexivity. Qed.

(** C6, as stated, fails: what comes back is the collapsed content, not
    the original text of the block. *)
Lemma C6_counterexample :
  120 < length (directiveContent malformedDirective)
  /\ (exists m, matchOne reDirectiveParts (directiveContent malformedDirective) = Some m
                /\ matchAll reAttrPair (group 2 m) = [])
  /\ formatDirective malformedDirective <> malformedDirective.
Proof.
  split; [vm_compute; lia|]. split.
  - eexists; split; vm_compute; reflexivity.
  - vm_compute. discriminate.
Qed.

(** C6, amended. When the collapsed content of a directive has more than
    120 columns and either does not match the pattern of opener, name,
    attributes and closer or has at most one attribute pair,
    [formatDirective] returns the collapsed content: the text of the
    block on one line. *)
Theorem C6_directive_fallback (directive : jstring) :
  120 < length (directiveContent directive) ->
  (matchOne reDirectiveParts (directiveContent directive) = None
   \/ exists m, matchOne reDirectiveParts (directiveContent directive) = Some m
                /\ length (matchAll reAttrPair (group 2 m)) <= 1) ->
  formatDirective directive = directiveContent directive.
Proof.
  intros Hlen Hbad. unfold formatDirective. fold (directiveContent directive).
  replace (length (directiveContent directive) <=? 120) with false
    by (symmetry; apply Nat.leb_gt; exact Hlen).
  destruct Hbad as [-> | [m [-> Hm]]]; [reflexivity|].
  now replace (length (matchAll reAttrPair (group 2 m)) <=? 1) with true
    by (symmetry; apply Nat.leb_le; exact Hm).
Qed.

(** A directive without attribute pairs and one without a name. *)
Lemma C6_directive_fallback_witness :
  formatDirective malformedDirective = directiveContent malformedDirective
  /\ formatDirective (js "<%@ " ++ repeatStr (js "=") 120 ++ js " %>")
     = js "<%@ " ++ repeatStr (js "=") 120 ++ js " %>".
Proof.
  split.
  - apply C6_directive_fallback; [vm_compute; lia|].
    right; eexists; split; [vm_compute; reflexivity|vm_compute; lia].
  - rewrite (C6_directive_fallback (js "<%@ " ++ repeatStr (js "=") 120 ++ js " %>"));
      [vm_compute; reflexivity|vm_compute; lia|left; vm_compute; reflexivity].
Defined.

(** C7. A scriptlet or declaration whose trimmed content has no line
    feed, fewer than 60 code units, no opening brace and at most one
    semicolon comes back as the opener, a space, that content, a space
    and the closer, on one line. *)
Theorem C7_short_block_one_line (block : jstring) (options : FormatOptions) :
  let prefix := if startsWith block (js "<%!") then js "<%!" else js "<%" in
  let content := trim (slice block (Z.of_nat (length prefix)) (-2)) in
  includesChar content LF = false ->
  length content < 60 ->
  includesChar content (ch "{") = false ->
  length (filter (eqc ";") content) <= 1 ->
  formatJspBlock block options = prefix ++ js " " ++ content ++ js " %>".
Proof.
  intros prefix content Hlf Hlen Hbrace Hsemi.
  unfold formatJspBlock. fold prefix. fold content.
  rewrite Hlf, Hbrace, matchAll_Chr_length.
  replace (length content <? 60) with true by (symmetry; apply Nat.ltb_lt; exact Hlen).
  now replace (length (filter (eqc ";") content) <=? 1) with true
    by (symmetry; apply Nat.leb_le; exact Hsemi).
Qed.

(** Scenario C: the scriptlet [<% int x = 1; %>] stays as it is. *)
Lemma C7_short_block_one_line_witness :
  formatJspBlock (js "<% int x = 1; %>") defaultOptions = js "<% int x = 1; %>"
  /\ formatJsp (js "<% int x = 1; %>") defaultOptions = js "<% int x = 1; %>".
Proof.
  split; [|vm_compute; reflexivity].
  rewrite (C7_short_block_one_line (js "<% int x = 1; %>") defaultOptions);
    [reflexivity|reflexivity|vm_compute; lia|reflexivity|vm_compute; lia].
Defined.




(** C9, as stated, fails: [jsp:include] is in the lookahead of [openTags]
    and a line with its open tag raises the level from 0 to 1. *)
Lemma C9_counterexample :
  In "jsp:include"%string voidTagNames
  /\ trim (jsq "<jsp:include page='a.jsp'>") = js "<" ++ js "jsp:include" ++ jsq " page='a.jsp'>"
  /\ fst (htmlStep (js "    ") (0%Z, []) (jsq "<jsp:include page='a.jsp'>")) = 1%Z.
Proof. split; [cbn; tauto|]. split; vm_compute; reflexivity. Qed.

(** C9, amended. A line that, trimmed, is [<] and a name of the
    lookahead of [openTags], followed by anything, is pushed at the
    current level; it leaves the level as it was, so that a line after
    it that is not a closing line is pushed at the same level, in every
    case but one: when the name is [jsp:include], [jsp:forward] or
    [jsp:useBean] and, after the name, a code unit other than [/] stands
    directly before a [>] with no [>] before it, the level is raised by
    one, and the line after is pushed one level deeper. *)
Theorem C9_void_tag_keeps_level (indent : jstring) (level : Z) (result : list jstring)
    (rawLine : jstring) (name : string) (rest : jstring) :
  In name voidTagNames ->
  trim rawLine = js "<" ++ js name ++ rest ->
  let after := if isBlockVoid name && openEnd rest then (level + 1)%Z else level in
  htmlStep indent (level, result) rawLine
  = (after, result ++ [repeatStr indent (Z.to_nat level) ++ trim rawLine])
  /\ forall sibling : jstring,
       trim sibling <> [] ->
       test closeTags (trim sibling) = false ->
       test jspCloseTags (trim sibling) = false ->
       snd (htmlStep indent (htmlStep indent (level, result) rawLine) sibling)
       = result ++ [repeatStr indent (Z.to_nat level) ++ trim rawLine;
                    repeatStr indent (Z.to_nat after) ++ trim sibling].
Proof.
  intros Hin Htrim after.
  assert (H : htmlStep indent (level, result) rawLine
              = (after, result ++ [repeatStr indent (Z.to_nat level) ++ trim rawLine])).
  { subst after. unfold htmlStep. rewrite Htrim.
    destruct (isBlockVoid name) eqn:Eb.
    - destruct (blockVoid_tests name rest Eb) as (Hc & Hjc & Ho & Hjo & Hs).
      change (js "<" ++ js name ++ rest) with (ch "<" :: (js name ++ rest)) in *.
      cbv iota beta zeta. rewrite Hc, Hjc, Ho, Hjo, Hs. cbn [orb andb].
      destruct (openEnd rest) eqn:Eo; [|now destruct (negb _)].
      now rewrite (openEnd_not_selfEnd rest Eo).
    - destruct (void_line_tests name rest Hin (isBlockVoid_false name Eb))
        as (Hc & Hjc & Ho & Hjo).
      change (js "<" ++ js name ++ rest) with (ch "<" :: (js name ++ rest)) in *.
      cbv iota beta zeta. rewrite Hc, Hjc, Ho, Hjo. cbn [orb andb].
      now destruct (negb _). }
  split; [exact H|]. intros sibling Hne Hc Hjc.
  rewrite H, htmlStep_line. cbn [snd]. unfold outLine, lineLevel.
  rewrite Hc, Hjc. cbn [orb]. destruct (trim sibling) as [|c t]; [congruence|].
  now rewrite <- app_assoc.
Qed.

(** A line break at level 1 and the line of text after it; an include
    that is self-closing, one without attributes and one that opens. *)
Lemma C9_void_tag_keeps_level_witness :
  (htmlStep (js "  ") (1%Z, [js "<p>"]) (js "  <br>")
   = (1%Z, [js "<p>"; js "  <br>"])
   /\ snd (htmlStep (js "  ") (htmlStep (js "  ") (1%Z, [js "<p>"]) (js "  <br>"))
                    (js "text"))
      = [js "<p>"; js "  <br>"; js "  text"])
  /\ fst (htmlStep (js "  ") (1%Z, []) (jsq "<jsp:include page='a.jsp'/>")) = 1%Z
  /\ fst (htmlStep (js "  ") (1%Z, []) (jsq "<jsp:include>")) = 1%Z
  /\ fst (htmlStep (js "  ") (1%Z, []) (jsq "<jsp:include page='a.jsp'>")) = 2%Z.
Proof.
  split; [|split; [|split]].
  - destruct (C9_void_tag_keeps_level (js "  ") 1%Z [js "<p>"] (js "  <br>")
                "br"%string (js ">")) as [H1 H2].
    + cbn; tauto.
    + reflexivity.
    + split; [exact H1|].
      apply (H2 (js "text"));
        [discriminate|vm_compute; reflexivity|vm_compute; reflexivity].
  - destruct (C9_void_tag_keeps_level (js "  ") 1%Z [] (jsq "<jsp:include page='a.jsp'/>")
                "jsp:include"%string (jsq " page='a.jsp'/>")) as [H1 _];
      [cbn; tauto|reflexivity|]. now rewrite H1.
  - destruct (C9_void_tag_keeps_level (js "  ") 1%Z [] (jsq "<jsp:include>")
                "jsp:include"%string (jsq ">")) as [H1 _];
      [cbn; tauto|reflexivity|]. now rewrite H1.
  - destruct (C9_void_tag_keeps_level (js "  ") 1%Z [] (jsq "<jsp:include page='a.jsp'>")
                "jsp:include"%string (jsq " page='a.jsp'>")) as [H1 _];
      [cbn; tauto|reflexivity|]. now rewrite H1.
Defined.

(** C10. In the loop of [formatJavaCode] the level is 1 before the first
    line and at least 1 after any number of lines, and every line pushed
    to the result is either blank or begins with one unit of
    indentation; so is every line of the text that [formatJavaCode]
    returns when no string literal is put back into it. *)
Theorem C10_java_level_at_least_one (indent : jstring) (lines : list jstring)
    (code : jstring) :
  fst (javaIndent indent []) = 1%Z
  /\ (forall n : nat, (1 <= fst (javaIndent indent (firstn n lines)))%Z)
  /\ Forall (indented indent) (snd (javaIndent indent lines))
  /\ (includesChar code DQUOTE = false -> noLF indent = true ->
      Forall (indented indent) (splitLines (formatJavaCode code indent))).
Proof.
  assert (Hpushed : forall ls, Forall (indented indent) (snd (javaIndent indent ls))).
  { intros ls. unfold javaIndent.
    apply (fold_left_invariant _ _ (javaStep indent)
             (fun st => (1 <= fst st)%Z /\ Forall (indented indent) (snd st))).
    - intros a x; apply javaStep_indented.
    - simpl; split; [lia|constructor]. }
  split; [reflexivity|]. split; [|split; [apply Hpushed|]].
  - intros n. unfold javaIndent.
    apply fold_left_invariant with (P := fun st => (1 <= fst st)%Z).
    + intros a x; apply javaStep_level.
    + simpl; lia.
  - intros Hq Hi.
    destruct (formatJavaCode_no_literal code indent Hq) as (ls & Hne & Hls & ->).
    destruct (javaIndent_lines indent ls Hi Hls Hne) as [Hn Hr].
    rewrite splitLines_joinLines by assumption. apply Hpushed.
Qed.

(** The body of scenario D. *)
Lemma C10_java_level_at_least_one_witness :
  Forall (indented (js "    "))
         (splitLines (formatJavaCode (js "int x=1; if(x>0){ out.println(x); }") (js "    ")))
  /\ splitLines (formatJavaCode (js "int x=1; if(x>0){ out.println(x); }") (js "    "))
     = [js "    int x=1;"; js "    if(x>0){"; js "        out.println(x);"; js "    }"; []].
Proof.
  split; [|vm_compute; reflexivity].
  apply (C10_java_level_at_least_one (js "    ") []
           (js "int x=1; if(x>0){ out.println(x); }")); reflexivity.
Defined.

(** ** Properties of the parts and of the callers *)

(** X1. [formatHtmlStructure] is idempotent: run on its own output with
    the same options it changes nothing, whatever the text. *)
Theorem X1_structure_idempotent (text : jstring) (options : FormatOptions) :
  formatHtmlStructure (formatHtmlStructure text options) options
  = formatHtmlStructure text options.
Proof.
  rewrite (formatHtmlStructure_walk (formatHtmlStructure text options)).
  rewrite splitLines_formatHtmlStructure, formatHtmlStructure_walk.
  now rewrite (walkFrom_idem _ _ (indentOf_space options)).
Qed.

(** X2. [formatHtmlStructure] neither joins nor splits lines and changes
    a line only in the white space at its two ends: line by line, the
    trimmed output is the trimmed input; and no line of the output ends
    with white space. *)
Theorem X2_structure_keeps_lines (text : jstring) (options : FormatOptions) :
  map trim (splitLines (formatHtmlStructure text options)) = map trim (splitLines text)
  /\ length (splitLines (formatHtmlStructure text options)) = length (splitLines text)
  /\ forallb tidy (splitLines (formatHtmlStructure text options)) = true.
Proof.
  rewrite splitLines_formatHtmlStructure.
  pose proof (trim_walkFrom (indentOf options) (splitLines text)
                (indentOf_space options) 0%Z) as H.
  split; [exact H|]. split; [|apply tidy_walkFrom].
  apply (f_equal (@length jstring)) in H. now rewrite !length_map in H.
Qed.

(** X3. [formatJspComment] is idempotent on every text: a comment that
    has been put in the form [<%-- content --%>] stays as it is, and so
    does one that was left alone. *)
Theorem X3_comment_idempotent (comment : jstring) (options : FormatOptions) :
  formatJspComment (formatJspComment comment options) options
  = formatJspComment comment options.
Proof.
  set (content := trim (slice comment 4 (-4))).
  assert (H : formatJspComment comment options
              = if negb (includesChar content LF) && (length content <? 80)
                then js "<%-- " ++ content ++ js " --%>" else comment) by reflexivity.
  rewrite H.
  destruct (negb (includesChar content LF) && (length content <? 80)) eqn:E;
    [|exact H].
  unfold formatJspComment. rewrite (slice_comment content).
  rewrite (trim_pad content (trim_trimmed _)). now rewrite E.
Qed.

(** X4. A scriptlet or declaration that [formatJspBlock] returns on one
    line is a fixed point of [formatJspBlock]. *)
Theorem X4_block_one_line_fixed (block : jstring) (options : FormatOptions) :
  noLF (formatJspBlock block options) = true ->
  formatJspBlock (formatJspBlock block options) options = formatJspBlock block options.
Proof.
  set (prefix := if startsWith block (js "<%!") then js "<%!" else js "<%").
  set (content := trim (slice block (Z.of_nat (length prefix)) (-2))).
  assert (H : formatJspBlock block options
              = if negb (includesChar content LF) && (length content <? 60)
                   && negb (includesChar content (ch "{"))
                   && (length (matchAll (Chr ";") content) <=? 1)
                then prefix ++ js " " ++ content ++ js " %>"
                else prefix ++ [LF] ++ formatJavaCode content (indentOf options)
                            ++ [LF] ++ js "%>") by reflexivity.
  rewrite H.
  destruct (negb (includesChar content LF) && (length content <? 60)
            && negb (includesChar content (ch "{"))
            && (length (matchAll (Chr ";") content) <=? 1)) eqn:E.
  - intros _. apply formatJspBlock_one_line; [|apply trim_trimmed|exact E].
    unfold prefix. destruct (startsWith block (js "<%!")); [now left|now right].
  - intros Hn. rewrite !noLF_app in Hn. cbn in Hn.
    rewrite andb_false_r in Hn. discriminate.
Qed.

(** A short statement, and a declaration of one field. *)
Lemma X4_block_one_line_fixed_witness :
  formatJspBlock (js "<%   x = 1;%>") defaultOptions = js "<% x = 1; %>"
  /\ formatJspBlock (formatJspBlock (js "<%   x = 1;%>") defaultOptions) defaultOptions
     = formatJspBlock (js "<%   x = 1;%>") defaultOptions
  /\ formatJspBlock (formatJspBlock (js "<%!int n;%>") defaultOptions) defaultOptions
     = formatJspBlock (js "<%!int n;%>") defaultOptions.
Proof.
  split; [vm_compute; reflexivity|].
  split; apply X4_block_one_line_fixed; vm_compute; reflexivity.
Defined.

(** X5. The white space at the end of the output of [formatJsp] is at
    most one line feed: a part of the output that reaches its end and is
    white space only is empty or is one line feed. *)
Theorem X5_output_end (text : jstring) (options : FormatOptions) (a u : jstring) :
  formatJsp text options = a ++ u -> forallb isSpace u = true -> u = [] \/ u = [LF].
Proof.
  destruct (formatJsp_last_steps text options) as [body ->]. apply endSpec_tail.
Qed.

(** Markup that ends with blank lines and spaces. *)
Lemma X5_output_end_witness :
  formatJsp (jsq "<div>|</div>  || |") defaultOptions = jsq "<div>|</div>" ++ [LF]
  /\ ([LF] = [] \/ [LF] = [LF]).
Proof.
  split; [vm_compute; reflexivity|].
  apply (X5_output_end (jsq "<div>|</div>  || |") defaultOptions (jsq "<div>|</div>") [LF]);
    vm_compute; reflexivity.
Defined.

(** X6. A text of white space only, the empty text included, is
    formatted to one line feed when it has a line feed in it and to the
    empty text when it has none. *)
Theorem X6_blank_text (text : jstring) (options : FormatOptions) :
  forallb isSpace text = true ->
  formatJsp text options = if includesChar text LF then [LF] else [].
Proof.
  intros H. rewrite (formatJsp_regionFree text options (regionFree_all_space text H)).
  rewrite formatHtmlStructure_walk.
  rewrite (walkFrom_blank _ _ (forallb_isSpace_lines text H)).
  rewrite includesChar_lines.
  destruct (splitLines text) as [|l ls] eqn:E; [now apply splitLines_not_nil in E|].
  cbn [length]. rewrite joinLines_blank.
  assert (Hc : exists j, capNewlines options (repeatStr [LF] (length ls))
                         = repeatStr [LF] j /\ (j = 0 <-> length ls = 0)).
  { rewrite capNewlines_spec. destruct (preserveNewlines options).
    - apply capSpec_all_LF.
    - exists (length ls). tauto. }
  destruct Hc as (j & -> & Hj).
  rewrite endSpec_all_space by (apply repeatStr_space; reflexivity).
  destruct ls as [|l' ls']; cbn [length] in Hj.
  - replace j with 0 by (symmetry; now apply Hj). reflexivity.
  - destruct j as [|j]; [exfalso; destruct Hj as [Hj _]; now specialize (Hj eq_refl)|].
    reflexivity.
Qed.

(** The empty text, spaces, and spaces with line feeds. *)
Lemma X6_blank_text_witness :
  formatJsp [] defaultOptions = []
  /\ formatJsp (js "   ") defaultOptions = []
  /\ formatJsp (jsq " | ||  ") defaultOptions = [LF].
Proof.
  split; [|split].
  - apply (X6_blank_text [] defaultOptions); reflexivity.
  - apply (X6_blank_text (js "   ") defaultOptions); reflexivity.
  - apply (X6_blank_text (jsq " | ||  ") defaultOptions); reflexivity.
Defined.

(** X7. On a text in which no protected region opens, [formatJsp]
    changes white space only: the code units that are not white space
    are the same, in the same order, before and after. *)
Theorem X7_markup_ink (text : jstring) (options : FormatOptions) :
  regionFree text = true -> ink (formatJsp text options) = ink text.
Proof.
  intros H. rewrite (formatJsp_regionFree text options H).
  rewrite ink_endSpec, capNewlines_spec.
  destruct (preserveNewlines options); [rewrite ink_capSpec|];
    apply ink_formatHtmlStructure.
Qed.

Lemma X7_markup_ink_witness :
  ink (formatJsp (jsq "<ul>|  <li>a  b</li>||||| </ul>  ") defaultOptions)
  = js "<ul><li>ab</li></ul>".
Proof.
  rewrite (X7_markup_ink (jsq "<ul>|  <li>a  b</li>||||| </ul>  ") defaultOptions);
    vm_compute; reflexivity.
Defined.

(** X8. On a text in which no protected region opens, no line of the
    output of [formatJsp] ends with white space. *)
Theorem X8_markup_lines_tidy (text : jstring) (options : FormatOptions) :
  regionFree text = true ->
  forallb tidy (splitLines (formatJsp text options)) = true.
Proof.
  intros H. rewrite (formatJsp_regionFree text options H).
  rewrite <- (lines_fixed text options). apply tidy_walkFrom.
Qed.

Lemma X8_markup_lines_tidy_witness :
  forallb tidy (splitLines (formatJsp (jsq "<p>  | text   |  </p>   |") defaultOptions))
  = true.
Proof. apply X8_markup_lines_tidy. vm_compute; reflexivity. Defined.

(** X9. The cap on blank lines only takes empty lines out: the lines of
    the capped text are the lines of the text without some of the empty
    ones, so the lines that are not empty are the same, in the same
    order. *)
Theorem X9_cap_removes_blank_lines_only (text : jstring) (options : FormatOptions) :
  Del (splitLines text) (splitLines (capNewlines options text))
  /\ filter (fun l => negb (isBlank l)) (splitLines (capNewlines options text))
     = filter (fun l => negb (isBlank l)) (splitLines text)
  /\ length (splitLines (capNewlines options text)) <= length (splitLines text).
Proof.
  assert (H : Del (splitLines text) (splitLines (capNewlines options text))).
  { rewrite capNewlines_spec. destruct (preserveNewlines options); [|apply Del_refl].
    apply DelT_Del. apply (lines_capSpec _ (length text)). lia. }
  split; [exact H|]. split; [symmetry; now apply Del_filter|now apply Del_length].
Qed.

(** X10. [formatJavaCode] and [formatJspBlock] change white space only
    when the code has no quotation mark in it: the code units that are
    not white space are the same, in the same order, before and after
    the line breaks and the indentation are put in. *)
Theorem X10_scriptlet_ink (inner : jstring) (options : FormatOptions) :
  includesChar inner DQUOTE = false ->
  ink (formatJavaCode inner (indentOf options)) = ink inner
  /\ ink (formatJspBlock (js "<%" ++ inner ++ js "%>") options)
     = ink (js "<%" ++ inner ++ js "%>").
Proof.
  intros Hq. split; [apply ink_formatJavaCode; [exact Hq|apply indentOf_space]|].
  destruct (formatJspBlock_parts inner) as (prefix & body & Hb & Hf).
  rewrite Hf, Hb.
  assert (Hbody : includesChar body DQUOTE = false).
  { apply (f_equal (fun s => includesChar s DQUOTE)) in Hb.
    rewrite !includesChar_app in Hb. rewrite Hq in Hb. cbn in Hb.
    destruct (includesChar prefix DQUOTE); [discriminate|].
    destruct (includesChar body DQUOTE); [discriminate|reflexivity]. }
  destruct (negb (includesChar (trim body) LF) && (length (trim body) <? 60)
            && negb (includesChar (trim body) (ch "{"))
            && (length (matchAll (Chr ";") (trim body)) <=? 1)).
  - rewrite !ink_app, ink_trim. reflexivity.
  - rewrite !ink_app, ink_formatJavaCode, ink_trim;
      [reflexivity|now apply includesChar_trim|apply indentOf_space].
Qed.

Lemma X10_scriptlet_ink_witness :
  formatJavaCode (js "for(int i=0;i<n;i++){ s+=i; }") (js "  ")
  = joinLines [js "  for(int i=0; i<n; i++){"; js "    s+=i;"; js "  }"; js ""]
  /\ ink (formatJspBlock (js "<%" ++ js "for(int i=0;i<n;i++){ s+=i; }" ++ js "%>")
                         defaultOptions)
     = js "<%for(inti=0;i<n;i++){s+=i;}%>".
Proof.
  split; [vm_compute; reflexivity|].
  destruct (X10_scriptlet_ink (js "for(int i=0;i<n;i++){ s+=i; }") defaultOptions eq_refl)
    as [_ H].
  rewrite H. vm_compute; reflexivity.
Defined.

(** X11. The content that [formatDirective] works on, and that
    [formatJsp] stores for an expression block, is the text with each run
    of white space made one space and the ends trimmed: it has the code
    units of the text that are not white space, all its white space is
    single spaces between two of them, and collapsing it again changes
    nothing. *)
Theorem X11_collapsed_content (text : jstring) :
  ink (directiveContent text) = ink text
  /\ spaced (directiveContent text) = true
  /\ trimmed (directiveContent text)
  /\ noLF (directiveContent text) = true
  /\ directiveContent (directiveContent text) = directiveContent text.
Proof.
  split; [rewrite directiveContent_spec, ink_trim; apply ink_collapse|].
  split; [apply directiveContent_spaced|].
  split; [rewrite directiveContent_spec; apply trim_trimmed|].
  split; [apply spaced_noLF, directiveContent_spaced|apply directiveContent_idem].
Qed.

(** X12. [formatDirective] reads a directive through its collapsed
    content only, and a directive that it returns on one line is a fixed
    point of it. *)
Theorem X12_directive_one_line_fixed (directive : jstring) :
  formatDirective (directiveContent directive) = formatDirective directive
  /\ (noLF (formatDirective directive) = true ->
      formatDirective (formatDirective directive) = formatDirective directive).
Proof.
  split; [apply formatDirective_content|]. intros Hn.
  destruct (formatDirective_cases directive) as [H | H].
  - rewrite H at 1. apply formatDirective_content.
  - apply includesChar_noLF in Hn. congruence.
Qed.

(** The directive of scenario A with its attributes on four lines. *)
Lemma X12_directive_one_line_fixed_witness :
  formatDirective scenarioA_multiline = scenarioA
  /\ formatDirective (formatDirective scenarioA_multiline)
     = formatDirective scenarioA_multiline.
Proof.
  split; [vm_compute; reflexivity|].
  apply (X12_directive_one_line_fixed scenarioA_multiline). vm_compute; reflexivity.
Defined.

(** X13. After the nine substitutions of [formatJsp] the counter is the
    number of entries of the map, every key is a prefix of the nine, a
    value that the counter had and two underscores, and no two entries
    have the same key: no stored region is overwritten by another. *)
Theorem X13_keys_distinct (text : jstring) (options : FormatOptions) :
  let st := fst (extractRegions text options) in
  NoDup (map fst (snd st))
  /\ length (snd st) = fst st
  /\ Forall (fun k => exists p i, In p kinds /\ i < fst st /\ k = keyFor p i)
            (map fst (snd st)).
Proof.
  destruct (extractRegions_wellKeyed text options) as (H1 & H2 & H3).
  cbv zeta. split; [exact H3|]. split; [now symmetry|exact H2].
Qed.

(** X14. [formatRange] returns no edit exactly when [formatJsp] leaves
    the text of the range as it is, and one edit that replaces the range
    otherwise; so on a range that holds the output of [formatJsp] for a
    text without protected regions, with the same settings, it returns
    no edit, and so do the two providers. *)
Theorem X14_formatRange_stable (Position Range : Type)
    (newRange : Position -> Position -> Range)
    (config : Configuration) (document : TextDocument Position Range)
    (range : Range) (options : FormattingOptions) :
  let text := getText document (Some range) in
  let formatted := formatJsp text (formatOptionsOf config options) in
  (formatRange config document range options = [] <-> formatted = text)
  /\ (formatted <> text ->
      formatRange config document range options = [Replace range formatted])
  /\ (forall t, regionFree t = true ->
        text = formatJsp t (formatOptionsOf config options) ->
        provideDocumentRangeFormattingEdits config document range options = [])
  /\ (forall t, regionFree t = true ->
        getText document
          (Some (newRange (positionAt document 0)
                          (positionAt document (length (getText document None)))))
        = formatJsp t (formatOptionsOf config options) ->
        provideDocumentFormattingEdits newRange config document options = []).
Proof.
  cbv zeta.
  assert (Hstable : forall r t, regionFree t = true ->
            getText document (Some r) = formatJsp t (formatOptionsOf config options) ->
            formatRange config document r options = []).
  { intros r t Ht E. unfold formatRange. rewrite E, (formatJsp_twice t _ Ht).
    now rewrite eqs_refl. }
  split; [|split; [|split]].
  - unfold formatRange.
    destruct (eqs (formatJsp (getText document (Some range)) (formatOptionsOf config options))
                  (getText document (Some range))) eqn:E.
    + apply eqs_eq in E. tauto.
    + split; [discriminate|]. intros H. apply eqs_eq in H. congruence.
  - intros H. unfold formatRange.
    destruct (eqs (formatJsp (getText document (Some range)) (formatOptionsOf config options))
                  (getText document (Some range))) eqn:E; [|reflexivity].
    apply eqs_eq in E. contradiction.
  - intros t Ht E. exact (Hstable range t Ht E).
  - intros t Ht E. exact (Hstable _ t Ht E).
Qed.

(** A document that holds formatted markup, with a tab size of two in
    the settings. *)
Lemma X14_formatRange_stable_witness :
  provideDocumentFormattingEdits (fun a b : nat => (a, b))
    {| cfgTabSize := Some 2; cfgInsertSpaces := None; cfgPreserveNewlines := None;
       cfgMaxPreserveNewlines := None; cfgWrapLineLength := None |}
    {| getText := fun _ : option (nat * nat) => jsq "<div>|  <br>|</div>|";
       positionAt := fun n : nat => n |}
    {| editorTabSize := 4; editorInsertSpaces := true |} = []
  /\ formatRange
       {| cfgTabSize := Some 2; cfgInsertSpaces := None; cfgPreserveNewlines := None;
          cfgMaxPreserveNewlines := None; cfgWrapLineLength := None |}
       {| getText := fun _ : option (nat * nat) => jsq "<div>|  <br>|</div>|";
          positionAt := fun n : nat => n |}
       (0, 20) {| editorTabSize := 4; editorInsertSpaces := true |} = [].
Proof.
  set (config := {| cfgTabSize := Some 2; cfgInsertSpaces := None;
                    cfgPreserveNewlines := None; cfgMaxPreserveNewlines := None;
                    cfgWrapLineLength := None |}).
  set (options := {| editorTabSize := 4; editorInsertSpaces := true |}).
  set (document := {| getText := fun _ : option (nat * nat) => jsq "<div>|  <br>|</div>|";
                      positionAt := fun n : nat => n |}).
  destruct (X14_formatRange_stable nat (nat * nat) (fun a b => (a, b)) config document
              (0, 20) options) as (H1 & _ & _ & H4).
  split.
  - apply (H4 (jsq "<div>|<br>|</div>|")); vm_compute; reflexivity.
  - apply H1. vm_compute. reflexivity.
Defined.

(** X15. [formatHtmlStructure] lays out by its nesting a text that is
    not empty and is built, a line each, from leaves and from elements,
    an element being an opening line, leaves and elements, and a
    closing line.  No line has a line feed in it, and each is read
    trimmed.  An opening line is [<], a letter or a colon, at least one
    more code unit and a last [>], with no [>] before the last one, no
    [/] directly before it and, after the [<], no name of the lookahead
    of [openTags]: a tag of one letter without attributes such as [<p>],
    a tag whose name begins with a name of the lookahead such as
    [<colgroup>], and the tags [jsp:include], [jsp:forward] and
    [jsp:useBean] are not opening lines.  A closing line is [</], a
    letter or a colon and a last [>] with no [>] before it.  A leaf is a
    line that does not begin with [<], a blank line included, a line
    that begins with [<!], a self-closing tag, that is [<], a letter or
    a colon and a last [/>] with no [>] before it, or a line that begins
    with [<] and a name of the lookahead other than [jsp:include],
    [jsp:forward] and [jsp:useBean].  In the output every line is
    trimmed and stands behind one unit of indentation for each element
    around it, the closing line of an element at the depth of its
    opening line, and a blank line is empty. *)
Theorem X15_nested_layout (forest : list markup) (options : FormatOptions) :
  forest <> [] -> forallb wellFormed forest = true ->
  formatHtmlStructure (joinLines (flat_map linesOf forest)) options
  = joinLines (flat_map (layout (indentOf options) 0) forest).
Proof.
  intros Hne Hwf. rewrite formatHtmlStructure_walk.
  rewrite splitLines_joinLines.
  - f_equal. apply (walk_forest (indentOf options) forest Hwf 0).
  - destruct forest as [|m forest]; [congruence|]. cbn [flat_map].
    pose proof (linesOf_not_nil m). destruct (linesOf m); [congruence|discriminate].
  - clear Hne. induction forest as [|m forest IH]; [reflexivity|].
    cbn [forallb] in Hwf. apply andb_prop in Hwf as [Hm Hwf].
    cbn [flat_map]. now rewrite forallb_app, (linesOf_noLF m Hm), IH.
Qed.

(** A list in a division, with a line break, a self-closing tag, a
    blank line and a comment of the markup language. *)
Lemma X15_nested_layout_witness :
  formatHtmlStructure
    (jsq "<div class='a'>|<ul>|<li>|one|<br>|</li>| |<img src='x'/>|</ul>|<!-- c -->|</div>")
    defaultOptions
  = jsq "<div class='a'>|    <ul>|        <li>|            one|            <br>|        </li>||        <img src='x'/>|    </ul>|    <!-- c -->|</div>".
Proof.
  apply (X15_nested_layout
           [Element (jsq "<div class='a'>")
              [Element (js "<ul>")
                 [Element (js "<li>") [Line (js "one"); Line (js "<br>")] (js "</li>");
                  Line (js " "); Line (jsq "<img src='x'/>")]
                 (js "</ul>");
               Line (js "<!-- c -->")]
              (js "</div>")]
           defaultOptions); [discriminate|vm_compute; reflexivity].
Defined.

(** X16. A tag of one letter without attributes, such as [<p>], does
    not raise the level, whatever the code unit between the brackets is:
    the patterns for opening tags need two code units at least after the
    [<].  Its closing tag lowers the level all the same. *)
Theorem X16_one_letter_tag (indent : jstring) (level : Z) (result : list jstring)
    (c : char) :
  htmlStep indent (level, result) [ch "<"; c; ch ">"]
  = (level, result ++ [repeatStr indent (Z.to_nat level) ++ [ch "<"; c; ch ">"]])
  /\ (isTagStart c = true ->
      htmlStep indent (level, result) [ch "<"; ch "/"; c; ch ">"]
      = (Z.max 0 (level - 1),
         result ++ [repeatStr indent (Z.to_nat (Z.max 0 (level - 1)))
                    ++ [ch "<"; ch "/"; c; ch ">"]])).
Proof.
  split.
  - assert (Ht : trim [ch "<"; c; ch ">"] = [ch "<"; c; ch ">"])
      by (apply trim_fixed; split; reflexivity).
    destruct (one_letter_tests c) as (H1 & H2 & H3 & H4).
    rewrite htmlStep_line.
    destruct (neutral_step indent level [ch "<"; c; ch ">"]) as [-> ->];
      rewrite ?Ht; auto.
  - intros Hc.
    assert (Ht : trim [ch "<"; ch "/"; c; ch ">"] = [ch "<"; ch "/"; c; ch ">"])
      by (apply trim_fixed; split; reflexivity).
    rewrite htmlStep_line.
    destruct (close_step indent level [ch "<"; ch "/"; c; ch ">"]) as [-> ->].
    + rewrite Ht. cbn. now rewrite Hc.
    + unfold pushed. now rewrite Ht.
Qed.

(** A paragraph in a division: the text is not indented under [<p>],
    and [</p>] closes the level of the division. *)
Lemma X16_one_letter_tag_witness :
  htmlStep (js "  ") (1%Z, [js "<div>"]) (js "</p>") = (0%Z, [js "<div>"; js "</p>"])
  /\ formatHtmlStructure (jsq "<div>|<p>|text|</p>|</div>") defaultOptions
     = jsq "<div>|    <p>|    text|</p>|</div>".
Proof.
  split; [|vm_compute; reflexivity].
  destruct (X16_one_letter_tag (js "  ") 1%Z [js "<div>"] (ch "p")) as [_ H].
  apply H. reflexivity.
Defined.

(** X17. A [script] or [style] block between two parts in which no
    protected region opens comes into the output of [formatJsp] as it
    is, whatever is done to the lines around it, when in its body none
    of [<%], [${] and [#{] occurs, the closing tag occurs only at its
    end (and, for a [style] block, no [<script] occurs), none of the
    replacement patterns [$$], [$&], the dollar sign with a backquote
    and [$'] occurs, and no run of line feeds is longer than the cap on
    newlines allows. *)
Theorem X17_raw_block_kept (pre body post : jstring) (options : FormatOptions) :
  regionFree pre = true -> regionFree post = true ->
  rawBodyOK body = true -> inert body = true -> runsAllowed options body ->
  (occurs wScriptEnd (body ++ js "</script") = false ->
   exists a b,
     formatJsp (pre ++ scriptBlock body ++ post) options = a ++ scriptBlock body ++ b)
  /\ (occurs wScript body = false -> occurs wStyleEnd (body ++ js "</style") = false ->
      exists a b,
        formatJsp (pre ++ styleBlock body ++ post) options = a ++ styleBlock body ++ b).
Proof.
  intros Hpre Hpost Hbody Hin Hruns. split.
  - intros Hend. now apply scriptBlock_kept.
  - intros BS Hend. now apply styleBlock_kept.
Qed.

(** A script with lines that are indented and a dollar sign, in a
    division. *)
Lemma X17_raw_block_kept_witness :
  formatJsp (jsq "<div>|<script>|  var a = $('#x');|    go(a);|</script>|</div>")
            defaultOptions
  = jsq "<div>|    <script>|  var a = $('#x');|    go(a);|</script>|</div>"
  /\ exists a b,
       formatJsp (jsq "<div>|" ++ scriptBlock (jsq ">|  var a = $('#x');|    go(a);|")
                    ++ jsq "|</div>") defaultOptions
       = a ++ scriptBlock (jsq ">|  var a = $('#x');|    go(a);|") ++ b.
Proof.
  split; [vm_compute; reflexivity|].
  destruct (X17_raw_block_kept (jsq "<div>|") (jsq ">|  var a = $('#x');|    go(a);|")
              (jsq "|</div>") defaultOptions) as [H _]; try reflexivity.
  - right. vm_compute. lia.
  - apply H. reflexivity.
Defined.

(** X18. A comment of the page language between two parts in which no
    protected region opens comes into the output of [formatJsp] as
    [formatJspComment] returns it, when [--%>] occurs in it only at its
    end, none of the replacement patterns [$$], [$&], the dollar sign
    with a backquote and [$'] occurs in its body and no run of line
    feeds of its body is longer than the cap on newlines allows. *)
Theorem X18_comment_kept (pre body post : jstring) (options : FormatOptions) :
  regionFree pre = true -> regionFree post = true ->
  occurs wCommentEnd (body ++ js "--%") = false ->
  inert body = true -> runsAllowed options body ->
  exists a b,
    formatJsp (pre ++ commentBlock body ++ post) options
    = a ++ formatJspComment (commentBlock body) options ++ b.
Proof.
  intros Hpre Hpost Hend Hin Hruns.
  apply (block_kept pre (commentBlock body) post (js "__JSP_COMMENT_0__")).
  - now apply extractRegions_comment.
  - discriminate.
  - reflexivity.
  - rewrite formatJspComment_block.
    destruct (negb (includesChar (trim body) LF) && (length (trim body) <? 80)).
    + apply (inert_wrap (js "<%-- ") (trim body) (js "--%>") (ch " "));
        [reflexivity|reflexivity|reflexivity|now apply inert_trim].
    + apply (inert_wrap (js "<%--") body (js "-%>") (ch "-"));
        [reflexivity|reflexivity|reflexivity|exact Hin].
  - rewrite formatJspComment_block.
    destruct (negb (includesChar (trim body) LF) && (length (trim body) <? 80)) eqn:E.
    + right. rewrite maxRun_noLF; [lia|].
      apply andb_prop in E as [E _]. apply negb_true_iff in E.
      rewrite !noLF_app. now rewrite (noLF_includesChar (trim body) E).
    + apply (runsAllowed_between options body (js "<%--") (js "-%>") (ch "-"));
        [exact Hruns|reflexivity|reflexivity|reflexivity].
  - rewrite formatJspComment_block.
    destruct (negb (includesChar (trim body) LF) && (length (trim body) <? 80)).
    + apply (firmEnds_between (ch "<") (ch ">") (js "%-- ") (js " --%") (trim body));
        reflexivity.
    + apply (firmEnds_between (ch "<") (ch ">") (js "%--") (js "--%") body); reflexivity.
Qed.

(** A comment of three lines, in a division. *)
Lemma X18_comment_kept_witness :
  exists a b,
    formatJsp (jsq "<div>|" ++ commentBlock (jsq "| price in $|  per unit|") ++ jsq "|</div>")
              defaultOptions
    = a ++ formatJspComment (commentBlock (jsq "| price in $|  per unit|")) defaultOptions
        ++ b.
Proof.
  apply (X18_comment_kept (jsq "<div>|") (jsq "| price in $|  per unit|") (jsq "|</div>")
           defaultOptions); try reflexivity.
  right. vm_compute. lia.
Defined.

(** X19. An expression of the page language between two parts in which
    no protected region opens comes into the output of [formatJsp] with
    every run of white space made one space, when in its body neither
    [<%] nor [%>] occurs and none of the replacement patterns [$$],
    [$&], the dollar sign with a backquote and [$'] occurs. *)
Theorem X19_expression_kept (pre body post : jstring) (options : FormatOptions) :
  regionFree pre = true -> regionFree post = true ->
  blockBodyOK body = true -> inert body = true ->
  trim (replaceAll reSpaces 0 (js " ") (expressionBlock body))
  = js "<%=" ++ collapse false body ++ js "%>"
  /\ exists a b,
       formatJsp (pre ++ expressionBlock body ++ post) options
       = a ++ (js "<%=" ++ collapse false body ++ js "%>") ++ b.
Proof.
  intros Hpre Hpost Hbody Hin.
  assert (Hv : directiveContent (expressionBlock body)
               = js "<%=" ++ collapse false body ++ js "%>").
  { unfold expressionBlock.
    replace (js "<%=" ++ body ++ js "%>")
      with (ch "<" :: (js "%=" ++ body ++ js "%") ++ [ch ">"])
      by (now rewrite <- !app_assoc).
    rewrite (directiveContent_ends (ch "<") (ch ">") _ eq_refl eq_refl).
    cbn [js map list_ascii_of_string app collapse].
    change (isSpace (ch "%")) with false. change (isSpace (ch "=")) with false. cbv iota.
    rewrite (collapse_snoc body (ch "%") eq_refl). cbn [app].
    now rewrite <- app_assoc. }
  split; [exact Hv|]. rewrite <- Hv.
  apply (block_kept pre (expressionBlock body) post (js "__JSP_EXPR_0__")).
  - now apply extractRegions_expression.
  - discriminate.
  - reflexivity.
  - apply inert_directiveContent.
    apply (inert_wrap (js "<%=") body (js ">") (ch "%"));
      [reflexivity|reflexivity|reflexivity|exact Hin].
  - right. rewrite maxRun_noLF; [lia|].
    apply spaced_noLF, directiveContent_spaced.
  - rewrite Hv.
    apply (firmEnds_between (ch "<") (ch ">") (js "%=") (js "%") (collapse false body));
      reflexivity.
Qed.

(** An expression on three lines, in a paragraph. *)
Lemma X19_expression_kept_witness :
  trim (replaceAll reSpaces 0 (js " ") (expressionBlock (jsq "| user.getName( )|      |")))
  = jsq "<%= user.getName( ) %>"
  /\ exists a b,
       formatJsp (jsq "<p>" ++ expressionBlock (jsq "| user.getName( )|      |") ++ jsq "</p>")
                 defaultOptions
       = a ++ jsq "<%= user.getName( ) %>" ++ b.
Proof.
  apply (X19_expression_kept (jsq "<p>") (jsq "| user.getName( )|      |") (jsq "</p>")
           defaultOptions); reflexivity.
Defined.

(** X20. A declaration or a scriptlet of the page language between two
    parts in which no protected region opens comes into the output of
    [formatJsp] as [formatJspBlock] returns it, when in its body neither
    [<%] nor [%>] occurs, the body of the scriptlet does not start with
    one of [=], [!], [@] and [-], none of the replacement patterns [$$],
    [$&], the dollar sign with a backquote and [$'] occurs in the text
    that [formatJspBlock] returns and no run of line feeds of that text
    is longer than the cap on newlines allows. *)
Theorem X20_block_kept (pre body post : jstring) (options : FormatOptions) :
  regionFree pre = true -> regionFree post = true -> blockBodyOK body = true ->
  (inert (formatJspBlock (declarationBlock body) options) = true ->
   runsAllowed options (formatJspBlock (declarationBlock body) options) ->
   exists a b,
     formatJsp (pre ++ declarationBlock body ++ post) options
     = a ++ formatJspBlock (declarationBlock body) options ++ b)
  /\ (scriptletStart body = true ->
      inert (formatJspBlock (scriptletBlock body) options) = true ->
      runsAllowed options (formatJspBlock (scriptletBlock body) options) ->
      exists a b,
        formatJsp (pre ++ scriptletBlock body ++ post) options
        = a ++ formatJspBlock (scriptletBlock body) options ++ b).
Proof.
  intros Hpre Hpost Hbody. split.
  - intros Hin Hruns.
    apply (block_kept pre (declarationBlock body) post (js "__JSP_DECL_0__"));
      [now apply extractRegions_declaration|discriminate|reflexivity|exact Hin|exact Hruns|].
    apply firmEnds_formatJspBlock.
  - intros Hstart Hin Hruns.
    apply (block_kept pre (scriptletBlock body) post (js "__JSP_SCRIPT_0__"));
      [now apply extractRegions_scriptlet|discriminate|reflexivity|exact Hin|exact Hruns|].
    apply firmEnds_formatJspBlock.
Qed.

(** A scriptlet with a loop, in a list. *)
Lemma X20_block_kept_witness :
  formatJspBlock (scriptletBlock (jsq " for (int i = 0; i < n; i++) { out.print(i); } "))
                 defaultOptions
  = jsq "<%|    for (int i = 0;  i < n;  i++) {|        out.print(i);|    }||%>"
  /\ exists a b,
       formatJsp (jsq "<ul>|"
                    ++ scriptletBlock (jsq " for (int i = 0; i < n; i++) { out.print(i); } ")
                    ++ jsq "|</ul>") defaultOptions
       = a ++ formatJspBlock
                (scriptletBlock (jsq " for (int i = 0; i < n; i++) { out.print(i); } "))
                defaultOptions ++ b.
Proof.
  split; [vm_compute; reflexivity|].
  destruct (X20_block_kept (jsq "<ul>|")
              (jsq " for (int i = 0; i < n; i++) { out.print(i); } ")
              (jsq "|</ul>") defaultOptions) as [_ H]; try reflexivity.
  apply H; [reflexivity|vm_compute; reflexivity|right; vm_compute; lia].
Defined.

(** X21. On a text in which no protected region opens, that is, in which
    none of [<%], [${], [#{], [<script] and [<style] occurs, the last two
    in any letter case, formatting the formatted text again with the
    same options gives the same text. *)
Theorem X21_idempotent_without_regions (t : jstring) (options : FormatOptions) :
  regionFree t = true ->
  formatJsp (formatJsp t options) options = formatJsp t options.
Proof.
  intros H.
  rewrite (formatJsp_regionFree (formatJsp t options) options
             (regionFree_formatJsp t options H)).
  rewrite (formatJsp_regionFree t options H).
  rewrite formatHtmlStructure_fixed, capNewlines_fixed. apply endSpec_idem.
Qed.

(** Markup with a block-scoped tag, a void tag, a long run of blank lines
    and white space at the end. *)
Lemma X21_idempotent_without_regions_witness :
  formatJsp (jsq "<div>|<c:if test='x'>|<br>|  text  ||||||</c:if>|  </div>|| ") defaultOptions
  = jsq "<div>|    <c:if test='x'>|        <br>|        text|||    </c:if>|</div>|"
  /\ formatJsp (formatJsp (jsq "<div>|<c:if test='x'>|<br>|  text  ||||||</c:if>|  </div>|| ")
                          defaultOptions) defaultOptions
     = formatJsp (jsq "<div>|<c:if test='x'>|<br>|  text  ||||||</c:if>|  </div>|| ")
                 defaultOptions.
Proof.
  split; [vm_compute; reflexivity|].
  apply X21_idempotent_without_regions. vm_compute; reflexivity.
Defined.
